(** * Deployments Explorer: the markdown parser of [app.js]

    A shallow embedding of [parseMarkdown], [findNearestCategory] and
    [splitMarkdownRow], together with the part of the JavaScript runtime
    they rely on (strings as sequences of UTF-16 code units, a backtracking
    matcher for the regular expressions that occur in the source, [split],
    [replace], [trim], [Set]); of the same three functions on the store
    a call can reach (the [state] object and the [RegExp] objects); and of
    what the page does with the result: the writes of the event handlers
    to [state], the filter of [render], [escapeHtml], [escapeAttr] and the
    markup of the table rows. *)

From Stdlib Require Import NArith String Ascii.
From stdpp Require Import gmap list sorting.

Local Open Scope N_scope.
Local Open Scope nat_scope.

(** ** Strings *)

(** A JavaScript string is a sequence of UTF-16 code units. *)
Abbreviation char := N (only parsing).
Abbreviation jsstring := (list N) (only parsing).

(** String literals of the source, written with 8-bit characters. *)
Definition lit (s : string) : jsstring :=
  (λ a, N_of_ascii a) <$> list_ascii_of_string s.

Definition chr_eq (a : char) : char → bool := N.eqb a.

(** Case-insensitive comparison with an ASCII letter (flag [i] without flag
    [u]): a code unit above 127 never canonicalizes to an ASCII one, so
    only the two cases of the letter itself match. *)
Definition ascii_upper (c : char) : char :=
  if ((97 <=? c) && (c <=? 122))%N then (c - 32)%N else c.
Definition chr_eq_ci (a : char) (c : char) : bool :=
  N.eqb (ascii_upper a) (ascii_upper c) && (c <? 128)%N.

(** [LineTerminator] and [WhiteSpace] of ECMAScript. *)
Definition isLineTerminator (c : char) : bool :=
  ((c =? 10) || (c =? 13) || (c =? 8232) || (c =? 8233))%N.

Definition isWhiteSpace (c : char) : bool :=
  ((c =? 9) || (c =? 11) || (c =? 12) || (c =? 32) || (c =? 160)
   || (c =? 5760) || ((8192 <=? c) && (c <=? 8202)) || (c =? 8239)
   || (c =? 8287) || (c =? 12288) || (c =? 65279))%N.

(** The class [\s], which is also what [trim] strips. *)
Definition cls_space (c : char) : bool := isWhiteSpace c || isLineTerminator c.
(** The class [.] (no [s] flag). *)
Definition cls_dot (c : char) : bool := negb (isLineTerminator c).

Definition substring (from to : nat) (s : jsstring) : jsstring :=
  take (to - from) (drop from s).

Fixpoint drop_space (s : jsstring) : jsstring :=
  match s with
  | [] => []
  | c :: s' => if cls_space c then drop_space s' else s
  end.

(** [String.prototype.trim] *)
Definition String_trim (s : jsstring) : jsstring :=
  reverse (drop_space (reverse (drop_space s))).

(** [String.prototype.split] with a one-character separator string. *)
Fixpoint String_split (sep : char) (s : jsstring) : list jsstring :=
  match s with
  | [] => [[]]
  | c :: s' =>
      if chr_eq sep c then [] :: String_split sep s'
      else match String_split sep s' with
           | cur :: rest => (c :: cur) :: rest
           | [] => [[c]]
           end
  end.

(** ** Outcomes of a computation *)

(** A JavaScript computation returns, throws, or (in the model only) stops
    because the loop budget is used up. *)
Inductive outcome (A : Type) : Type :=
| Ok (a : A)
| Throw
| OutOfFuel.
Arguments Ok {A} a.
Arguments Throw {A}.
Arguments OutOfFuel {A}.

Global Instance outcome_bind : MBind outcome := λ A B f m,
  match m with
  | Ok a => f a
  | Throw => Throw
  | OutOfFuel => OutOfFuel
  end.
Global Instance outcome_ret : MRet outcome := λ A a, Ok a.

(** Reading a property of [undefined] throws a [TypeError]. *)
Definition defined {A} (o : option A) : outcome A :=
  match o with Some a => Ok a | None => Throw end.

(** A [while] loop: the body says whether the loop goes on. *)
Inductive ctl (St : Type) : Type :=
| Continue (s : St)
| Break (s : St).
Arguments Continue {St} s.
Arguments Break {St} s.

Fixpoint while_loop {St} (fuel : nat) (body : St → outcome (ctl St)) (s : St)
  : outcome St :=
  match fuel with
  | 0 => OutOfFuel
  | S fuel' =>
      c ← body s;
      match c with
      | Continue s' => while_loop fuel' body s'
      | Break s' => Ok s'
      end
  end.

(** ** Regular expressions *)

(** The constructs used by the patterns of [app.js]. *)
Inductive regex : Type :=
| RChar (p : char → bool)            (* a literal, a class or an escape *)
| RBol                                (* ^ *)
| REol                                (* $ *)
| REmpty
| RSeq (r1 r2 : regex)
| RAlt (r1 r2 : regex)
| RStar (greedy : bool) (r : regex)   (* r* and r*? *)
| RGroup (r : regex).                 (* capturing group 1 *)

Definition RPlus (greedy : bool) (r : regex) : regex := RSeq r (RStar greedy r).
Definition ROpt (r : regex) : regex := RAlt r REmpty.
Definition RLit (eqb : char → char → bool) (s : jsstring) : regex :=
  foldr (λ c r, RSeq (RChar (eqb c)) r) REmpty s.

Record MatchResult : Type := mkMatch {
  m_index : nat;                 (* where the match starts *)
  m_end : nat;                   (* where it ends *)
  m_group1 : option jsstring     (* m[1], when the group took part *)
}.

(** The backtracking matcher of the language specification, in
    continuation-passing style: [rmatch r pos cap k] matches [r] at [pos]
    and hands the end position and the capture to [k]; when [k] fails the
    next alternative is tried. None of the patterns below has a group
    inside a quantifier, so captures are not reset between iterations. *)
Section Matcher.
Context {R : Type}.
Variable input : jsstring.

(** Up to [n] iterations of the matcher [one], then [k]; the greedy form
    tries one more iteration first, the lazy form tries [k] first. An
    iteration that consumes nothing is rejected. *)
Fixpoint star_iter
    (one : nat → option jsstring → (nat → option jsstring → option R) → option R)
    (greedy : bool) (k : nat → option jsstring → option R)
    (n : nat) (pos : nat) (cap : option jsstring) : option R :=
  match n with
  | 0 => k pos cap
  | S n' =>
      if greedy then
        match one pos cap
                (λ pos' cap', if pos <? pos'
                              then star_iter one greedy k n' pos' cap'
                              else None) with
        | Some x => Some x
        | None => k pos cap
        end
      else
        match k pos cap with
        | Some x => Some x
        | None =>
            one pos cap
              (λ pos' cap', if pos <? pos'
                            then star_iter one greedy k n' pos' cap'
                            else None)
        end
  end.

Fixpoint rmatch (r : regex) (pos : nat) (cap : option jsstring)
    (k : nat → option jsstring → option R) {struct r} : option R :=
  match r with
  | RChar p =>
      match input !! pos with
      | Some c => if p c then k (S pos) cap else None
      | None => None
      end
  | RBol => if pos =? 0 then k pos cap else None
  | REol => if pos =? length input then k pos cap else None
  | REmpty => k pos cap
  | RSeq r1 r2 => rmatch r1 pos cap (λ pos' cap', rmatch r2 pos' cap' k)
  | RAlt r1 r2 =>
      match rmatch r1 pos cap k with
      | Some x => Some x
      | None => rmatch r2 pos cap k
      end
  | RStar greedy r1 =>
      star_iter (rmatch r1) greedy k (length input - pos) pos cap
  | RGroup r1 =>
      rmatch r1 pos cap (λ pos' _, k pos' (Some (substring pos pos' input)))
  end.
End Matcher.

(** [RegExp.prototype.exec] for a pattern without the [g] and [y] flags:
    the first start position, from the left, at which the pattern matches. *)
Fixpoint exec_from (r : regex) (input : jsstring) (n : nat) (start : nat)
  : option MatchResult :=
  match rmatch input r start None (λ e cap, Some (mkMatch start e cap)) with
  | Some m => Some m
  | None =>
      match n with
      | 0 => None
      | S n' => exec_from r input n' (S start)
      end
  end.

Definition RegExp_exec (r : regex) (input : jsstring) : option MatchResult :=
  exec_from r input (length input) 0.

(** [RegExp.prototype.test] *)
Definition RegExp_test (r : regex) (input : jsstring) : bool :=
  bool_decide (is_Some (RegExp_exec r input)).

(** [String.prototype.match] with a pattern without the [g] flag. *)
Definition String_match (input : jsstring) (r : regex) : option MatchResult :=
  RegExp_exec r input.

(** [String.prototype.replace] with a pattern without the [g] flag and the
    replacement [''] : the first match is cut out. *)
Definition String_replace_empty (input : jsstring) (r : regex) : jsstring :=
  match RegExp_exec r input with
  | Some m => take (m_index m) input ++ drop (m_end m) input
  | None => input
  end.

(** [String.prototype.split] with a pattern that has no capturing group
    ([RegExp.prototype[Symbol.split]]): [p] is the start of the current
    piece, [q] the position where the separator is tried. A turn moves
    [q] forward or moves [p] up to [q], so twice the length of the string
    and one more turn are enough ([String_split_re_total]). *)
Definition split_body (r : regex) (s : jsstring)
    (st : nat * nat * list jsstring) : outcome (ctl (nat * nat * list jsstring)) :=
  let '(p, q, acc) := st in
  if q <? length s then
    match rmatch s r q None (λ e _, Some e) with
    | None => Ok (Continue (p, S q, acc))
    | Some e0 =>
        let e := e0 `min` length s in
        if e =? p then Ok (Continue (p, S q, acc))
        else Ok (Continue (e, e, acc ++ [substring p q s]))
    end
  else Ok (Break st).

Definition String_split_re (s : jsstring) (r : regex) : outcome (list jsstring) :=
  if length s =? 0 then
    Ok (if RegExp_test r s then [] else [s])
  else
    '(p, _, acc) ← while_loop (2 * length s + 2) (split_body r s) (0, 0, []);
    Ok (acc ++ [substring p (length s) s]).

(** The patterns of [app.js]. *)
Definition c_pipe : char := 124%N.  (* | *)
Definition c_lpar : char := 40%N.   (* ( *)
Definition c_rpar : char := 41%N.   (* ) *)
Definition c_cr : char := 13%N.
Definition c_lf : char := 10%N.

(** [/\r?\n/] *)
Definition re_newline : regex :=
  RSeq (ROpt (RChar (chr_eq c_cr))) (RChar (chr_eq c_lf)).

(** [/^###\s+(.+?)\s*$/] *)
Definition re_h3 : regex :=
  RSeq RBol (RSeq (RLit chr_eq (lit "###"))
    (RSeq (RPlus true (RChar cls_space))
      (RSeq (RGroup (RPlus false (RChar cls_dot)))
        (RSeq (RStar true (RChar cls_space)) REol)))).

(** [/^##\s+(.+?)\s*$/] *)
Definition re_h2 : regex :=
  RSeq RBol (RSeq (RLit chr_eq (lit "##"))
    (RSeq (RPlus true (RChar cls_space))
      (RSeq (RGroup (RPlus false (RChar cls_dot)))
        (RSeq (RStar true (RChar cls_space)) REol)))).

(** [/^\s*$/] *)
Definition re_blank : regex :=
  RSeq RBol (RSeq (RStar true (RChar cls_space)) REol).

(** [/\|\s*Network\s*\|\s*Address\s*\|/i] *)
Definition re_header : regex :=
  RSeq (RChar (chr_eq_ci c_pipe))
    (RSeq (RStar true (RChar cls_space))
      (RSeq (RLit chr_eq_ci (lit "Network"))
        (RSeq (RStar true (RChar cls_space))
          (RSeq (RChar (chr_eq_ci c_pipe))
            (RSeq (RStar true (RChar cls_space))
              (RSeq (RLit chr_eq_ci (lit "Address"))
                (RSeq (RStar true (RChar cls_space))
                  (RChar (chr_eq_ci c_pipe))))))))).

(** [/^\|/] *)
Definition re_pipe_start : regex := RSeq RBol (RChar (chr_eq c_pipe)).

(** [/\|\s*$/] *)
Definition re_pipe_end : regex :=
  RSeq (RChar (chr_eq c_pipe)) (RSeq (RStar true (RChar cls_space)) REol).

(** [/\(([^)]+)\)/] *)
Definition re_paren : regex :=
  RSeq (RChar (chr_eq c_lpar))
    (RSeq (RGroup (RPlus true (RChar (λ c, negb (chr_eq c_rpar c)))))
      (RChar (chr_eq c_rpar))).


(** ** The data model *)

Record Row : Type := mkRow {
  network : jsstring;
  address : jsstring;
  explorer : jsstring;
  args : jsstring;
  salt : jsstring
}.

Record Entry : Type := mkEntry {
  category : jsstring;
  title : jsstring;
  rows : list Row
}.

(** What [parseMarkdown] returns; a [Set] of strings is a finite set. *)
Record ParseResult : Type := mkResult {
  entries : list Entry;
  networks : gset jsstring;
  categories : gset jsstring
}.

(** ** [findNearestCategory] *)

Definition Uncategorized : jsstring := lit "Uncategorized".

(** [for (let k = index - 1; k >= 0; k--)] *)
Fixpoint findNearestCategory (lines : list jsstring) (index : nat)
  : outcome jsstring :=
  match index with
  | 0 => Ok Uncategorized
  | S k =>
      line ← defined (lines !! k);
      match String_match line re_h2 with
      | Some m => t ← defined (m_group1 m); Ok (String_trim t)
      | None => findNearestCategory lines k
      end
  end.

(** ** [splitMarkdownRow] *)

(** The arrow function [(cell, idx) => ...] that is mapped over [parts]. *)
Definition clean_cell (idx : nat) (cell : jsstring) : jsstring :=
  if idx =? 2 then
    match String_match cell re_paren with
    | Some m =>
        (* group 1 takes part in every match of the pattern
           (lemma [re_paren_group1]) *)
        default cell (m_group1 m)
    | None => cell
    end
  else cell.

Definition splitMarkdownRow (row : jsstring) : list jsstring :=
  let parts :=
    String_trim <$>
      String_split c_pipe
        (String_replace_empty (String_replace_empty row re_pipe_start) re_pipe_end) in
  let clean := imap clean_cell parts in
  clean.

(** ** [parseMarkdown] *)

(** The variables of the outer loop. *)
Record LoopState : Type := mkLoop {
  ls_i : nat;
  ls_entries : list Entry;
  ls_networks : gset jsstring;
  ls_categories : gset jsstring
}.

(** [while (j < lines.length && /^\s*$/.test(lines[j])) j++] *)
Definition skip_blank_body (lines : list jsstring) (j : nat) : outcome (ctl nat) :=
  if j <? length lines then
    line ← defined (lines !! j);
    if RegExp_test re_blank line then Ok (Continue (S j)) else Ok (Break j)
  else Ok (Break j).

(** A string is truthy when it is not empty. *)
Definition truthy (s : jsstring) : bool :=
  match s with [] => false | _ => true end.

(** The loop over the table rows, on [j], [rows] and [networks]. *)
Definition rows_body (lines : list jsstring)
    (st : nat * list Row * gset jsstring)
  : outcome (ctl (nat * list Row * gset jsstring)) :=
  let '(j, rows, networks) := st in
  if j <? length lines then
    row ← defined (lines !! j);
    if negb (RegExp_test re_pipe_start row) then Ok (Break st)
    else
      let cells := splitMarkdownRow row in
      if 5 <=? length cells then
        c0 ← defined (cells !! 0);
        c1 ← defined (cells !! 1);
        c2 ← defined (cells !! 2);
        c3 ← defined (cells !! 3);
        c4 ← defined (cells !! 4);
        let obj := mkRow c0 c1 c2 c3 c4 in
        let networks :=
          if truthy (network obj) then {[ network obj ]} ∪ networks
          else networks in
        Ok (Continue (S j, rows ++ [obj], networks))
      else Ok (Continue (S j, rows, networks))
  else Ok (Break st).

(** One turn of [while (i < lines.length)]. The unused [headerLine] and
    [sepLine] are left out. *)
Definition parse_body (fuel : nat) (lines : list jsstring) (st : LoopState)
  : outcome (ctl LoopState) :=
  let i := ls_i st in
  if i <? length lines then
    line ← defined (lines !! i);
    match String_match line re_h3 with
    | Some h3 =>
        t ← defined (m_group1 h3);
        let title := String_trim t in
        category ← findNearestCategory lines i;
        let categories := {[ category ]} ∪ ls_categories st in
        j ← while_loop fuel (skip_blank_body lines) (i + 1);
        header ← (if j <? length lines
                  then l ← defined (lines !! j); Ok (RegExp_test re_header l)
                  else Ok false);
        if header : bool then
          '(j', rows, networks) ←
            while_loop fuel (rows_body lines) (j + 2, [], ls_networks st);
          Ok (Continue (mkLoop j'
                          (ls_entries st ++ [mkEntry category title rows])
                          networks categories))
        else
          Ok (Continue (mkLoop (i + 1) (ls_entries st) (ls_networks st) categories))
    | None =>
        Ok (Continue (mkLoop (i + 1) (ls_entries st) (ls_networks st)
                        (ls_categories st)))
    end
  else Ok (Break st).

Definition parseLines (fuel : nat) (lines : list jsstring) : outcome ParseResult :=
  st ← while_loop fuel (parse_body fuel lines) (mkLoop 0 [] ∅ ∅);
  Ok (mkResult (ls_entries st) (ls_networks st) (ls_categories st)).

(** [parseMarkdown] with an explicit budget for its loops. *)
Definition parseMarkdown_fuel (fuel : nat) (md : jsstring) : outcome ParseResult :=
  lines ← String_split_re md re_newline;
  parseLines fuel lines.

(** [parseMarkdown]: no loop takes more turns than there are lines, plus
    the turn that leaves it. *)
Definition parseMarkdown (md : jsstring) : outcome ParseResult :=
  lines ← String_split_re md re_newline;
  parseLines (S (length lines)) lines.


(** ** [parseAndRender] *)

(** The [state] object of the page. *)
Record AppState : Type := mkState {
  st_rawMarkdown : jsstring;
  st_entries : list Entry;
  st_networks : gset jsstring;
  st_categories : gset jsstring;
  st_search : jsstring;
  st_filter_network : jsstring;
  st_filter_category : jsstring;
  st_view : jsstring
}.

(** What [parseAndRender] does to [state]; filling the filter lists, the
    status line and [render] only write to the page. *)
Definition parseAndRender (fuel : nat) (state : AppState) : outcome AppState :=
  r ← parseMarkdown_fuel fuel (st_rawMarkdown state);
  Ok (mkState (st_rawMarkdown state) (entries r) (networks r) (categories r)
        (st_search state) (st_filter_network state) (st_filter_category state)
        (st_view state)).

(** ** [escapeHtml] and [escapeAttr] *)

(** [String.prototype.replace] with a pattern that has the [g] flag and a
    replacement text without [$]: the matches are found from left to
    right, each search starting where the last match ended (one code unit
    further after an empty match), and the text between the matches is
    kept. The loop variables are [lastIndex], the end of the text that is
    already copied, and the result so far. *)
Definition replace_body (r : regex) (repl input : jsstring)
    (st : nat * nat * jsstring) : outcome (ctl (nat * nat * jsstring)) :=
  let '(lastIndex, next, out) := st in
  if length input <? lastIndex then Ok (Break st)
  else
    match exec_from r input (length input - lastIndex) lastIndex with
    | None => Ok (Break st)
    | Some m =>
        let lastIndex' :=
          if m_end m =? m_index m then S (m_end m) else m_end m in
        if next <=? m_index m then
          Ok (Continue (lastIndex', m_end m,
                        out ++ substring next (m_index m) input ++ repl))
        else Ok (Continue (lastIndex', next, out))
    end.

Definition String_replace_all (input : jsstring) (r : regex) (repl : jsstring)
  : outcome jsstring :=
  '(_, next, out) ←
    while_loop (length input + 2) (replace_body r repl input) (0, 0, []);
  Ok (out ++ drop next input).

Definition c_amp : char := 38%N.   (* & *)
Definition c_lt : char := 60%N.    (* < *)
Definition c_gt : char := 62%N.    (* > *)
Definition c_quot : char := 34%N.  (* the double quote *)
Definition c_apos : char := 39%N.  (* ' *)

(** The replacement ['&#39;'] and the others. *)
Definition ent_amp : jsstring := lit "&amp;".
Definition ent_lt : jsstring := lit "&lt;".
Definition ent_gt : jsstring := lit "&gt;".
Definition ent_quot : jsstring := lit "&quot;".
Definition ent_apos : jsstring := lit "&#39;".

(** [escapeHtml]; [None] stands for [null] and [undefined], and
    [String(str)] of a string is the string. *)
Definition escapeHtml (str : option jsstring) : outcome jsstring :=
  match str with
  | None => Ok []
  | Some s =>
      s1 ← String_replace_all s (RChar (chr_eq c_amp)) ent_amp;
      s2 ← String_replace_all s1 (RChar (chr_eq c_lt)) ent_lt;
      s3 ← String_replace_all s2 (RChar (chr_eq c_gt)) ent_gt;
      s4 ← String_replace_all s3 (RChar (chr_eq c_quot)) ent_quot;
      String_replace_all s4 (RChar (chr_eq c_apos)) ent_apos
  end.

Definition escapeAttr (str : option jsstring) : outcome jsstring :=
  s ← escapeHtml str;
  String_replace_all s (RChar (chr_eq c_quot)) ent_quot.

(** ** [render]: which entries and rows are shown *)

(** [String.prototype.startsWith] and [String.prototype.includes]. *)
Fixpoint String_startsWith (s q : jsstring) {struct q} : bool :=
  match q with
  | [] => true
  | a :: q' =>
      match s with
      | b :: s' => chr_eq a b && String_startsWith s' q'
      | [] => false
      end
  end.

Fixpoint String_includes (hay q : jsstring) : bool :=
  String_startsWith hay q
  || match hay with
     | [] => false
     | _ :: hay' => String_includes hay' q
     end.

Definition c_space : char := 32%N.

(** The template literal with the title, the category and the five
    fields of the row, one space between them. *)
Definition haystack (e : Entry) (r : Row) : jsstring :=
  title e ++ c_space :: category e ++ c_space :: network r ++ c_space ::
  address r ++ c_space :: explorer r ++ c_space :: args r ++ c_space :: salt r.

Section Render.
(** [String.prototype.toLowerCase]: the case table is the runtime's. *)
Variable toLowerCase : jsstring → jsstring.

(** The arrow function that filters the rows of [e]; [q] is the search
    text in lower case. *)
Definition row_shown (state : AppState) (q : jsstring) (e : Entry) (r : Row)
  : bool :=
  let matchesNetwork :=
    negb (truthy (st_filter_network state))
    || bool_decide (network r = st_filter_network state) in
  if negb matchesNetwork then false
  else if negb (truthy q) then true
  else
    let hay := toLowerCase (haystack e r) in
    String_includes hay q.

(** The list [filtered] of [render]. *)
Definition render_filtered (state : AppState) : list Entry :=
  let q := toLowerCase (st_search state) in
  let by_category :=
    filter (λ e, negb (truthy (st_filter_category state))
                 || bool_decide (category e = st_filter_category state) = true)
      (st_entries state) in
  let by_row :=
    (λ e, mkEntry (category e) (title e)
            (filter (λ r, row_shown state q e r = true) (rows e)))
      <$> by_category in
  filter (λ e, 0 < length (rows e)) by_row.
End Render.

(** ** The handlers of [init] and [wireEvents] *)

(** The [state] object when the page is loaded. *)
Definition initial_state : AppState :=
  mkState [] [] ∅ ∅ [] [] [] (lit "cards").

(** The events whose handlers write to [state]. [Fetched] is the end of
    the request of [init] and [FileChange] the [change] event of the file
    input, each with the text that was read, or with [None] when there is
    none (the request failed; no file was chosen). The value of the other
    events is [e.target.value]. *)
Inductive Event : Type :=
| Fetched (text : option jsstring)
| SearchInput (value : jsstring)
| NetworkChange (value : jsstring)
| CategoryChange (value : jsstring)
| ViewChange (value : jsstring)
| FileChange (text : option jsstring).

(** [state.rawMarkdown = text; parseAndRender()]. A text has at most one
    line more than it has code units, so no loop of the parser takes more
    turns than the budget given here. *)
Definition load (text : jsstring) (state : AppState) : outcome AppState :=
  parseAndRender (length text + 2)
    (mkState text (st_entries state) (st_networks state) (st_categories state)
       (st_search state) (st_filter_network state) (st_filter_category state)
       (st_view state)).

(** What a handler does to [state]; [render] only writes to the page. *)
Definition handle (ev : Event) (state : AppState) : outcome AppState :=
  match ev with
  | Fetched (Some text) => load text state
  | Fetched None => Ok state
  | SearchInput value =>
      Ok (mkState (st_rawMarkdown state) (st_entries state) (st_networks state)
            (st_categories state) (String_trim value) (st_filter_network state)
            (st_filter_category state) (st_view state))
  | NetworkChange value =>
      Ok (mkState (st_rawMarkdown state) (st_entries state) (st_networks state)
            (st_categories state) (st_search state) value
            (st_filter_category state) (st_view state))
  | CategoryChange value =>
      Ok (mkState (st_rawMarkdown state) (st_entries state) (st_networks state)
            (st_categories state) (st_search state) (st_filter_network state)
            value (st_view state))
  | ViewChange value =>
      Ok (mkState (st_rawMarkdown state) (st_entries state) (st_networks state)
            (st_categories state) (st_search state) (st_filter_network state)
            (st_filter_category state) value)
  | FileChange (Some text) => load text state
  | FileChange None => Ok state
  end.

(** The handlers run one after the other, each to its end. *)
Fixpoint handle_all (evs : list Event) (state : AppState) : outcome AppState :=
  match evs with
  | [] => Ok state
  | ev :: evs' => state' ← handle ev state; handle_all evs' state'
  end.

(** ** The markup of a table row *)

(** A line break of a template literal and the indentation after it. *)
Definition indent (n : nat) : jsstring := c_lf :: replicate n c_space.

(** The cell [<td>...</td>] on a line of its own. *)
Definition td (n : nat) (content : jsstring) : jsstring :=
  indent n ++ lit "<td>" ++ content ++ lit "</td>".

(** The cell with the attribute [class] of the address. *)
Definition td_addr (n : nat) (content : jsstring) : jsstring :=
  indent n ++ lit "<td class=" ++ [c_quot] ++ lit "addr" ++ [c_quot]
  ++ lit ">" ++ content ++ lit "</td>".

(** The content of the Explorer cell: a link when the field starts with
    [http], nothing otherwise. *)
Definition explorer_link (r : Row) : outcome jsstring :=
  if truthy (explorer r) && String_startsWith (explorer r) (lit "http") then
    href ← escapeAttr (Some (explorer r));
    Ok (lit "<a href=" ++ [c_quot] ++ href ++ [c_quot]
        ++ lit " target=" ++ [c_quot] ++ lit "_blank" ++ [c_quot]
        ++ lit " rel=" ++ [c_quot] ++ lit "noreferrer" ++ [c_quot]
        ++ lit ">open</a>")
  else Ok [].

(** The text that [renderBigTable] gives to [tr.innerHTML]. *)
Definition big_table_row (entry : Entry) (r : Row) : outcome jsstring :=
  t_category ← escapeHtml (Some (category entry));
  t_title ← escapeHtml (Some (title entry));
  t_network ← escapeHtml (Some (network r));
  t_address ← escapeHtml (Some (address r));
  t_link ← explorer_link r;
  t_args ← escapeHtml (Some (args r));
  t_salt ← escapeHtml (Some (salt r));
  Ok (td 10 t_category ++ td 10 t_title ++ td 10 t_network
      ++ td_addr 10 t_address ++ td 10 t_link ++ td 10 t_args
      ++ td 10 t_salt ++ indent 8).

(** The text that [openEntryModal] gives to [tr.innerHTML]. *)
Definition modal_row (r : Row) : outcome jsstring :=
  t_network ← escapeHtml (Some (network r));
  t_address ← escapeHtml (Some (address r));
  t_link ← explorer_link r;
  t_args ← escapeHtml (Some (args r));
  t_salt ← escapeHtml (Some (salt r));
  Ok (td 8 t_network ++ td_addr 8 t_address ++ td 8 t_link ++ td 8 t_args
      ++ td 8 t_salt ++ indent 6).

(** ** The parser on the store of the page *)

(** A [RegExp] object: its pattern (the flag [i] is part of the pattern),
    the flag [g], and [lastIndex]. No literal of the source has the flag
    [y]. *)
Record RegExpObj : Type := mkRegExp {
  rx_pattern : regex;
  rx_global : bool;
  rx_lastIndex : nat
}.

(** What a call can reach besides its arguments: the [state] object of
    the page, and the [RegExp] objects made so far, by their numbers. The
    source calls neither [Math.random] nor [Date]. *)
Record Store : Type := mkStore {
  sto_page : AppState;
  sto_regexps : list RegExpObj
}.

(** A computation that reads and writes the store. *)
Definition prog (A : Type) : Type := Store → outcome (A * Store).

Global Instance prog_bind : MBind prog := λ A B f m σ,
  match m σ with
  | Ok (a, σ') => f a σ'
  | Throw => Throw
  | OutOfFuel => OutOfFuel
  end.
Global Instance prog_ret : MRet prog := λ A a σ, Ok (a, σ).

(** A computation that leaves the store alone. *)
Definition on_store {A} (o : outcome A) : prog A := λ σ,
  match o with
  | Ok a => Ok (a, σ)
  | Throw => Throw
  | OutOfFuel => OutOfFuel
  end.

(** Evaluating a regular expression literal makes a new object, with
    [lastIndex] 0. *)
Definition RegExp_literal (r : regex) (g : bool) : prog nat := λ σ,
  Ok (length (sto_regexps σ),
      mkStore (sto_page σ) (sto_regexps σ ++ [mkRegExp r g 0])).

(** [RegExpBuiltinExec] on the object number [R]: an object with the flag
    [g] searches from its [lastIndex] and records where the match ended,
    or 0 when there is none; an object without the flag searches from 0
    and is left as it is. *)
Definition RegExp_exec_obj (R : nat) (input : jsstring)
  : prog (option MatchResult) := λ σ,
  match sto_regexps σ !! R with
  | None => Throw
  | Some rx =>
      if rx_global rx then
        let found :=
          if length input <? rx_lastIndex rx then None
          else exec_from (rx_pattern rx) input
                 (length input - rx_lastIndex rx) (rx_lastIndex rx) in
        let lastIndex := match found with Some m => m_end m | None => 0 end in
        Ok (found,
            mkStore (sto_page σ)
              (<[R := mkRegExp (rx_pattern rx) true lastIndex]> (sto_regexps σ)))
      else Ok (RegExp_exec (rx_pattern rx) input, σ)
  end.

(** [RegExp.prototype.test] on the object number [R]. *)
Definition RegExp_test_obj (R : nat) (input : jsstring) : prog bool :=
  m ← RegExp_exec_obj R input; mret (bool_decide (is_Some m)).

(** [/r/.test(input)], [input.match(/r/)] and [input.replace(/r/, '')]
    with a literal without the flag [g]: the literal makes a new object,
    and each of the three methods is one [RegExpBuiltinExec] on it. *)
Definition RegExp_test_literal (r : regex) (input : jsstring) : prog bool :=
  R ← RegExp_literal r false; RegExp_test_obj R input.

Definition String_match_literal (input : jsstring) (r : regex)
  : prog (option MatchResult) :=
  R ← RegExp_literal r false; RegExp_exec_obj R input.

Definition String_replace_literal (input : jsstring) (r : regex) : prog jsstring :=
  R ← RegExp_literal r false;
  m ← RegExp_exec_obj R input;
  mret (match m with
        | Some m => take (m_index m) input ++ drop (m_end m) input
        | None => input
        end).

(** [input.split(/r/)]: the literal makes a new object; [split] works on
    a copy of it that the program cannot reach, and neither reads nor
    writes the [lastIndex] of the object itself. *)
Definition String_split_literal (input : jsstring) (r : regex)
  : prog (list jsstring) :=
  _ ← RegExp_literal r false; on_store (String_split_re input r).

(** A [while] loop whose body works on the store. *)
Fixpoint while_loop_st {St} (fuel : nat) (body : St → prog (ctl St)) (s : St)
  : prog St :=
  match fuel with
  | 0 => on_store OutOfFuel
  | S fuel' =>
      c ← body s;
      match c with
      | Continue s' => while_loop_st fuel' body s'
      | Break s' => mret s'
      end
  end.

(** [Array.prototype.map] with a callback that works on the store. *)
Fixpoint Array_map_st {A B} (f : nat → A → prog B) (l : list A)
  : prog (list B) :=
  match l with
  | [] => mret []
  | x :: l' => y ← f 0 x; ys ← Array_map_st (f ∘ S) l'; mret (y :: ys)
  end.

(** [findNearestCategory], [splitMarkdownRow] and [parseMarkdown] once
    more, with the objects that their regular expression literals make. *)
Fixpoint findNearestCategory_st (lines : list jsstring) (index : nat)
  : prog jsstring :=
  match index with
  | 0 => mret Uncategorized
  | S k =>
      line ← on_store (defined (lines !! k));
      m ← String_match_literal line re_h2;
      match m with
      | Some m => t ← on_store (defined (m_group1 m)); mret (String_trim t)
      | None => findNearestCategory_st lines k
      end
  end.

Definition clean_cell_st (idx : nat) (cell : jsstring) : prog jsstring :=
  if idx =? 2 then
    m ← String_match_literal cell re_paren;
    mret (match m with
          | Some m => default cell (m_group1 m)
          | None => cell
          end)
  else mret cell.

Definition splitMarkdownRow_st (row : jsstring) : prog (list jsstring) :=
  s1 ← String_replace_literal row re_pipe_start;
  s2 ← String_replace_literal s1 re_pipe_end;
  let parts := String_trim <$> String_split c_pipe s2 in
  Array_map_st clean_cell_st parts.

Definition skip_blank_body_st (lines : list jsstring) (j : nat)
  : prog (ctl nat) :=
  if j <? length lines then
    line ← on_store (defined (lines !! j));
    blank ← RegExp_test_literal re_blank line;
    if blank : bool then mret (Continue (S j)) else mret (Break j)
  else mret (Break j).

Definition rows_body_st (lines : list jsstring)
    (st : nat * list Row * gset jsstring)
  : prog (ctl (nat * list Row * gset jsstring)) :=
  let '(j, rows, networks) := st in
  if j <? length lines then
    row ← on_store (defined (lines !! j));
    pipe ← RegExp_test_literal re_pipe_start row;
    if negb pipe then mret (Break st)
    else
      cells ← splitMarkdownRow_st row;
      if 5 <=? length cells then
        c0 ← on_store (defined (cells !! 0));
        c1 ← on_store (defined (cells !! 1));
        c2 ← on_store (defined (cells !! 2));
        c3 ← on_store (defined (cells !! 3));
        c4 ← on_store (defined (cells !! 4));
        let obj := mkRow c0 c1 c2 c3 c4 in
        let networks :=
          if truthy (network obj) then {[ network obj ]} ∪ networks
          else networks in
        mret (Continue (S j, rows ++ [obj], networks))
      else mret (Continue (S j, rows, networks))
  else mret (Break st).

Definition parse_body_st (fuel : nat) (lines : list jsstring) (st : LoopState)
  : prog (ctl LoopState) :=
  let i := ls_i st in
  if i <? length lines then
    line ← on_store (defined (lines !! i));
    h3 ← String_match_literal line re_h3;
    match h3 with
    | Some h3 =>
        t ← on_store (defined (m_group1 h3));
        let title := String_trim t in
        category ← findNearestCategory_st lines i;
        let categories := {[ category ]} ∪ ls_categories st in
        j ← while_loop_st fuel (skip_blank_body_st lines) (i + 1);
        header ← (if j <? length lines
                  then l ← on_store (defined (lines !! j));
                       RegExp_test_literal re_header l
                  else mret false);
        if header : bool then
          '(j', rows, networks) ←
            while_loop_st fuel (rows_body_st lines) (j + 2, [], ls_networks st);
          mret (Continue (mkLoop j'
                            (ls_entries st ++ [mkEntry category title rows])
                            networks categories))
        else
          mret (Continue (mkLoop (i + 1) (ls_entries st) (ls_networks st)
                            categories))
    | None =>
        mret (Continue (mkLoop (i + 1) (ls_entries st) (ls_networks st)
                          (ls_categories st)))
    end
  else mret (Break st).

Definition parseMarkdown_st (md : jsstring) : prog ParseResult :=
  lines ← String_split_literal md re_newline;
  st ← while_loop_st (S (length lines)) (parse_body_st (S (length lines)) lines)
         (mkLoop 0 [] ∅ ∅);
  mret (mkResult (ls_entries st) (ls_networks st) (ls_categories st)).

(** * The vocabulary of the properties *)

(** The loop variables a turn of a loop leaves. *)
Definition ctl_state {St} (c : ctl St) : St :=
  match c with Continue s => s | Break s => s end.

(** Group 1 takes part in every match of the pattern. *)
Fixpoint has_group (r : regex) : bool :=
  match r with
  | RGroup _ => true
  | RSeq r1 r2 => has_group r1 || has_group r2
  | RAlt r1 r2 => has_group r1 && has_group r2
  | _ => false
  end.

(** [reaches g pos cap k x]: the result [x] comes from a call of the
    continuation [k], further right and still inside the input, with a
    capture that is set when it was set before or when [g] holds. *)
Definition reaches {R} (input : jsstring) (g : bool) (pos : nat)
    (cap : option jsstring) (k : nat → option jsstring → option R) (x : R)
  : Prop :=
  ∃ pos' cap',
    k pos' cap' = Some x ∧ pos ≤ pos' ∧
    (pos ≤ length input → pos' ≤ length input) ∧
    (is_Some cap → is_Some cap') ∧ (g = true → is_Some cap').

(** Where the blank lines that start at [j] end. *)
Fixpoint skip_blank_from (rest : list jsstring) (j : nat) : nat :=
  match rest with
  | [] => j
  | l :: rest' => if RegExp_test re_blank l then skip_blank_from rest' (S j) else j
  end.

(** The lines of a table: the longest run of lines that start with a pipe. *)
Fixpoint table_lines (rest : list jsstring) : list jsstring :=
  match rest with
  | [] => []
  | l :: rest' =>
      if RegExp_test re_pipe_start l then l :: table_lines rest' else []
  end.

(** The row made of the first five cells, when there are five. *)
Definition row_of_cells (cells : list jsstring) : option Row :=
  match cells with
  | c0 :: c1 :: c2 :: c3 :: c4 :: _ => Some (mkRow c0 c1 c2 c3 c4)
  | _ => None
  end.

(** The row of a table line, when the line has five cells or more. *)
Definition row_of_line (line : jsstring) : option Row :=
  row_of_cells (splitMarkdownRow line).

(** The rows of the lines of a table, in order. *)
Definition rows_of (tbl : list jsstring) : list Row := omap row_of_line tbl.

(** The non-empty network values of a sequence of rows. *)
Definition networks_of (rs : list Row) : gset jsstring :=
  list_to_set (filter (λ n, n ≠ []) (network <$> rs)).

(** The text of a second-level heading line, trimmed. *)
Definition h2_text (line : jsstring) : option jsstring :=
  match String_match line re_h2 with
  | Some m => String_trim <$> m_group1 m
  | None => None
  end.

(** The title of a third-level heading line. *)
Definition h3_title (line : jsstring) : option jsstring :=
  match String_match line re_h3 with
  | Some m => String_trim <$> m_group1 m
  | None => None
  end.

(** [c] is the category seen from line [index]: the text of the nearest
    second-level heading above it, or the sentinel when there is none. *)
Definition nearest_category (lines : list jsstring) (index : nat) (c : jsstring)
  : Prop :=
  (∃ k line, k < index ∧ lines !! k = Some line ∧ h2_text line = Some c ∧
     ∀ k' line', k < k' < index → lines !! k' = Some line' → h2_text line' = None)
  ∨ (c = Uncategorized ∧
     ∀ k' line', k' < index → lines !! k' = Some line' → h2_text line' = None).

(** The table header below the heading at line [i], if there is one: the
    first line that is not blank, when it has the two column labels. *)
Definition header_below (lines : list jsstring) (i : nat) : option nat :=
  let j := skip_blank_from (drop (S i) lines) (S i) in
  match lines !! j with
  | Some l => if RegExp_test re_header l then Some j else None
  | None => None
  end.

(** What one turn of the outer loop does, by cases on the line under the
    cursor. *)
Inductive parse_turn (lines : list jsstring) (st : LoopState)
  : ctl LoopState → Prop :=
| turn_end :
    length lines ≤ ls_i st →
    parse_turn lines st (Break st)
| turn_plain line :
    lines !! ls_i st = Some line →
    h3_title line = None →
    parse_turn lines st
      (Continue (mkLoop (ls_i st + 1) (ls_entries st) (ls_networks st)
                   (ls_categories st)))
| turn_heading line t c :
    lines !! ls_i st = Some line →
    h3_title line = Some t →
    findNearestCategory lines (ls_i st) = Ok c →
    nearest_category lines (ls_i st) c →
    header_below lines (ls_i st) = None →
    parse_turn lines st
      (Continue (mkLoop (ls_i st + 1) (ls_entries st) (ls_networks st)
                   ({[ c ]} ∪ ls_categories st)))
| turn_table line t c j :
    lines !! ls_i st = Some line →
    h3_title line = Some t →
    findNearestCategory lines (ls_i st) = Ok c →
    nearest_category lines (ls_i st) c →
    header_below lines (ls_i st) = Some j →
    parse_turn lines st
      (Continue
         (mkLoop (j + 2 + length (table_lines (drop (j + 2) lines)))
            (ls_entries st
             ++ [mkEntry c t (rows_of (table_lines (drop (j + 2) lines)))])
            (ls_networks st
             ∪ networks_of (rows_of (table_lines (drop (j + 2) lines))))
            ({[ c ]} ∪ ls_categories st))).

(** The entry [e] comes from the heading at line [i] of [lines]. *)
Definition entry_at (lines : list jsstring) (i : nat) (e : Entry) : Prop :=
  ∃ line j,
    lines !! i = Some line ∧ h3_title line = Some (title e) ∧
    nearest_category lines i (category e) ∧
    header_below lines i = Some j ∧
    rows e = rows_of (table_lines (drop (j + 2) lines)).

(** All rows of a sequence of entries, in order. *)
Definition all_rows (es : list Entry) : list Row := es ≫= rows.

(** The entries come, in order, from the heading lines [idxs]. *)
Definition entries_from (lines : list jsstring) (idxs : list nat)
    (es : list Entry) : Prop :=
  Forall2 (entry_at lines) idxs es ∧ StronglySorted lt idxs.

(** What holds of the loop variables before and after every turn. *)
Record parse_inv (lines : list jsstring) (st : LoopState) : Prop := {
  inv_entries :
    ∃ idxs, entries_from lines idxs (ls_entries st) ∧
            Forall (λ i, i < ls_i st) idxs;
  inv_networks : ls_networks st = networks_of (all_rows (ls_entries st));
  inv_categories_entries :
    ∀ e, e ∈ ls_entries st → category e ∈ ls_categories st;
  inv_categories_headings :
    ∀ c, c ∈ ls_categories st →
      ∃ i line, i < ls_i st ∧ lines !! i = Some line ∧
                is_Some (h3_title line) ∧ nearest_category lines i c
}.

(** [p*] then [k], on the characters [rest] that start at [pos]: the
    longest run first, then shorter ones. *)
Fixpoint greedy_class {R} (p : char → bool)
    (k : nat → option jsstring → option R) (rest : jsstring) (pos : nat)
    (cap : option jsstring) : option R :=
  match rest with
  | c :: rest' =>
      if p c then
        match greedy_class p k rest' (S pos) cap with
        | Some x => Some x
        | None => k pos cap
        end
      else k pos cap
  | [] => k pos cap
  end.

(** [p*?] then [k]: the shortest run first. *)
Fixpoint lazy_class {R} (p : char → bool)
    (k : nat → option jsstring → option R) (rest : jsstring) (pos : nat)
    (cap : option jsstring) : option R :=
  match k pos cap with
  | Some x => Some x
  | None =>
      match rest with
      | c :: rest' => if p c then lazy_class p k rest' (S pos) cap else None
      | [] => None
      end
  end.

(** The text up to the first closing parenthesis, when there is one. *)
Fixpoint until_rpar (s : jsstring) : option jsstring :=
  match s with
  | [] => None
  | c :: s' => if chr_eq c_rpar c then Some [] else cons c <$> until_rpar s'
  end.

(** The parenthesis group that starts at the head of [s]: an opening
    parenthesis, one or more characters other than [)], and [)]. *)
Definition group_here (s : jsstring) : option jsstring :=
  match s with
  | c :: s' =>
      if chr_eq c_lpar c then
        match until_rpar s' with
        | Some (b :: body) => Some (b :: body)
        | _ => None
        end
      else None
  | [] => None
  end.

(** The first parenthesis group of [s], from the left. *)
Fixpoint first_group (s : jsstring) : option jsstring :=
  match group_here s with
  | Some body => Some body
  | None =>
      match s with
      | [] => None
      | _ :: s' => first_group s'
      end
  end.

(** [cell] is [pre], a parenthesis group around [body], and [post]. *)
Definition paren_group (cell pre body post : jsstring) : Prop :=
  cell = pre ++ c_lpar :: body ++ c_rpar :: post ∧ body ≠ [] ∧ c_rpar ∉ body.

(** [/^marker\s+(.+?)\s*$/] *)
Definition re_heading (marker : jsstring) : regex :=
  RSeq RBol (RSeq (RLit chr_eq marker)
    (RSeq (RPlus true (RChar cls_space))
      (RSeq (RGroup (RPlus false (RChar cls_dot)))
        (RSeq (RStar true (RChar cls_space)) REol)))).

(** The shortest run of characters other than line terminators after
    which only white space is left. *)
Fixpoint lazy_text (rest : jsstring) : option jsstring :=
  if forallb cls_space rest then Some []
  else match rest with
       | c :: rest' => if cls_dot c then cons c <$> lazy_text rest' else None
       | [] => None
       end.

(** [(.+?)\s*$] at the head of [s]. *)
Definition heading_group (s : jsstring) : option jsstring :=
  match s with
  | c :: rest => if cls_dot c then cons c <$> lazy_text rest else None
  | [] => None
  end.

(** [\s*] and then the group: the longest run of white space first. *)
Fixpoint greedy_space (rest : jsstring) : option jsstring :=
  match rest with
  | c :: rest' =>
      if cls_space c then
        match greedy_space rest' with
        | Some g => Some g
        | None => heading_group rest
        end
      else heading_group rest
  | [] => None
  end.

(** Group 1 of the heading pattern on [line]. *)
Definition heading_capture (marker line : jsstring) : option jsstring :=
  if bool_decide (take (length marker) line = marker) then
    match drop (length marker) line with
    | c :: rest => if cls_space c then greedy_space rest else None
    | [] => None
    end
  else None.

(** Strings of white space, and strings without line terminators. *)
Definition all_space (s : jsstring) : Prop := Forall (λ c, cls_space c = true) s.

Definition all_dot (s : jsstring) : Prop := Forall (λ c, cls_dot c = true) s.

(** [line] is the marker, white space, a text without line terminators,
    and white space up to the end of the line. *)
Definition heading_shape (marker line w g tail : jsstring) : Prop :=
  line = marker ++ w ++ g ++ tail ∧
  w ≠ [] ∧ all_space w ∧ g ≠ [] ∧ all_dot g ∧ all_space tail.

(** [line] is a heading line with the marker [marker]. *)
Definition is_heading (marker line : jsstring) : Prop :=
  ∃ w g tail, heading_shape marker line w g tail.

(** [j] is the first line below line [i] that is not blank, or the end of
    the document when only blank lines follow. *)
Definition first_nonblank_after (lines : list jsstring) (i j : nat) : Prop :=
  i < j ∧ j ≤ length lines ∧
  (∀ k l, i < k < j → lines !! k = Some l → RegExp_test re_blank l = true) ∧
  (∀ l, lines !! j = Some l → RegExp_test re_blank l = false).

(** [tbl] is the run of lines that start with a pipe at line [j0]: the
    line after it, if any, does not start with a pipe. *)
Definition table_at (lines : list jsstring) (j0 : nat) (tbl : list jsstring)
  : Prop :=
  ∃ rest, drop j0 lines = tbl ++ rest ∧
    Forall (λ l, RegExp_test re_pipe_start l = true) tbl ∧
    ∀ l, head rest = Some l → RegExp_test re_pipe_start l = false.

(** [c] is the trimmed text of the nearest second-level heading line
    above line [i], or the sentinel when no line above [i] is one. *)
Definition category_above (lines : list jsstring) (i : nat) (c : jsstring)
  : Prop :=
  (∃ k line, k < i ∧ lines !! k = Some line ∧
     is_heading (lit "##") line ∧ c = String_trim (drop 2 line) ∧
     ∀ k' line', k < k' < i → lines !! k' = Some line' →
                 ¬ is_heading (lit "##") line')
  ∨ (c = lit "Uncategorized" ∧
     ∀ k' line', k' < i → lines !! k' = Some line' →
                 ¬ is_heading (lit "##") line').

(** Every code unit that satisfies [p] replaced by [repl]. *)
Definition replace_chars (p : char → bool) (repl s : jsstring) : jsstring :=
  s ≫= λ x, if p x then repl else [x].

(** The five characters that [escapeHtml] rewrites. *)
Definition html_special (x : char) : bool :=
  chr_eq c_amp x || chr_eq c_lt x || chr_eq c_gt x || chr_eq c_quot x
  || chr_eq c_apos x.

(** What [escapeHtml] makes of one code unit. *)
Definition escape_char (x : char) : jsstring :=
  if chr_eq c_amp x then ent_amp
  else if chr_eq c_lt x then ent_lt
  else if chr_eq c_gt x then ent_gt
  else if chr_eq c_quot x then ent_quot
  else if chr_eq c_apos x then ent_apos
  else [x].

(** Reading the five entities back, from the left. [n] bounds the number
    of code units that are read. *)
Fixpoint unescape (n : nat) (t : jsstring) : jsstring :=
  match n with
  | 0 => []
  | S n' =>
      match t with
      | [] => []
      | x :: t' =>
          if chr_eq c_amp x then
            if bool_decide (take 4 t' = lit "amp;") then c_amp :: unescape n' (drop 4 t')
            else if bool_decide (take 3 t' = lit "lt;") then c_lt :: unescape n' (drop 3 t')
            else if bool_decide (take 3 t' = lit "gt;") then c_gt :: unescape n' (drop 3 t')
            else if bool_decide (take 5 t' = lit "quot;") then c_quot :: unescape n' (drop 5 t')
            else if bool_decide (take 4 t' = lit "#39;") then c_apos :: unescape n' (drop 4 t')
            else x :: unescape n' t'
          else x :: unescape n' t'
      end
  end.

(** [toLowerCase] on strings of ASCII characters, for the examples. *)
Definition ascii_toLowerCase (s : jsstring) : jsstring :=
  (λ c, if ((65 <=? c) && (c <=? 90))%N then (c + 32)%N else c) <$> s.

(** The page state with other entries. *)
Definition with_entries (state : AppState) (es : list Entry) : AppState :=
  mkState (st_rawMarkdown state) es (st_networks state) (st_categories state)
    (st_search state) (st_filter_network state) (st_filter_category state)
    (st_view state).

(** A page state that holds the result [r] of a parse, with the search
    text and the two filter values given. *)
Definition state_of (md : jsstring) (r : ParseResult)
    (search network_filter category_filter : jsstring) : AppState :=
  mkState md (entries r) (networks r) (categories r) search network_filter
    category_filter (lit "cards").

(** The text before the trailing pipe of a row: the pipe that only white
    space follows, if there is one. *)
Fixpoint strip_pipe_end (s : jsstring) : option jsstring :=
  match s with
  | [] => None
  | c :: s' =>
      if chr_eq c_pipe c && forallb cls_space s' then Some []
      else cons c <$> strip_pipe_end s'
  end.

(** A string that [trim] leaves as it is: no white space at either end. *)
Definition trimmed (s : jsstring) : Prop :=
  drop_space s = s ∧ drop_space (reverse s) = reverse s.

(** A row whose fields have no pipe and, the Explorer field apart, no
    white space at either end. *)
Definition clean_row (r : Row) : Prop :=
  (c_pipe ∉ network r) ∧ (c_pipe ∉ address r) ∧ (c_pipe ∉ explorer r) ∧
  (c_pipe ∉ args r) ∧ (c_pipe ∉ salt r) ∧
  trimmed (network r) ∧ trimmed (address r) ∧ trimmed (args r) ∧
  trimmed (salt r).

(** The lines of a text, read from the left: [cur] is the line read so
    far, [rest] the text still to read. A line ends at a line feed, or at
    a carriage return that a line feed follows. *)
Fixpoint lines_from (cur rest : jsstring) : list jsstring :=
  match rest with
  | [] => [cur]
  | c :: rest' =>
      if chr_eq c_lf c then cur :: lines_from [] rest'
      else if chr_eq c_cr c then
        match rest' with
        | d :: rest'' =>
            if chr_eq c_lf d then cur :: lines_from [] rest''
            else lines_from (cur ++ [c]) rest'
        | [] => lines_from (cur ++ [c]) rest'
        end
      else lines_from (cur ++ [c]) rest'
  end.

Definition split_lines (md : jsstring) : list jsstring := lines_from [] md.

(** The lines of a document, joined by carriage return and line feed. *)
Definition join_crlf (ls : list jsstring) : jsstring :=
  match ls with
  | [] => []
  | l :: ls' => l ++ foldr (λ x acc, c_cr :: c_lf :: x ++ acc) [] ls'
  end.

(** A line that can stand in a document as it is: it holds no line feed
    and does not end with a carriage return. *)
Definition plain_line (l : jsstring) : Prop :=
  (c_lf ∉ l) ∧ last l ≠ Some c_cr.

(** The cells of a table row, joined by pipes. *)
Definition join_cells (cells : list jsstring) : jsstring :=
  match cells with
  | [] => []
  | c :: cs => c ++ foldr (λ x acc, c_pipe :: x ++ acc) [] cs
  end.

(** The entries and the facet sets of the state are those of its
    markdown text, and its search text is trimmed. *)
Definition in_sync (state : AppState) : Prop :=
  ∃ r, parseMarkdown (st_rawMarkdown state) = Ok r ∧
    st_entries state = entries r ∧ st_networks state = networks r ∧
    st_categories state = categories r ∧ trimmed (st_search state).

(** How often the code unit [c] occurs in [s]. *)
Definition count_char (c : char) (s : jsstring) : nat :=
  length (filter (λ x, x = c) s).

(** The computation [m] on the store does what the computation [o]
    without a store does: it returns the same value, or stops the same
    way, and when it returns, the store is the one it was given with new
    [RegExp] objects after the ones that were there. *)
Definition returns {A} (m : prog A) (o : outcome A) : Prop :=
  ∀ σ,
    match o with
    | Ok a =>
        ∃ more, m σ = Ok (a, mkStore (sto_page σ) (sto_regexps σ ++ more))
    | Throw => m σ = Throw
    | OutOfFuel => m σ = OutOfFuel
    end.

(** * Sample documents *)

(** The lines of a document, joined by line feeds. *)
Definition join_lines (ls : list jsstring) : jsstring :=
  match ls with
  | [] => []
  | l :: ls' => l ++ foldr (λ x acc, c_lf :: x ++ acc) [] ls'
  end.

Definition table_header : jsstring :=
  lit "| Network | Address | Explorer | Constructor Args | Salt |".

Definition lines_tokens : list jsstring :=
  [ lit "## Tokens";
    lit "### MyToken";
    table_header;
    lit "|---|---|---|---|---|";
    lit "| mainnet | 0x1 | [x](http://e/1) | () | 0x0 |";
    lit "| testnet | 0x2 | none | (1,2) | 0x1 |" ].

(** A heading followed by a paragraph, then a heading with its table. *)
Definition lines_paragraph : list jsstring :=
  [ lit "### First";
    lit "Some text, no table.";
    lit "### Second";
    table_header;
    lit "|---|---|---|---|---|";
    lit "| mainnet | 0x1 | none | () | 0x0 |" ].

(** A table whose only row has four cells. *)
Definition lines_short_row : list jsstring :=
  [ lit "### Short";
    table_header;
    lit "|---|---|---|---|---|";
    lit "| mainnet | 0x1 | none | () |" ].

(** A table row with seven cells. *)
Definition lines_long_row : list jsstring :=
  [ lit "| mainnet | 0x1 | none | () | 0x0 | more | cells |" ].

(** A section with one row, and the same section with the separator
    line written twice. *)
Definition lines_one_row : list jsstring :=
  [ lit "### A";
    table_header;
    lit "|---|---|---|---|---|";
    lit "| mainnet | 0x1 | none | () | 0x0 |" ].

Definition lines_doubled_separator : list jsstring :=
  [ lit "### A";
    table_header;
    lit "|---|---|---|---|---|";
    lit "|---|---|---|---|---|";
    lit "| mainnet | 0x1 | none | () | 0x0 |" ].

(** The document [bad], a malformed variant of the document [good],
    parses to no more entries and to no more rows than [good] does. *)
Definition only_fewer (good bad : jsstring) : Prop :=
  ∃ r r',
    parseMarkdown good = Ok r ∧ parseMarkdown bad = Ok r' ∧
    length (entries r') ≤ length (entries r) ∧
    length (all_rows (entries r')) ≤ length (all_rows (entries r)).

(** ** Documents written from their entries *)

(** The blocks of a document in the shape the page is made for: the line
    of a category heading, or a section (the line of its title, the table
    header, the separator line and one line for every row). *)
Inductive Block : Type :=
| CategoryLine (c : jsstring)
| SectionLines (t : jsstring) (rs : list Row).

Definition table_separator : jsstring := lit "|---|---|---|---|---|".

(** The line of a row; the Explorer field is written as a link. *)
Definition row_line (r : Row) : jsstring :=
  lit "| " ++ network r ++ lit " | " ++ address r ++ lit " | [link]("
  ++ explorer r ++ lit ") | " ++ args r ++ lit " | " ++ salt r ++ lit " |".

Definition block_lines (b : Block) : list jsstring :=
  match b with
  | CategoryLine c => [lit "## " ++ c]
  | SectionLines t rs =>
      [lit "### " ++ t; table_header; table_separator] ++ (row_line <$> rs)
  end.

(** The document of a sequence of blocks. *)
Definition document_of (bs : list Block) : jsstring :=
  join_lines (bs ≫= block_lines).

(** The entries the blocks stand for; [cur] is the category that is in
    force at the head of the blocks. *)
Fixpoint entries_of (cur : jsstring) (bs : list Block) : list Entry :=
  match bs with
  | [] => []
  | CategoryLine c :: bs' => entries_of c bs'
  | SectionLines t rs :: bs' => mkEntry cur t rs :: entries_of cur bs'
  end.

(** A text that can stand in a heading line: not empty, without line
    terminators, without white space at either end. *)
Definition heading_text (t : jsstring) : Prop :=
  t ≠ [] ∧ all_dot t ∧ trimmed t.

(** A text that can stand in a cell: without white space at either end,
    without a pipe, without a line feed. *)
Definition cell_text (f : jsstring) : Prop :=
  trimmed f ∧ (c_pipe ∉ f) ∧ (c_lf ∉ f).

(** A text that can stand between the parentheses of a link. *)
Definition link_text (u : jsstring) : Prop :=
  u ≠ [] ∧ (c_rpar ∉ u) ∧ (c_pipe ∉ u) ∧ (c_lf ∉ u).

Definition printable_row (r : Row) : Prop :=
  cell_text (network r) ∧ cell_text (address r) ∧ link_text (explorer r) ∧
  cell_text (args r) ∧ cell_text (salt r).

Definition printable (b : Block) : Prop :=
  match b with
  | CategoryLine c => heading_text c
  | SectionLines t rs => heading_text t ∧ Forall printable_row rs
  end.

(** * Properties *)

(** ** Loops *)

Lemma bind_Ok {A B} (m : outcome A) (f : A → outcome B) (b : B) :
  m ≫= f = Ok b → ∃ a, m = Ok a ∧ f a = Ok b.
Proof. destruct m; simpl; intros H; try discriminate. eauto. Qed.

Lemma defined_Ok {A} (o : option A) (a : A) : defined o = Ok a → o = Some a.
Proof. destruct o; simpl; congruence. Qed.

Section WhileLoop.
Context {St : Type}.
Implicit Types (body : St → outcome (ctl St)) (s : St).

Lemma while_loop_continue fuel body s s1 :
  body s = Ok (Continue s1) →
  while_loop (S fuel) body s = while_loop fuel body s1.
Proof. intros H. simpl. by rewrite H. Qed.

Lemma while_loop_break fuel body s s1 :
  body s = Ok (Break s1) → while_loop (S fuel) body s = Ok s1.
Proof. intros H. simpl. by rewrite H. Qed.

(** An invariant kept by the body holds when the loop is left, and the
    loop is left through a [Break] of the body. *)
Lemma while_loop_inv (Inv : St → Prop) body :
  (∀ s c, Inv s → body s = Ok c → Inv (ctl_state c)) →
  ∀ fuel s s', Inv s → while_loop fuel body s = Ok s' →
    Inv s' ∧ ∃ s0, Inv s0 ∧ body s0 = Ok (Break s').
Proof.
  intros Hbody. induction fuel as [|fuel IH]; intros s s' Hs Hrun;
    simpl in Hrun; [discriminate|].
  apply bind_Ok in Hrun as (c & Hc & Hrun).
  pose proof (Hbody _ _ Hs Hc) as Hc'.
  destruct c as [s1|s1]; simpl in *.
  - eauto.
  - injection Hrun as <-. eauto.
Qed.

(** A body that always returns and decreases a measure when it goes on
    leaves the loop within the budget. *)
Lemma while_loop_total (Inv : St → Prop) (measure : St → nat) body :
  (∀ s, Inv s → ∃ c, body s = Ok c ∧ Inv (ctl_state c) ∧
                  ∀ s', c = Continue s' → measure s' < measure s) →
  ∀ fuel s, Inv s → measure s < fuel → ∃ s', while_loop fuel body s = Ok s'.
Proof.
  intros Hbody. induction fuel as [|fuel IH]; intros s Hs Hm; [lia|].
  destruct (Hbody s Hs) as (c & Hc & Hinv & Hdec). simpl. rewrite Hc. simpl.
  destruct c as [s1|s1]; [|eauto].
  apply IH; [exact Hinv|]. specialize (Hdec s1 eq_refl). lia.
Qed.

(** A larger budget, and a body that returns at least as often, give
    the same result. *)
Lemma while_loop_mono body body' :
  (∀ s c, body s = Ok c → body' s = Ok c) →
  ∀ fuel fuel' s s', fuel ≤ fuel' →
    while_loop fuel body s = Ok s' → while_loop fuel' body' s = Ok s'.
Proof.
  intros Hbody. induction fuel as [|fuel IH]; intros fuel' s s' Hle Hrun;
    simpl in Hrun; [discriminate|].
  destruct fuel' as [|fuel']; [lia|].
  apply bind_Ok in Hrun as (c & Hc & Hrun).
  simpl. rewrite (Hbody _ _ Hc). simpl.
  destruct c; [|exact Hrun]. apply IH with (fuel' := fuel') in Hrun; [exact Hrun|lia].
Qed.
End WhileLoop.

(** ** The matcher *)

Section MatcherFacts.
Context {R : Type}.
Variable input : jsstring.
Implicit Types (k : nat → option jsstring → option R) (x : R).

Lemma reaches_here g pos cap k x :
  k pos cap = Some x → (g = true → is_Some cap) → reaches input g pos cap k x.
Proof. intros Hk Hg. exists pos, cap. eauto. Qed.

Lemma reaches_weaken pos cap k x :
  reaches input true pos cap k x → ∀ g, reaches input g pos cap k x.
Proof.
  intros (pos' & cap' & ? & ? & ? & ? & Hg) g. exists pos', cap'.
  repeat split; auto.
Qed.

Lemma reaches_trans g1 g2 pos cap k1 k x :
  reaches input g1 pos cap k1 x →
  (∀ pos' cap' , k1 pos' cap' = Some x → pos ≤ pos' →
     (g1 = true → is_Some cap') → reaches input g2 pos' cap' k x) →
  reaches input (g1 || g2) pos cap k x.
Proof.
  intros (p1 & c1 & Hk1 & Hle1 & Hin1 & Hc1 & Hg1) Hnext.
  destruct (Hnext p1 c1 Hk1 Hle1 Hg1) as (p2 & c2 & Hk & Hle2 & Hin2 & Hc2 & Hg2).
  exists p2, c2. repeat split; [exact Hk|lia|auto..].
  intros [->| ->]%orb_true_iff; auto.
Qed.

Lemma star_iter_reaches one greedy k (n : nat) :
  (∀ pos cap k' x, one pos cap k' = Some x → reaches input false pos cap k' x) →
  ∀ pos cap x, star_iter one greedy k n pos cap = Some x →
    reaches input false pos cap k x.
Proof.
  intros Hone. induction n as [|n IH]; intros pos cap x Hrun; simpl in Hrun.
  - apply reaches_here; [exact Hrun|discriminate].
  - assert (Hagain : one pos cap
              (λ pos' cap', if pos <? pos'
                            then star_iter one greedy k n pos' cap' else None)
              = Some x → reaches input false pos cap k x).
    { intros Hx. apply Hone in Hx.
      apply (reaches_trans false false _ _ _ k) in Hx; [exact Hx|].
      intros pos' cap' Hk _ _. destruct (pos <? pos'); [|discriminate].
      by apply IH. }
    destruct greedy.
    + destruct (one pos cap _) as [y|] eqn:Hy.
      * injection Hrun as ->. by apply Hagain.
      * apply reaches_here; [exact Hrun|discriminate].
    + destruct (k pos cap) as [y|] eqn:Hy.
      * injection Hrun as ->. apply reaches_here; [exact Hy|discriminate].
      * by apply Hagain.
Qed.

(** Every result of the matcher is a result of its continuation. *)
Lemma rmatch_reaches r :
  ∀ pos cap k x, rmatch input r pos cap k = Some x →
    reaches input (has_group r) pos cap k x.
Proof.
  induction r as [p| | | |r1 IH1 r2 IH2|r1 IH1 r2 IH2|greedy r1 IH1|r1 IH1];
    intros pos cap k x Hrun; simpl in Hrun.
  - destruct (input !! pos) as [c|] eqn:Hc; [|discriminate].
    destruct (p c); [|discriminate].
    exists (S pos), cap. apply lookup_lt_Some in Hc.
    repeat split; [exact Hrun|lia|lia|auto|discriminate].
  - destruct (pos =? 0); [|discriminate].
    apply reaches_here; [exact Hrun|discriminate].
  - destruct (pos =? length input); [|discriminate].
    apply reaches_here; [exact Hrun|discriminate].
  - apply reaches_here; [exact Hrun|discriminate].
  - simpl. apply IH1 in Hrun.
    eapply reaches_trans; [exact Hrun|]. intros pos' cap' Hk _ _. by apply IH2.
  - simpl. destruct (rmatch input r1 pos cap k) as [y|] eqn:Hy.
    + injection Hrun as ->. apply IH1 in Hy.
      destruct Hy as (p1 & c1 & ? & ? & ? & ? & Hg). exists p1, c1.
      repeat split; auto. intros [? _]%andb_true_iff. auto.
    + apply IH2 in Hrun.
      destruct Hrun as (p1 & c1 & ? & ? & ? & ? & Hg). exists p1, c1.
      repeat split; auto. intros [_ ?]%andb_true_iff. auto.
  - simpl. eapply star_iter_reaches; [|exact Hrun].
    intros pos0 cap0 k' x0 Hx. apply IH1 in Hx.
    destruct Hx as (p1 & c1 & ? & ? & ? & ? & _). exists p1, c1.
    repeat split; auto. discriminate.
  - simpl. apply IH1 in Hrun.
    destruct Hrun as (p1 & c1 & Hk & ? & ? & ? & _).
    exists p1, (Some (substring pos p1 input)). repeat split; eauto.
Qed.
End MatcherFacts.

Lemma exec_from_spec r input n start m :
  exec_from r input n start = Some m →
  start + n ≤ length input →
  start ≤ m_index m ∧ m_index m ≤ m_end m ∧ m_end m ≤ length input ∧
  (has_group r = true → is_Some (m_group1 m)).
Proof.
  revert start. induction n as [|n IH]; intros start Hrun Hlen; simpl in Hrun.
  - destruct (rmatch input r start None _) as [y|] eqn:Hy; [|discriminate].
    injection Hrun as ->. apply rmatch_reaches in Hy.
    destruct Hy as (p1 & c1 & [= <-] & ? & ? & ? & ?). simpl.
    repeat split; auto; lia.
  - destruct (rmatch input r start None _) as [y|] eqn:Hy.
    + injection Hrun as ->. apply rmatch_reaches in Hy.
      destruct Hy as (p1 & c1 & [= <-] & ? & ? & ? & ?). simpl.
      repeat split; auto; lia.
    + apply IH in Hrun; [|lia]. intuition lia.
Qed.

Lemma RegExp_exec_spec r input m :
  RegExp_exec r input = Some m →
  m_index m ≤ m_end m ∧ m_end m ≤ length input ∧
  (has_group r = true → is_Some (m_group1 m)).
Proof.
  intros Hrun. apply exec_from_spec in Hrun; [|simpl; lia]. tauto.
Qed.

(** ** Splitting into lines always returns *)

Lemma String_split_re_total s r : ∃ lines, String_split_re s r = Ok lines.
Proof.
  unfold String_split_re. destruct (length s =? 0); [eauto|].
  destruct (while_loop_total
              (λ st : nat * nat * list jsstring,
                 st.1.1 ≤ st.1.2 ∧ st.1.2 ≤ length s)
              (λ st, 2 * (length s - st.1.2) + (if st.1.1 <? st.1.2 then 1 else 0))
              (split_body r s)) with (2 * length s + 2) (0, 0, @nil jsstring)
    as [[[p q] acc] Hrun].
  - intros [[p q] acc] [Hpq Hq]; simpl in *. unfold split_body.
    destruct (q <? length s) eqn:Hlt.
    + apply Nat.ltb_lt in Hlt.
      assert (Hstep : ∃ c, Ok (Continue (p, S q, acc)) = Ok c ∧
                (ctl_state c).1.1 ≤ (ctl_state c).1.2 ∧
                (ctl_state c).1.2 ≤ length s ∧
                ∀ s', c = Continue s' →
                  2 * (length s - s'.1.2) + (if s'.1.1 <? s'.1.2 then 1 else 0)
                  < 2 * (length s - q) + (if p <? q then 1 else 0)).
      { eexists; split; [reflexivity|]. simpl. repeat split; [lia|lia|].
        intros s' [= <-]. simpl. destruct (p <? S q), (p <? q); lia. }
      destruct (rmatch s r q None _) as [e0|] eqn:He0;
        [|destruct Hstep as (c & ? & ? & ? & ?); eauto].
      apply rmatch_reaches in He0.
      destruct He0 as (pos' & cap' & [= <-] & Hle & _).
      destruct (pos' `min` length s =? p) eqn:Hep;
        [destruct Hstep as (c & ? & ? & ? & ?); eauto|].
      apply Nat.eqb_neq in Hep.
      eexists; split; [reflexivity|]. simpl. repeat split; [lia|lia|].
      intros s' [= <-]. simpl. rewrite Nat.ltb_irrefl.
      destruct (p <? q) eqn:Hpq'; [lia|]. apply Nat.ltb_ge in Hpq'. lia.
    + eexists; split; [reflexivity|]. simpl. repeat split; [lia|lia|].
      intros s' [=].
  - simpl. lia.
  - simpl. lia.
  - rewrite Hrun. simpl. eauto.
Qed.

(** ** The inner loops as functions of the lines below the cursor *)

Lemma networks_of_nil : networks_of [] = ∅.
Proof. reflexivity. Qed.

Lemma networks_of_app rs1 rs2 :
  networks_of (rs1 ++ rs2) = networks_of rs1 ∪ networks_of rs2.
Proof.
  unfold networks_of. rewrite fmap_app, filter_app. apply list_to_set_app_L.
Qed.

Lemma networks_of_singleton r :
  networks_of [r] = if truthy (network r) then {[ network r ]} else ∅.
Proof.
  unfold networks_of. rewrite list_fmap_singleton.
  destruct (network r) as [|c n] eqn:Hn; cbn [truthy].
  - rewrite filter_cons_False; [reflexivity|]. intros H. by apply H.
  - rewrite filter_cons_True; [|discriminate]. rewrite filter_nil.
    simpl. apply (right_id_L ∅ (∪)).
Qed.

Lemma elem_of_networks_of n rs :
  n ∈ networks_of rs ↔ n ≠ [] ∧ ∃ r, r ∈ rs ∧ network r = n.
Proof.
  unfold networks_of.
  rewrite elem_of_list_to_set, list_elem_of_filter, list_elem_of_fmap.
  split.
  - intros [Hne (r & -> & Hr)]. eauto.
  - intros [Hne (r & Hr & <-)]. eauto.
Qed.

Lemma skip_blank_from_ge rest j : j ≤ skip_blank_from rest j.
Proof.
  revert j. induction rest as [|l rest IH]; intros j; simpl; [lia|].
  destruct (RegExp_test re_blank l); [|lia]. specialize (IH (S j)). lia.
Qed.

Lemma skip_blank_from_le rest j : skip_blank_from rest j ≤ j + length rest.
Proof.
  revert j. induction rest as [|l rest IH]; intros j; simpl; [lia|].
  destruct (RegExp_test re_blank l); [|lia]. specialize (IH (S j)). lia.
Qed.

Lemma drop_lookup_cons {A} (l : list A) (j : nat) (x : A) :
  l !! j = Some x → drop j l = x :: drop (S j) l.
Proof. intros H. by apply drop_S. Qed.

Lemma skip_blank_body_at lines j l :
  lines !! j = Some l →
  skip_blank_body lines j
  = Ok (if RegExp_test re_blank l then Continue (S j) else Break j).
Proof.
  intros Hl. unfold skip_blank_body.
  pose proof (lookup_lt_Some _ _ _ Hl) as Hlt. apply Nat.ltb_lt in Hlt.
  rewrite Hlt, Hl. simpl. by destruct (RegExp_test re_blank l).
Qed.

Lemma skip_blank_body_end lines j :
  length lines ≤ j → skip_blank_body lines j = Ok (Break j).
Proof.
  intros Hge. unfold skip_blank_body. apply Nat.ltb_ge in Hge. by rewrite Hge.
Qed.

Lemma skip_blank_run lines : ∀ fuel j,
  length lines - j < fuel →
  while_loop fuel (skip_blank_body lines) j
  = Ok (skip_blank_from (drop j lines) j).
Proof.
  induction fuel as [|fuel IH]; intros j Hfuel; [lia|].
  destruct (decide (j < length lines)) as [Hlt|Hge].
  - destruct (lookup_lt_is_Some_2 lines j Hlt) as [l Hl].
    rewrite (drop_lookup_cons _ _ _ Hl). simpl skip_blank_from.
    pose proof (skip_blank_body_at _ _ _ Hl) as Hbody.
    destruct (RegExp_test re_blank l).
    + rewrite (while_loop_continue _ _ _ _ Hbody). apply IH. lia.
    + apply while_loop_break, Hbody.
  - rewrite drop_ge by lia. simpl. apply while_loop_break, skip_blank_body_end. lia.
Qed.

Lemma rows_body_row lines j row rs nets :
  lines !! j = Some row →
  RegExp_test re_pipe_start row = true →
  rows_body lines (j, rs, nets)
  = Ok (Continue (S j, rs ++ option_list (row_of_line row),
                  nets ∪ networks_of (option_list (row_of_line row)))).
Proof.
  intros Hrow Hpipe. unfold rows_body.
  pose proof (lookup_lt_Some _ _ _ Hrow) as Hlt. apply Nat.ltb_lt in Hlt.
  rewrite Hlt, Hrow. simpl. rewrite Hpipe. simpl.
  unfold row_of_line, row_of_cells.
  destruct (splitMarkdownRow row) as [|c0 [|c1 [|c2 [|c3 [|c4 extra]]]]]; simpl;
    rewrite ?app_nil_r, ?networks_of_nil, ?(right_id_L ∅ (∪)); try reflexivity.
  rewrite networks_of_singleton. simpl.
  destruct (truthy c0); do 3 f_equal;
    [apply (comm_L (∪))|by rewrite (right_id_L ∅ (∪))].
Qed.

Lemma rows_body_stop lines j rs nets :
  (∀ row, lines !! j = Some row → RegExp_test re_pipe_start row = false) →
  rows_body lines (j, rs, nets) = Ok (Break (j, rs, nets)).
Proof.
  intros Hstop. unfold rows_body. destruct (j <? length lines) eqn:Hlt; [|done].
  apply Nat.ltb_lt in Hlt.
  destruct (lookup_lt_is_Some_2 lines j Hlt) as [row Hrow].
  rewrite Hrow. simpl. by rewrite (Hstop _ Hrow).
Qed.

Lemma rows_of_cons l tbl :
  rows_of (l :: tbl) = option_list (row_of_line l) ++ rows_of tbl.
Proof. unfold rows_of. simpl. by destruct (row_of_line l). Qed.

Lemma rows_of_app tbl1 tbl2 : rows_of (tbl1 ++ tbl2) = rows_of tbl1 ++ rows_of tbl2.
Proof. apply omap_app. Qed.

Lemma rows_run lines : ∀ fuel j rs nets,
  length lines - j < fuel →
  while_loop fuel (rows_body lines) (j, rs, nets)
  = Ok (j + length (table_lines (drop j lines)),
        rs ++ rows_of (table_lines (drop j lines)),
        nets ∪ networks_of (rows_of (table_lines (drop j lines)))).
Proof.
  induction fuel as [|fuel IH]; intros j rs nets Hfuel; [lia|].
  assert (Hstop : table_lines (drop j lines) = [] →
            rows_body lines (j, rs, nets) = Ok (Break (j, rs, nets)) →
            while_loop (S fuel) (rows_body lines) (j, rs, nets)
            = Ok (j + length (table_lines (drop j lines)),
                  rs ++ rows_of (table_lines (drop j lines)),
                  nets ∪ networks_of (rows_of (table_lines (drop j lines))))).
  { intros -> Hbody. rewrite (while_loop_break _ _ _ _ Hbody).
    cbn [length rows_of omap list_omap].
    by rewrite app_nil_r, networks_of_nil, (right_id_L ∅ (∪)), Nat.add_0_r. }
  destruct (decide (j < length lines)) as [Hlt|Hge].
  - destruct (lookup_lt_is_Some_2 lines j Hlt) as [row Hrow].
    destruct (RegExp_test re_pipe_start row) eqn:Hpipe.
    + rewrite (while_loop_continue _ _ _ _ (rows_body_row _ _ _ _ _ Hrow Hpipe)).
      rewrite IH by lia. rewrite (drop_lookup_cons _ _ _ Hrow).
      cbn [table_lines]. rewrite Hpipe, rows_of_cons, networks_of_app.
      cbn [length]. rewrite <- app_assoc, Nat.add_succ_r, (assoc_L (∪)).
      reflexivity.
    + apply Hstop.
      * rewrite (drop_lookup_cons _ _ _ Hrow). cbn [table_lines]. by rewrite Hpipe.
      * apply rows_body_stop. intros row' Hrow'. congruence.
  - apply Hstop.
    + rewrite drop_ge by lia. reflexivity.
    + apply rows_body_stop. intros row' Hrow'. apply lookup_lt_Some in Hrow'. lia.
Qed.

(** ** [findNearestCategory] *)

Arguments RegExp_exec : simpl never.
Arguments RegExp_test : simpl never.
Arguments String_match : simpl never.
Arguments splitMarkdownRow : simpl never.
Arguments String_trim : simpl never.
Arguments chr_eq : simpl never.
Arguments chr_eq_ci : simpl never.
Arguments cls_space : simpl never.
Arguments cls_dot : simpl never.

Lemma re_h2_group1 line m :
  String_match line re_h2 = Some m → is_Some (m_group1 m).
Proof. intros H. by apply RegExp_exec_spec in H as (_ & _ & Hg); apply Hg. Qed.

Lemma re_h3_group1 line m :
  String_match line re_h3 = Some m → is_Some (m_group1 m).
Proof. intros H. by apply RegExp_exec_spec in H as (_ & _ & Hg); apply Hg. Qed.

Lemma re_paren_group1 cell m :
  String_match cell re_paren = Some m → is_Some (m_group1 m).
Proof. intros H. by apply RegExp_exec_spec in H as (_ & _ & Hg); apply Hg. Qed.

Lemma h2_text_None line : h2_text line = None ↔ String_match line re_h2 = None.
Proof.
  unfold h2_text. destruct (String_match line re_h2) as [m|] eqn:Hm; [|done].
  destruct (re_h2_group1 _ _ Hm) as [t Ht]. rewrite Ht. simpl. split; discriminate.
Qed.

Lemma h3_title_None line : h3_title line = None ↔ String_match line re_h3 = None.
Proof.
  unfold h3_title. destruct (String_match line re_h3) as [m|] eqn:Hm; [|done].
  destruct (re_h3_group1 _ _ Hm) as [t Ht]. rewrite Ht. simpl. split; discriminate.
Qed.

Lemma findNearestCategory_S lines k line :
  lines !! k = Some line →
  findNearestCategory lines (S k)
  = match h2_text line with
    | Some c => Ok c
    | None => findNearestCategory lines k
    end.
Proof.
  intros Hline. cbn [findNearestCategory]. rewrite Hline. simpl.
  unfold h2_text. destruct (String_match line re_h2) as [m|] eqn:Hm; [|done].
  destruct (re_h2_group1 _ _ Hm) as [t ->]. reflexivity.
Qed.

Lemma findNearestCategory_spec lines : ∀ index,
  index ≤ length lines →
  ∃ c, findNearestCategory lines index = Ok c ∧ nearest_category lines index c.
Proof.
  induction index as [|k IH]; intros Hlen.
  - exists Uncategorized. split; [done|]. right. split; [done|]. intros; lia.
  - destruct (lookup_lt_is_Some_2 lines k) as [line Hline]; [lia|].
    rewrite (findNearestCategory_S _ _ _ Hline).
    destruct (h2_text line) as [c|] eqn:Hc.
    + exists c. split; [done|]. left. exists k, line.
      repeat split; [lia|done..|]. intros; lia.
    + destruct IH as (c & Hrun & Hnear); [lia|]. exists c. split; [done|].
      assert (Hk : ∀ k' line', k' = k → lines !! k' = Some line' →
                     h2_text line' = None) by (intros ? ? -> ?; congruence).
      destruct Hnear as [(k0 & l0 & ? & ? & ? & Hbetween)|[-> Hnone]].
      * left. exists k0, l0. repeat split; [lia|done..|].
        intros k' line' Hk' Hl'. destruct (decide (k' = k)); [eauto|].
        apply (Hbetween k'); [lia|done].
      * right. split; [done|]. intros k' line' Hk' Hl'.
        destruct (decide (k' = k)); [eauto|]. apply (Hnone k'); [lia|done].
Qed.

Lemma nearest_category_unique lines index c1 c2 :
  nearest_category lines index c1 → nearest_category lines index c2 → c1 = c2.
Proof.
  intros [(k1 & l1 & ? & Hl1 & Ht1 & Hb1)|[-> Hn1]]
         [(k2 & l2 & ? & Hl2 & Ht2 & Hb2)|[-> Hn2]].
  - destruct (Nat.lt_trichotomy k1 k2) as [Hlt|[->|Hgt]].
    + rewrite (Hb1 k2 l2) in Ht2; [done|lia|done].
    + congruence.
    + rewrite (Hb2 k1 l1) in Ht1; [done|lia|done].
  - rewrite (Hn2 k1 l1) in Ht1; done.
  - rewrite (Hn1 k2 l2) in Ht2; done.
  - done.
Qed.

(** ** One turn of the outer loop *)

Lemma parse_body_end fuel lines st :
  length lines ≤ ls_i st → parse_body fuel lines st = Ok (Break st).
Proof.
  intros Hge. unfold parse_body. apply Nat.ltb_ge in Hge. by rewrite Hge.
Qed.

Lemma parse_body_plain fuel lines st line :
  lines !! ls_i st = Some line →
  h3_title line = None →
  parse_body fuel lines st
  = Ok (Continue (mkLoop (ls_i st + 1) (ls_entries st) (ls_networks st)
                    (ls_categories st))).
Proof.
  intros Hline Hno%h3_title_None. unfold parse_body.
  pose proof (lookup_lt_Some _ _ _ Hline) as Hlt. apply Nat.ltb_lt in Hlt.
  rewrite Hlt, Hline. simpl. by rewrite Hno.
Qed.

Lemma parse_body_heading fuel lines st line t c :
  length lines < fuel →
  lines !! ls_i st = Some line →
  h3_title line = Some t →
  findNearestCategory lines (ls_i st) = Ok c →
  parse_body fuel lines st
  = Ok (Continue
          match header_below lines (ls_i st) with
          | Some j =>
              let tbl := table_lines (drop (j + 2) lines) in
              mkLoop (j + 2 + length tbl)
                (ls_entries st ++ [mkEntry c t (rows_of tbl)])
                (ls_networks st ∪ networks_of (rows_of tbl))
                ({[ c ]} ∪ ls_categories st)
          | None =>
              mkLoop (ls_i st + 1) (ls_entries st) (ls_networks st)
                ({[ c ]} ∪ ls_categories st)
          end).
Proof.
  intros Hfuel Hline Ht Hc. unfold parse_body.
  pose proof (lookup_lt_Some _ _ _ Hline) as Hlt.
  assert ((ls_i st <? length lines) = true) as -> by (apply Nat.ltb_lt; lia).
  rewrite Hline. simpl. unfold h3_title in Ht.
  destruct (String_match line re_h3) as [h3|]; [|done].
  destruct (m_group1 h3) as [t0|]; [|done]. injection Ht as <-.
  simpl. rewrite Hc. simpl.
  rewrite skip_blank_run by lia. simpl.
  unfold header_below. rewrite Nat.add_1_r.
  set (j := skip_blank_from (drop (S (ls_i st)) lines) (S (ls_i st))).
  destruct (j <? length lines) eqn:Hj.
  - apply Nat.ltb_lt in Hj. destruct (lookup_lt_is_Some_2 lines j Hj) as [l Hl].
    rewrite Hl. simpl. destruct (RegExp_test re_header l); [|done].
    rewrite rows_run by lia. simpl. reflexivity.
  - apply Nat.ltb_ge in Hj. rewrite (lookup_ge_None_2 lines j Hj). done.
Qed.

Lemma parse_body_turn fuel lines st :
  length lines < fuel →
  ∃ c, parse_body fuel lines st = Ok c ∧ parse_turn lines st c.
Proof.
  intros Hfuel. destruct (decide (ls_i st < length lines)) as [Hlt|Hge].
  - destruct (lookup_lt_is_Some_2 lines _ Hlt) as [line Hline].
    destruct (h3_title line) as [t|] eqn:Ht.
    + destruct (findNearestCategory_spec lines (ls_i st)) as (c & Hc & Hnear); [lia|].
      rewrite (parse_body_heading _ _ _ _ _ _ Hfuel Hline Ht Hc).
      destruct (header_below lines (ls_i st)) as [j|] eqn:Hj;
        eexists; (split; [reflexivity|]).
      * by eapply turn_table.
      * by eapply turn_heading.
    + rewrite (parse_body_plain _ _ _ _ Hline Ht).
      eexists; split; [reflexivity|]. by eapply turn_plain.
  - rewrite parse_body_end by lia. eexists; split; [reflexivity|].
    apply turn_end. lia.
Qed.

Lemma header_below_gt lines i j : header_below lines i = Some j → i < j.
Proof.
  unfold header_below. intros H.
  pose proof (skip_blank_from_ge (drop (S i) lines) (S i)).
  destruct (lines !! _) as [l|]; [|done].
  destruct (RegExp_test re_header l); [|done]. injection H as <-. lia.
Qed.

(** The cursor moves forward in every turn that goes on. *)
Lemma parse_turn_advances lines st st' :
  parse_turn lines st (Continue st') → ls_i st < ls_i st'.
Proof.
  inversion 1; subst; simpl; try lia.
  match goal with H : header_below _ _ = Some _ |- _ =>
    apply header_below_gt in H end. lia.
Qed.

Lemma parse_loop_total fuel lines st :
  length lines < fuel →
  ∃ st', while_loop fuel (parse_body fuel lines) st = Ok st'.
Proof.
  intros Hfuel.
  apply (while_loop_total (λ _, True) (λ st, length lines - ls_i st));
    [|done|lia].
  intros s _. destruct (parse_body_turn fuel lines s Hfuel) as (c & Hc & Hturn).
  exists c. split; [done|]. split; [done|]. intros s' ->.
  pose proof (parse_turn_advances _ _ _ Hturn).
  inversion Hturn; subst; simpl in *;
    match goal with H : _ !! _ = Some _ |- _ => apply lookup_lt_Some in H end; lia.
Qed.

Lemma parse_body_fuel f1 f2 lines st :
  length lines < f1 → length lines < f2 →
  parse_body f1 lines st = parse_body f2 lines st.
Proof.
  intros H1 H2. destruct (decide (ls_i st < length lines)) as [Hlt|Hge].
  - destruct (lookup_lt_is_Some_2 lines _ Hlt) as [line Hline].
    destruct (h3_title line) as [t|] eqn:Ht.
    + destruct (findNearestCategory_spec lines (ls_i st)) as (c & Hc & _); [lia|].
      by rewrite (parse_body_heading _ _ _ _ _ _ H1 Hline Ht Hc),
        (parse_body_heading _ _ _ _ _ _ H2 Hline Ht Hc).
    + by rewrite !(parse_body_plain _ _ _ _ Hline Ht).
  - by rewrite !parse_body_end by lia.
Qed.

(** Any two budgets above the number of lines give the same result. *)
Lemma parseLines_fuel f1 f2 lines :
  length lines < f1 → length lines < f2 →
  parseLines f1 lines = parseLines f2 lines.
Proof.
  intros H1 H2. unfold parseLines.
  destruct (parse_loop_total (S (length lines)) lines (mkLoop 0 [] ∅ ∅))
    as [st' Hrun]; [lia|].
  assert (Hany : ∀ f, length lines < f →
            while_loop f (parse_body f lines) (mkLoop 0 [] ∅ ∅) = Ok st').
  { intros f Hf. eapply while_loop_mono; [|  |exact Hrun]; [|lia].
    intros s c <-. apply parse_body_fuel; lia. }
  by rewrite !Hany.
Qed.

(** ** What the loop keeps true *)

Lemma parse_inv_init lines : parse_inv lines (mkLoop 0 [] ∅ ∅).
Proof.
  split; simpl.
  - exists []. repeat split; constructor.
  - reflexivity.
  - intros e He. by apply elem_of_nil in He.
  - intros c Hc. by apply elem_of_empty in Hc.
Qed.

Lemma parse_turn_inv lines st c :
  parse_inv lines st → parse_turn lines st c → parse_inv lines (ctl_state c).
Proof.
  intros [(idxs & [Hes Hsorted] & Hidxs) Hnets Hce Hch] Hturn.
  assert (Hmono : ∀ i', ls_i st ≤ i' →
            ∃ idxs, entries_from lines idxs (ls_entries st) ∧
                    Forall (λ i, i < i') idxs).
  { intros i' Hi'. exists idxs. split; [done|].
    eapply Forall_impl; [exact Hidxs|]. simpl. intros; lia. }
  assert (Hch' : ∀ i' c0, ls_i st ≤ i' → c0 ∈ ls_categories st →
            ∃ i line, i < i' ∧ lines !! i = Some line ∧
                      is_Some (h3_title line) ∧ nearest_category lines i c0).
  { intros i' c0 Hi' Hc0. destruct (Hch c0 Hc0) as (i & line & ? & ? & ? & ?).
    exists i, line. repeat split; [lia|done..]. }
  inversion Hturn as [Hend|line Hline Ht|line t c0 Hline Ht Hc Hnear Hj
                      |line t c0 j Hline Ht Hc Hnear Hj]; subst; simpl.
  - split; [by exists idxs|done..].
  - split; simpl; [apply Hmono; lia|done..|intros ? ?; apply Hch'; [lia|done]].
  - split; simpl; [apply Hmono; lia|done| |].
    + intros e He. apply elem_of_union_r. by apply Hce.
    + intros c' [->%elem_of_singleton|Hc']%elem_of_union.
      * exists (ls_i st), line. rewrite Ht. repeat split; [lia|done|by eexists|done].
      * apply Hch'; [lia|done].
  - pose proof (header_below_gt _ _ _ Hj) as Hgt. split; simpl.
    + exists (idxs ++ [ls_i st]). split; [split|].
      * apply Forall2_app; [done|]. constructor; [|constructor].
        exists line, j. done.
      * apply StronglySorted_app_2; [|done|by repeat constructor].
        intros i1 i2 Hi1 ->%list_elem_of_singleton.
        revert i1 Hi1. by apply Forall_forall.
      * apply Forall_app. split.
        -- eapply Forall_impl; [exact Hidxs|]. simpl. intros; lia.
        -- apply Forall_singleton. lia.
    + unfold all_rows. rewrite bind_app, networks_of_app. simpl.
      rewrite app_nil_r. by f_equal.
    + intros e [He| ->%list_elem_of_singleton]%elem_of_app.
      * apply elem_of_union_r. by apply Hce.
      * simpl. apply elem_of_union_l. by apply elem_of_singleton.
    + intros c' [->%elem_of_singleton|Hc']%elem_of_union.
      * exists (ls_i st), line. rewrite Ht. repeat split; [lia|done|by eexists|done].
      * apply Hch'; [lia|done].
Qed.

Lemma parse_loop_inv fuel lines st st' :
  length lines < fuel →
  parse_inv lines st →
  while_loop fuel (parse_body fuel lines) st = Ok st' →
  parse_inv lines st'.
Proof.
  intros Hfuel Hinv Hrun.
  eapply (while_loop_inv (parse_inv lines)) in Hrun as [Hinv' _]; [done| |done].
  intros s c Hs Hc.
  destruct (parse_body_turn fuel lines s Hfuel) as (c' & Hc' & Hturn).
  assert (c' = c) as -> by congruence. by eapply parse_turn_inv.
Qed.

(** The result of [parseLines] in terms of the lines. *)
Lemma parseLines_spec fuel lines :
  length lines < fuel →
  ∃ r, parseLines fuel lines = Ok r ∧
    (∃ idxs, entries_from lines idxs (entries r)) ∧
    networks r = networks_of (all_rows (entries r)) ∧
    (∀ e, e ∈ entries r → category e ∈ categories r) ∧
    (∀ c, c ∈ categories r →
       ∃ i line, lines !! i = Some line ∧ is_Some (h3_title line) ∧
                 nearest_category lines i c).
Proof.
  intros Hfuel. unfold parseLines.
  destruct (parse_loop_total fuel lines (mkLoop 0 [] ∅ ∅) Hfuel) as [st Hrun].
  rewrite Hrun. simpl. eexists; split; [reflexivity|]. simpl.
  destruct (parse_loop_inv _ _ _ _ Hfuel (parse_inv_init lines) Hrun)
    as [(idxs & Hes & _) Hnets Hce Hch].
  repeat split; [by exists idxs|done..|].
  intros c Hc. destruct (Hch c Hc) as (i & line & _ & ? & ? & ?). eauto.
Qed.

(** The result of [parseMarkdown], for any budget above the line count. *)
Lemma parseMarkdown_spec md :
  ∃ lines r,
    String_split_re md re_newline = Ok lines ∧
    parseMarkdown md = Ok r ∧
    (∀ fuel, length lines < fuel → parseMarkdown_fuel fuel md = Ok r) ∧
    (∃ idxs, entries_from lines idxs (entries r)) ∧
    networks r = networks_of (all_rows (entries r)) ∧
    (∀ e, e ∈ entries r → category e ∈ categories r) ∧
    (∀ c, c ∈ categories r →
       ∃ i line, lines !! i = Some line ∧ is_Some (h3_title line) ∧
                 nearest_category lines i c).
Proof.
  destruct (String_split_re_total md re_newline) as [lines Hlines].
  destruct (parseLines_spec (S (length lines)) lines) as (r & Hr & Hspec); [lia|].
  exists lines, r. unfold parseMarkdown, parseMarkdown_fuel. rewrite Hlines. simpl.
  split; [done|]. split; [done|]. split; [|done].
  intros fuel Hfuel. by rewrite (parseLines_fuel fuel (S (length lines))) by lia.
Qed.

(** ** Quantified character classes *)

Section ClassStar.
Context {R : Type}.
Variable input : jsstring.
Implicit Types (k : nat → option jsstring → option R) (p : char → bool).

Lemma greedy_class_ext p k k' :
  (∀ pos cap, k pos cap = k' pos cap) →
  ∀ rest pos cap, greedy_class p k rest pos cap = greedy_class p k' rest pos cap.
Proof.
  intros Hk. induction rest as [|c rest IH]; intros pos cap; simpl;
    rewrite ?IH, ?Hk; done.
Qed.

Lemma lazy_class_ext p k k' :
  (∀ pos cap, k pos cap = k' pos cap) →
  ∀ rest pos cap, lazy_class p k rest pos cap = lazy_class p k' rest pos cap.
Proof.
  intros Hk. induction rest as [|c rest IH]; intros pos cap; simpl;
    rewrite ?IH, ?Hk; done.
Qed.

Lemma rmatch_RChar p k pos cap :
  rmatch input (RChar p) pos cap k
  = match drop pos input with
    | c :: _ => if p c then k (S pos) cap else None
    | [] => None
    end.
Proof.
  simpl. destruct (input !! pos) as [c|] eqn:Hc.
  - by rewrite (drop_lookup_cons _ _ _ Hc).
  - apply lookup_ge_None in Hc. by rewrite drop_ge.
Qed.

Lemma star_iter_greedy_class p k : ∀ n pos cap,
  length input - pos ≤ n →
  star_iter (rmatch input (RChar p)) true k n pos cap
  = greedy_class p k (drop pos input) pos cap.
Proof.
  induction n as [|n IH]; intros pos cap Hn.
  - rewrite drop_ge by lia. reflexivity.
  - cbn [star_iter]. rewrite rmatch_RChar.
    destruct (input !! pos) as [c|] eqn:Hc.
    + rewrite (drop_lookup_cons _ _ _ Hc). cbn [greedy_class].
      destruct (p c); [|done].
      assert ((pos <? S pos) = true) as -> by (apply Nat.ltb_lt; lia).
      rewrite IH by lia. done.
    + apply lookup_ge_None in Hc. rewrite drop_ge by done. done.
Qed.

Lemma star_iter_lazy_class p k : ∀ n pos cap,
  length input - pos ≤ n →
  star_iter (rmatch input (RChar p)) false k n pos cap
  = lazy_class p k (drop pos input) pos cap.
Proof.
  induction n as [|n IH]; intros pos cap Hn.
  - rewrite drop_ge by lia. simpl. by destruct (k pos cap).
  - cbn [star_iter]. rewrite rmatch_RChar.
    destruct (input !! pos) as [c|] eqn:Hc.
    + rewrite (drop_lookup_cons _ _ _ Hc). cbn [lazy_class].
      destruct (k pos cap); [done|]. destruct (p c); [|done].
      assert ((pos <? S pos) = true) as -> by (apply Nat.ltb_lt; lia).
      by rewrite IH by lia.
    + apply lookup_ge_None in Hc. rewrite drop_ge by done. simpl.
      by destruct (k pos cap).
Qed.

Lemma rmatch_star_class greedy p k pos cap :
  rmatch input (RStar greedy (RChar p)) pos cap k
  = (if greedy then greedy_class p k else lazy_class p k)
      (drop pos input) pos cap.
Proof.
  cbn [rmatch]. destruct greedy.
  - by apply star_iter_greedy_class.
  - by apply star_iter_lazy_class.
Qed.

Lemma rmatch_plus_class greedy p k pos cap :
  rmatch input (RPlus greedy (RChar p)) pos cap k
  = match drop pos input with
    | c :: rest =>
        if p c then
          (if greedy then greedy_class p k else lazy_class p k) rest (S pos) cap
        else None
    | [] => None
    end.
Proof.
  unfold RPlus. cbn [rmatch].
  destruct (input !! pos) as [c|] eqn:Hc.
  - rewrite (drop_lookup_cons _ _ _ Hc). destruct (p c); [|done].
    pose proof (rmatch_star_class greedy p k (S pos) cap) as Hstar.
    cbn [rmatch] in Hstar. by rewrite Hstar.
  - apply lookup_ge_None in Hc. by rewrite drop_ge.
Qed.
End ClassStar.

(** ** The pattern of the Explorer cell *)

Lemma chr_eq_true a c : chr_eq a c = true ↔ c = a.
Proof. unfold chr_eq. rewrite N.eqb_eq. split; congruence. Qed.

Lemma until_rpar_Some s body :
  until_rpar s = Some body ↔
  ∃ post, s = body ++ c_rpar :: post ∧ c_rpar ∉ body.
Proof.
  revert body. induction s as [|c s IH]; intros body; cbn [until_rpar].
  - split; [done|]. intros (post & H & _). by destruct body.
  - destruct (chr_eq c_rpar c) eqn:Hc.
    + apply chr_eq_true in Hc as ->. split.
      * intros [= <-]. exists s. split; [done|]. apply not_elem_of_nil.
      * intros (post & H & Hnot). destruct body as [|b body]; [done|].
        injection H as <- _. exfalso. apply Hnot. left.
    + assert (c ≠ c_rpar) as Hne.
      { intros ->. by rewrite (proj2 (chr_eq_true _ _) eq_refl) in Hc. }
      split.
      * destruct (until_rpar s) as [body'|] eqn:Hs; [|done].
        intros [= <-]. destruct (proj1 (IH body') eq_refl) as (post & -> & Hnot).
        exists post. split; [done|]. by intros [?|?]%elem_of_cons.
      * intros (post & H & Hnot). destruct body as [|b body].
        { injection H as ->. done. }
        injection H as -> ->.
        rewrite (proj2 (IH body)); [done|]. exists post. split; [done|].
        intros ?. apply Hnot. by right.
Qed.

Lemma drop_cons_inv {A} (l : list A) (q : nat) (x : A) (rest : list A) :
  drop q l = x :: rest → drop (S q) l = rest ∧ l !! q = Some x.
Proof.
  intros H. split.
  - replace (S q) with (q + 1) by lia. by rewrite <- drop_drop, H.
  - rewrite <- (Nat.add_0_r q), <- lookup_drop, H. done.
Qed.

Section ParenPattern.
Variable input : jsstring.
Variable q : nat.

(** What follows the group's first character: more of them, then [)]. *)
Let after_group (p2 : nat) (_ : option jsstring) : option MatchResult :=
  rmatch input (RChar (chr_eq c_rpar)) p2
    (Some (substring (S q) p2 input))
    (λ e cap, Some (mkMatch q e cap)).

Lemma greedy_until_rpar : ∀ rest pos cap,
  drop pos input = rest →
  greedy_class (λ c, negb (chr_eq c_rpar c)) after_group rest pos cap
  = match until_rpar rest with
    | Some body =>
        Some (mkMatch q (S (pos + length body))
                (Some (substring (S q) (pos + length body) input)))
    | None => None
    end.
Proof.
  induction rest as [|c rest IH]; intros pos cap Hdrop.
  - simpl. unfold after_group. by rewrite rmatch_RChar, Hdrop.
  - cbn [greedy_class until_rpar].
    destruct (drop_cons_inv _ _ _ _ Hdrop) as [Hrest _].
    assert (Hhere : after_group pos cap
              = if chr_eq c_rpar c
                then Some (mkMatch q (S pos) (Some (substring (S q) pos input)))
                else None).
    { unfold after_group. by rewrite rmatch_RChar, Hdrop. }
    destruct (chr_eq c_rpar c); simpl.
    + by rewrite Hhere, Nat.add_0_r.
    + rewrite (IH (S pos) cap Hrest), Hhere.
      destruct (until_rpar rest) as [body|]; simpl; [|done].
      by rewrite Nat.add_succ_r.
Qed.

Lemma re_paren_at :
  rmatch input re_paren q None (λ e cap, Some (mkMatch q e cap))
  = match group_here (drop q input) with
    | Some body => Some (mkMatch q (q + length body + 2) (Some body))
    | None => None
    end.
Proof.
  unfold re_paren. cbn [rmatch]. rewrite rmatch_plus_class.
  destruct (input !! q) as [c|] eqn:Hc.
  2:{ apply lookup_ge_None in Hc. by rewrite drop_ge. }
  rewrite (drop_lookup_cons _ _ _ Hc). cbn [group_here].
  destruct (chr_eq c_lpar c); [|done].
  destruct (drop (S q) input) as [|c1 rest] eqn:Hdrop; [done|].
  destruct (drop_cons_inv _ _ _ _ Hdrop) as [Hrest _].
  cbn [until_rpar]. destruct (chr_eq c_rpar c1); [done|]. cbn [negb].
  pose proof (greedy_until_rpar rest (S (S q)) None Hrest) as Hg.
  unfold after_group in Hg. cbn [rmatch] in Hg. rewrite Hg. clear Hg.
  destruct (until_rpar rest) as [body|] eqn:Hbody; [|done].
  cbn [fmap option_fmap option_map length]. do 2 f_equal; [lia|].
  apply until_rpar_Some in Hbody as (post & Hpost & _).
  unfold substring. rewrite Hdrop, Hpost.
  replace (S (S q) + length body - S q) with (S (length body)) by lia.
  cbn [take]. by rewrite take_app_length.
Qed.
End ParenPattern.

Lemma exec_from_paren input : ∀ n start,
  start + n = length input →
  m_group1 <$> exec_from re_paren input n start
  = Some <$> first_group (drop start input).
Proof.
  induction n as [|n IH]; intros start Hlen; cbn [exec_from];
    rewrite re_paren_at.
  - rewrite drop_ge by lia. done.
  - destruct (lookup_lt_is_Some_2 input start) as [c Hc]; [lia|].
    rewrite (drop_lookup_cons _ _ _ Hc). cbn [first_group].
    rewrite <- (drop_lookup_cons _ _ _ Hc).
    destruct (group_here (drop start input)) as [body|]; [done|].
    apply IH. lia.
Qed.

(** The Explorer cell becomes its first parenthesis group. *)
Lemma explorer_cell_first_group cell :
  clean_cell 2 cell = default cell (first_group cell).
Proof.
  unfold clean_cell. simpl (2 =? 2).
  pose proof (exec_from_paren cell (length cell) 0 eq_refl) as H.
  rewrite drop_0 in H. unfold String_match, RegExp_exec.
  destruct (exec_from re_paren cell (length cell) 0) as [m|],
    (first_group cell) as [body|]; simpl in H; try done.
  by injection H as ->.
Qed.

Lemma group_here_Some s body :
  group_here s = Some body ↔ ∃ post, paren_group s [] body post.
Proof.
  unfold paren_group, group_here. split.
  - destruct s as [|c s]; [done|].
    destruct (chr_eq c_lpar c) eqn:Hc; [|done]. apply chr_eq_true in Hc as ->.
    destruct (until_rpar s) as [[|b body']|] eqn:Hs; try done.
    intros [= <-]. apply until_rpar_Some in Hs as (post & -> & Hnot).
    exists post. done.
  - intros (post & -> & Hne & Hnot). cbn [app].
    rewrite (proj2 (chr_eq_true c_lpar c_lpar) eq_refl).
    rewrite (proj2 (until_rpar_Some _ body)) by eauto.
    by destruct body.
Qed.

Lemma paren_group_cons c s pre body post :
  paren_group s pre body post → paren_group (c :: s) (c :: pre) body post.
Proof. intros (-> & ? & ?). done. Qed.

Lemma first_group_Some s body :
  first_group s = Some body ↔
  ∃ pre post, paren_group s pre body post ∧
    ∀ pre' body' post', paren_group s pre' body' post' → length pre ≤ length pre'.
Proof.
  split.
  - revert body. induction s as [|c s IH]; intros body; cbn [first_group].
    + destruct (group_here []) eqn:H; done.
    + destruct (group_here (c :: s)) as [b0|] eqn:Hhere.
      * intros [= <-]. apply group_here_Some in Hhere as [post Hpost].
        exists [], post. split; [done|]. intros; simpl; lia.
      * intros (pre & post & Hgrp & Hmin)%IH.
        exists (c :: pre), post. split; [by apply paren_group_cons|].
        intros pre' body' post' Hgrp'. destruct pre' as [|c' pre'].
        { assert (group_here (c :: s) = Some body') as Hsome
            by (apply group_here_Some; eauto). congruence. }
        simpl. apply le_n_S, (Hmin pre' body' post').
        destruct Hgrp' as (Heq & ? & ?). injection Heq as -> ->. done.
  - intros (pre & post & Hgrp & Hmin). revert pre Hgrp Hmin.
    induction s as [|c s IH]; intros pre Hgrp Hmin; cbn [first_group].
    + destruct Hgrp as (Heq & _). by destruct pre.
    + destruct (group_here (c :: s)) as [b0|] eqn:Hhere.
      * pose proof Hhere as [post0 Hpost0]%group_here_Some.
        specialize (Hmin _ _ _ Hpost0). destruct pre; [|simpl in Hmin; lia].
        assert (group_here (c :: s) = Some body) by (apply group_here_Some; eauto).
        congruence.
      * destruct pre as [|c' pre].
        { assert (group_here (c :: s) = Some body) by (apply group_here_Some; eauto).
          congruence. }
        apply (IH pre).
        -- destruct Hgrp as (Heq & ? & ?). injection Heq as -> ->. done.
        -- intros pre' body' post' Hgrp'.
           specialize (Hmin _ _ _ (paren_group_cons c _ _ _ _ Hgrp')).
           simpl in Hmin. lia.
Qed.

Lemma first_group_None s :
  first_group s = None ↔ ∀ pre body post, ¬ paren_group s pre body post.
Proof.
  split.
  - induction s as [|c s IH]; cbn [first_group].
    + intros _ pre body post (Heq & _). by destruct pre.
    + destruct (group_here (c :: s)) as [b0|] eqn:Hhere; [done|].
      intros Hnone pre body post Hgrp. destruct pre as [|c' pre].
      * assert (group_here (c :: s) = Some body) by (apply group_here_Some; eauto).
        congruence.
      * apply (IH Hnone pre body post).
        destruct Hgrp as (Heq & ? & ?). injection Heq as -> ->. done.
  - intros Hnone. destruct (first_group s) as [body|] eqn:Hs; [|done].
    apply first_group_Some in Hs as (pre & post & Hgrp & _).
    by destruct (Hnone _ _ _ Hgrp).
Qed.

(** ** The heading patterns *)

Lemma re_h3_heading : re_h3 = re_heading (lit "###").
Proof. reflexivity. Qed.

Lemma re_h2_heading : re_h2 = re_heading (lit "##").
Proof. reflexivity. Qed.

Lemma rmatch_RLit {R} input (s : jsstring) (k : nat → option jsstring → option R) :
  ∀ pos cap,
  rmatch input (RLit chr_eq s) pos cap k
  = if bool_decide (take (length s) (drop pos input) = s)
    then k (pos + length s) cap else None.
Proof.
  induction s as [|a s IH]; intros pos cap.
  - cbn [length take]. rewrite bool_decide_eq_true_2 by done.
    by rewrite Nat.add_0_r.
  - change (RLit chr_eq (a :: s)) with (RSeq (RChar (chr_eq a)) (RLit chr_eq s)).
    cbn [rmatch]. destruct (input !! pos) as [c|] eqn:Hc.
    + rewrite (drop_lookup_cons _ _ _ Hc). cbn [length take].
      destruct (chr_eq a c) eqn:Hac.
      * apply chr_eq_true in Hac as ->. rewrite IH.
        rewrite Nat.add_succ_r. simpl.
        destruct (bool_decide (take (length s) (drop (S pos) input) = s)) eqn:Hs.
        -- apply bool_decide_eq_true in Hs. rewrite Hs.
           by rewrite bool_decide_eq_true_2.
        -- apply bool_decide_eq_false in Hs.
           rewrite bool_decide_eq_false_2; [done|]. by intros [= ?].
      * rewrite bool_decide_eq_false_2; [done|]. intros [= ->].
        by rewrite (proj2 (chr_eq_true a a) eq_refl) in Hac.
    + apply lookup_ge_None in Hc. rewrite drop_ge by done.
      rewrite take_nil. by rewrite bool_decide_eq_false_2.
Qed.

Lemma exec_from_bol r input : ∀ n start,
  0 < start → exec_from (RSeq RBol r) input n start = None.
Proof.
  induction n as [|n IH]; intros start Hstart; cbn [exec_from rmatch];
    (assert ((start =? 0) = false) as -> by (apply Nat.eqb_neq; lia)).
  - done.
  - apply IH. lia.
Qed.

Lemma exec_bol r input :
  RegExp_exec (RSeq RBol r) input
  = rmatch input r 0 None (λ e cap, Some (mkMatch 0 e cap)).
Proof.
  unfold RegExp_exec.
  destruct (length input) as [|n]; cbn [exec_from rmatch]; simpl (0 =? 0);
    destruct (rmatch input r 0 None _); try done.
  apply exec_from_bol. lia.
Qed.

Section HeadingPattern.
Variable input : jsstring.

Let at_end (e : nat) (cap : option jsstring) : option MatchResult :=
  if e =? length input then Some (mkMatch 0 e cap) else None.

(** [\s*$] *)
Lemma greedy_space_eol : ∀ rest pos cap,
  drop pos input = rest → pos ≤ length input →
  greedy_class cls_space at_end rest pos cap
  = if forallb cls_space rest
    then Some (mkMatch 0 (length input) cap) else None.
Proof.
  induction rest as [|c rest IH]; intros pos cap Hdrop Hpos.
  - simpl. unfold at_end.
    assert (length input ≤ pos).
    { pose proof (length_drop input pos) as Hl. rewrite Hdrop in Hl.
      simpl in Hl. lia. }
    assert (pos = length input) as -> by lia. by rewrite Nat.eqb_refl.
  - destruct (drop_cons_inv _ _ _ _ Hdrop) as [Hrest Hc].
    apply lookup_lt_Some in Hc.
    assert (at_end pos cap = None) as Hhere.
    { unfold at_end. by rewrite (proj2 (Nat.eqb_neq _ _)) by lia. }
    cbn [greedy_class forallb]. rewrite Hhere.
    destruct (cls_space c); [|done]. rewrite (IH (S pos) cap Hrest) by lia.
    simpl. by destruct (forallb cls_space rest).
Qed.

(** [.*?\s*$], the group having started at [p0]. *)
Lemma lazy_text_eol (p0 : nat) : ∀ rest pos cap,
  drop pos input = rest → pos ≤ length input →
  lazy_class cls_dot
    (λ pos' _, greedy_class cls_space at_end (drop pos' input) pos'
                 (Some (substring p0 pos' input)))
    rest pos cap
  = (λ g, mkMatch 0 (length input)
            (Some (substring p0 (pos + length g) input))) <$> lazy_text rest.
Proof.
  induction rest as [|c rest IH]; intros pos cap Hdrop Hpos.
  - cbn [lazy_class lazy_text forallb].
    rewrite (greedy_space_eol _ _ _ eq_refl Hpos), Hdrop. simpl.
    by rewrite Nat.add_0_r.
  - destruct (drop_cons_inv _ _ _ _ Hdrop) as [Hrest Hc].
    apply lookup_lt_Some in Hc.
    cbn [lazy_class lazy_text].
    rewrite (greedy_space_eol _ _ _ eq_refl Hpos), Hdrop.
    destruct (forallb cls_space (c :: rest)); simpl.
    { by rewrite Nat.add_0_r. }
    destruct (cls_dot c); [|done]. rewrite (IH (S pos) cap Hrest) by lia.
    destruct (lazy_text rest) as [g|]; simpl; [|done].
    by rewrite Nat.add_succ_r.
Qed.

Lemma lazy_text_Some rest g :
  lazy_text rest = Some g →
  ∃ tail, rest = g ++ tail ∧ forallb cls_space tail = true ∧
          forallb cls_dot g = true.
Proof.
  revert g. induction rest as [|c rest IH]; intros g; cbn [lazy_text].
  - simpl. intros [= <-]. by exists [].
  - destruct (forallb cls_space (c :: rest)) eqn:Hws.
    + intros [= <-]. by exists (c :: rest).
    + destruct (cls_dot c) eqn:Hc; [|done].
      destruct (lazy_text rest) as [g'|]; [|done]. intros [= <-].
      destruct (IH g' eq_refl) as (tail & -> & ? & ?). exists tail.
      simpl. rewrite Hc. done.
Qed.

Let rest_of_line : regex :=
  RSeq (RGroup (RPlus false (RChar cls_dot)))
    (RSeq (RStar true (RChar cls_space)) REol).

(** [(.+?)\s*$] at [p] *)
Lemma heading_group_at p cap :
  rmatch input rest_of_line p cap (λ e cap, Some (mkMatch 0 e cap))
  = (λ g, mkMatch 0 (length input) (Some g)) <$> heading_group (drop p input).
Proof.
  unfold rest_of_line. cbn [rmatch]. rewrite rmatch_plus_class.
  destruct (drop p input) as [|c rest] eqn:Hdrop; [done|].
  destruct (drop_cons_inv _ _ _ _ Hdrop) as [Hrest Hc].
  apply lookup_lt_Some in Hc.
  cbn [heading_group]. destruct (cls_dot c); [|done].
  rewrite (lazy_class_ext _ _
             (λ pos' _, greedy_class cls_space at_end (drop pos' input) pos'
                          (Some (substring p pos' input)))).
  2:{ intros pos' _. by apply star_iter_greedy_class. }
  rewrite (lazy_text_eol p _ _ _ Hrest) by lia.
  destruct (lazy_text rest) as [g|] eqn:Hg; [|done]. simpl. do 3 f_equal.
  apply lazy_text_Some in Hg as (tail & Htail & _).
  unfold substring. rewrite Hdrop, Htail.
  replace (S (p + length g) - p) with (S (length g)) by lia.
  cbn [take]. by rewrite take_app_length.
Qed.

(** [\s*(.+?)\s*$]: the white space gives back what the group needs. *)
Lemma greedy_space_at : ∀ rest pos cap,
  drop pos input = rest →
  greedy_class cls_space
    (λ p c, rmatch input rest_of_line p c (λ e cap, Some (mkMatch 0 e cap)))
    rest pos cap
  = (λ g, mkMatch 0 (length input) (Some g)) <$> greedy_space rest.
Proof.
  induction rest as [|c rest IH]; intros pos cap Hdrop;
    cbn [greedy_class greedy_space]; rewrite ?heading_group_at, ?Hdrop.
  - done.
  - destruct (drop_cons_inv _ _ _ _ Hdrop) as [Hrest _].
    destruct (cls_space c); [|done]. rewrite (IH _ _ Hrest).
    by destruct (greedy_space rest).
Qed.
End HeadingPattern.

(** The heading patterns, as a function on the characters of the line. *)
Lemma re_heading_exec marker line :
  RegExp_exec (re_heading marker) line
  = (λ g, mkMatch 0 (length line) (Some g)) <$> heading_capture marker line.
Proof.
  unfold re_heading, heading_capture. rewrite exec_bol.
  cbn [rmatch]. rewrite rmatch_RLit, drop_0.
  destruct (bool_decide (take (length marker) line = marker)); [|done].
  rewrite rmatch_plus_class. simpl (0 + _).
  destruct (drop (length marker) line) as [|c rest] eqn:Hdrop; [done|].
  destruct (drop_cons_inv _ _ _ _ Hdrop) as [Hrest _].
  destruct (cls_space c); [|done].
  apply (greedy_space_at line rest (S (length marker)) None Hrest).
Qed.

(** ** White space and [trim] *)

Lemma forallb_Forall {A} (p : A → bool) (l : list A) :
  forallb p l = true ↔ Forall (λ x, p x = true) l.
Proof.
  induction l as [|x l IH]; simpl.
  - split; [constructor|done].
  - rewrite andb_true_iff, IH, Forall_cons. done.
Qed.

Lemma drop_space_all s : all_space s → drop_space s = [].
Proof. induction 1 as [|c s Hc _ IH]; simpl; [done|]. by rewrite Hc. Qed.

Lemma drop_space_app_l w s : all_space w → drop_space (w ++ s) = drop_space s.
Proof. induction 1 as [|c w Hc _ IH]; simpl; [done|]. by rewrite Hc. Qed.

Lemma drop_space_app_r s t :
  ¬ all_space s → drop_space (s ++ t) = drop_space s ++ t.
Proof.
  induction s as [|c s IH]; intros Hs; simpl.
  - destruct Hs. constructor.
  - destruct (cls_space c) eqn:Hc; [|done]. apply IH. intros Hall.
    apply Hs. by constructor.
Qed.

Lemma drop_space_nil s : drop_space s = [] → all_space s.
Proof.
  induction s as [|c s IH]; simpl; [constructor|].
  destruct (cls_space c) eqn:Hc; [|done]. intros H. constructor; [done|].
  by apply IH.
Qed.

Lemma all_space_dec s : all_space s ∨ ¬ all_space s.
Proof.
  destruct (forallb cls_space s) eqn:H.
  - left. by apply forallb_Forall.
  - right. intros Hall%forallb_Forall. congruence.
Qed.

Lemma String_trim_app_l w s : all_space w → String_trim (w ++ s) = String_trim s.
Proof. intros Hw. unfold String_trim. by rewrite drop_space_app_l. Qed.

Lemma String_trim_app_r s t : all_space t → String_trim (s ++ t) = String_trim s.
Proof.
  intros Ht. unfold String_trim. destruct (all_space_dec s) as [Hs|Hs].
  - by rewrite (drop_space_app_l s t Hs), (drop_space_all t Ht), (drop_space_all s Hs).
  - rewrite (drop_space_app_r s t Hs), reverse_app.
    rewrite drop_space_app_l; [done|]. by apply Forall_reverse.
Qed.

Lemma drop_space_head s :
  match drop_space s with [] => True | c :: _ => cls_space c = false end.
Proof.
  induction s as [|c s IH]; simpl; [done|]. by destruct (cls_space c) eqn:Hc.
Qed.

Lemma String_trim_nil s : String_trim s = [] ↔ all_space s.
Proof.
  unfold String_trim. split.
  - intros H.
    assert (drop_space (reverse (drop_space s)) = []) as H1.
    { destruct (drop_space (reverse (drop_space s))) as [|c l]; [done|].
      rewrite reverse_cons in H. by destruct (reverse l). }
    apply drop_space_nil, Forall_reverse in H1.
    rewrite reverse_involutive in H1.
    apply drop_space_nil. pose proof (drop_space_head s) as Hhead.
    destruct (drop_space s) as [|c r]; [done|].
    apply Forall_cons in H1 as [Hc _]. congruence.
  - intros Hs. by rewrite (drop_space_all s Hs).
Qed.

(** ** Heading lines, declaratively *)

Lemma heading_group_Some s g :
  heading_group s = Some g →
  ∃ tail, s = g ++ tail ∧ g ≠ [] ∧ all_dot g ∧ all_space tail.
Proof.
  destruct s as [|c rest]; [done|]. cbn [heading_group].
  destruct (cls_dot c) eqn:Hc; [|done].
  destruct (lazy_text rest) as [g'|] eqn:Hg; [|done]. intros [= <-].
  apply lazy_text_Some in Hg as (tail & -> & Htail%forallb_Forall & Hdot%forallb_Forall).
  exists tail. repeat split; [done|by constructor|done].
Qed.

Lemma greedy_space_Some rest g :
  greedy_space rest = Some g →
  ∃ w tail, rest = w ++ g ++ tail ∧ all_space w ∧ g ≠ [] ∧ all_dot g ∧
            all_space tail.
Proof.
  revert g. induction rest as [|c rest IH]; intros g; cbn [greedy_space]; [done|].
  assert (Hhere : heading_group (c :: rest) = Some g →
            ∃ w tail, c :: rest = w ++ g ++ tail ∧ all_space w ∧ g ≠ [] ∧
                      all_dot g ∧ all_space tail).
  { intros (tail & ? & ? & ? & ?)%heading_group_Some. exists [], tail.
    repeat split; [done|constructor|done..]. }
  destruct (cls_space c) eqn:Hc; [|done].
  destruct (greedy_space rest) as [g'|]; [|done]. intros [= <-].
  destruct (IH g' eq_refl) as (w & tail & -> & ? & ? & ? & ?).
  exists (c :: w), tail. split; [done|]. split; [by constructor|done].
Qed.

Lemma heading_capture_Some marker line g :
  heading_capture marker line = Some g →
  ∃ w tail, heading_shape marker line w g tail.
Proof.
  unfold heading_capture. case_bool_decide as Hmarker; [|done].
  destruct (drop (length marker) line) as [|c rest] eqn:Hdrop; [done|].
  destruct (cls_space c) eqn:Hc; [|done].
  intros (w & tail & -> & ? & ? & ? & ?)%greedy_space_Some.
  exists (c :: w), tail. split; [|split; [done|split; [by constructor|done]]].
  by rewrite <- (take_drop (length marker) line), Hmarker, Hdrop.
Qed.

Lemma lazy_text_is_Some g tail :
  all_dot g → all_space tail → is_Some (lazy_text (g ++ tail)).
Proof.
  intros Hg Htail. induction Hg as [|c g Hc _ IH]; simpl app.
  - destruct tail; simpl.
    + by eexists.
    + apply forallb_Forall in Htail. simpl in Htail. rewrite Htail. by eexists.
  - cbn [lazy_text]. destruct (forallb cls_space (c :: g ++ tail)); [by eexists|].
    rewrite Hc. destruct IH as [g' ->]. by eexists.
Qed.

Lemma heading_group_is_Some g tail :
  g ≠ [] → all_dot g → all_space tail → is_Some (heading_group (g ++ tail)).
Proof.
  intros Hne Hg Htail. destruct Hg as [|c g Hc Hg]; [done|].
  simpl. rewrite Hc. destruct (lazy_text_is_Some g tail Hg Htail) as [g' ->].
  by eexists.
Qed.

Lemma greedy_space_is_Some w g tail :
  all_space w → g ≠ [] → all_dot g → all_space tail →
  is_Some (greedy_space (w ++ g ++ tail)).
Proof.
  intros Hw Hne Hg Htail.
  pose proof (heading_group_is_Some g tail Hne Hg Htail) as Hgrp.
  assert (Hbase : ∀ s, is_Some (heading_group s) → is_Some (greedy_space s)).
  { intros [|c s] Hs; [by destruct Hs|]. cbn [greedy_space].
    destruct (cls_space c); [|done]. by destruct (greedy_space s). }
  induction Hw as [|c w Hc _ IH]; simpl app; [by apply Hbase|].
  cbn [greedy_space]. rewrite Hc. destruct IH as [g' ->]. by eexists.
Qed.

Lemma heading_capture_is_Some marker line w g tail :
  heading_shape marker line w g tail → is_Some (heading_capture marker line).
Proof.
  intros (-> & Hne & Hw & ? & ? & ?). unfold heading_capture.
  rewrite take_app_length, bool_decide_eq_true_2, drop_app_length by done.
  destruct Hw as [|c w Hc Hw]; [done|].
  rewrite <- app_comm_cons, Hc. by apply greedy_space_is_Some.
Qed.

(** The trimmed capture is the trimmed text that follows the marker. *)
Lemma heading_shape_trim marker line w g tail :
  heading_shape marker line w g tail →
  String_trim g = String_trim (drop (length marker) line).
Proof.
  intros (-> & _ & Hw & _ & _ & Htail).
  rewrite drop_app_length, String_trim_app_l, String_trim_app_r; done.
Qed.

Lemma heading_text_Some marker line t :
  String_trim <$> heading_capture marker line = Some t ↔
  (∃ w g tail, heading_shape marker line w g tail) ∧
  t = String_trim (drop (length marker) line).
Proof.
  split.
  - destruct (heading_capture marker line) as [g|] eqn:Hg; [|done].
    intros [= <-]. apply heading_capture_Some in Hg as (w & tail & Hshape).
    split; [by exists w, g, tail|]. by eapply heading_shape_trim.
  - intros [(w & g & tail & Hshape) ->].
    destruct (heading_capture_is_Some _ _ _ _ _ Hshape) as [g' Hg'].
    rewrite Hg'. simpl. f_equal.
    apply heading_capture_Some in Hg' as (w' & tail' & Hshape').
    by eapply heading_shape_trim.
Qed.

Lemma heading_text_None marker line :
  heading_capture marker line = None ↔
  ¬ ∃ w g tail, heading_shape marker line w g tail.
Proof.
  split.
  - intros Hnone (w & g & tail & Hshape).
    destruct (heading_capture_is_Some _ _ _ _ _ Hshape) as [g' Hg']. congruence.
  - intros Hno. destruct (heading_capture marker line) as [g|] eqn:Hg; [|done].
    apply heading_capture_Some in Hg as (w & tail & Hshape).
    destruct Hno. by exists w, g, tail.
Qed.

Lemma h2_text_capture line :
  h2_text line = String_trim <$> heading_capture (lit "##") line.
Proof.
  unfold h2_text, String_match. rewrite re_h2_heading, re_heading_exec.
  by destruct (heading_capture (lit "##") line).
Qed.

Lemma h3_title_capture line :
  h3_title line = String_trim <$> heading_capture (lit "###") line.
Proof.
  unfold h3_title, String_match. rewrite re_h3_heading, re_heading_exec.
  by destruct (heading_capture (lit "###") line).
Qed.

Lemma h2_text_Some line c :
  h2_text line = Some c ↔
  is_heading (lit "##") line ∧ c = String_trim (drop 2 line).
Proof. rewrite h2_text_capture. apply heading_text_Some. Qed.

Lemma h2_text_no_heading line :
  h2_text line = None ↔ ¬ is_heading (lit "##") line.
Proof.
  rewrite h2_text_capture. unfold is_heading. rewrite <- heading_text_None.
  by destruct (heading_capture (lit "##") line).
Qed.

(** ** Lines below a heading, declaratively *)

Lemma skip_blank_from_first lines j : ∀ n j0,
  j = j0 + n → j ≤ length lines →
  (∀ k l, j0 ≤ k < j → lines !! k = Some l → RegExp_test re_blank l = true) →
  (∀ l, lines !! j = Some l → RegExp_test re_blank l = false) →
  skip_blank_from (drop j0 lines) j0 = j.
Proof.
  induction n as [|n IH]; intros j0 Hj Hlen Hblank Hstop.
  - rewrite Nat.add_0_r in Hj. subst j0.
    destruct (lines !! j) as [l|] eqn:Hl.
    + rewrite (drop_lookup_cons _ _ _ Hl). simpl. by rewrite (Hstop l).
    + apply lookup_ge_None in Hl. by rewrite drop_ge.
  - destruct (lookup_lt_is_Some_2 lines j0) as [l Hl]; [lia|].
    rewrite (drop_lookup_cons _ _ _ Hl). simpl.
    rewrite (Hblank j0 l) by (done || lia).
    apply IH; [lia|done| |done]. intros k l' Hk. apply Hblank. lia.
Qed.

Lemma header_below_first lines i j :
  first_nonblank_after lines i j →
  header_below lines i
  = match lines !! j with
    | Some l => if RegExp_test re_header l then Some j else None
    | None => None
    end.
Proof.
  intros (Hlt & Hlen & Hblank & Hstop). unfold header_below.
  rewrite (skip_blank_from_first lines j (j - S i) (S i)); [done|lia|done| |done].
  intros k l Hk. apply Hblank. lia.
Qed.

Lemma table_lines_at lines j0 tbl :
  table_at lines j0 tbl → table_lines (drop j0 lines) = tbl.
Proof.
  intros (rest & -> & Htbl & Hrest).
  induction Htbl as [|l tbl Hl _ IH]; simpl.
  - destruct rest as [|l rest]; [done|]. simpl. by rewrite (Hrest l).
  - by rewrite Hl, IH.
Qed.

Lemma sorted_below_length (l : list nat) : ∀ m n,
  StronglySorted lt l → Forall (λ i, m ≤ i < n) l → length l ≤ n - m.
Proof.
  induction l as [|x l IH]; intros m n Hsorted Hrange; simpl; [lia|].
  apply StronglySorted_cons in Hsorted as [Hx Hsorted].
  apply Forall_cons in Hrange as [Hxr Hrange].
  specialize (IH (S x) n Hsorted). etrans; [apply le_n_S, IH|lia].
  apply Forall_forall. intros i Hi.
  pose proof (proj1 (Forall_forall _ _) Hx i Hi).
  pose proof (proj1 (Forall_forall _ _) Hrange i Hi). simpl in *. lia.
Qed.

Lemma entries_from_length lines idxs es :
  entries_from lines idxs es → length es ≤ length lines.
Proof.
  intros [Hes Hsorted]. rewrite <- (Forall2_length _ _ _ Hes).
  rewrite <- (Nat.sub_0_r (length lines)).
  apply sorted_below_length; [done|].
  apply Forall_forall. intros i Hi.
  apply list_elem_of_lookup in Hi as [n Hn].
  destruct (Forall2_lookup_l _ _ _ _ _ Hes Hn) as (e & _ & line & j & Hline & _).
  apply lookup_lt_Some in Hline. lia.
Qed.

(** ** Worked examples *)

Example split_crlf :
  String_split_re (lit "a" ++ [c_cr; c_lf] ++ lit "b" ++ [c_lf; c_lf] ++ lit "c")
    re_newline
  = Ok [lit "a"; lit "b"; []; lit "c"].
Proof. vm_compute. reflexivity. Qed.

Example split_empty : String_split_re [] re_newline = Ok [[]].
Proof. vm_compute. reflexivity. Qed.

Example heading_spaces : h3_title (lit "###   Foo bar  ") = Some (lit "Foo bar").
Proof. vm_compute. reflexivity. Qed.

Example heading_needs_space : h3_title (lit "###Foo") = None.
Proof. vm_compute. reflexivity. Qed.

Example heading_four_hashes : h3_title (lit "#### Foo") = None.
Proof. vm_compute. reflexivity. Qed.

Example heading_one_space : h3_title (lit "### ") = None.
Proof. vm_compute. reflexivity. Qed.

Example header_any_case : RegExp_test re_header (lit "|network|ADDRESS|") = true.
Proof. vm_compute. reflexivity. Qed.

Example header_other_order :
  RegExp_test re_header (lit "| Address | Network |") = false.
Proof. vm_compute. reflexivity. Qed.

Example row_five_cells :
  splitMarkdownRow (lit "| a | b | [l](u) | d | e |  ")
  = [lit "a"; lit "b"; lit "u"; lit "d"; lit "e"].
Proof. vm_compute. reflexivity. Qed.

Example row_four_cells :
  splitMarkdownRow (lit "| a | b | c | d |") = [lit "a"; lit "b"; lit "c"; lit "d"].
Proof. vm_compute. reflexivity. Qed.

Example no_heading_document :
  parseMarkdown (lit "just text") = Ok (mkResult [] ∅ ∅).
Proof. vm_compute. reflexivity. Qed.

Example paragraph_document :
  parseMarkdown (join_lines lines_paragraph)
  = Ok (mkResult
          [ mkEntry Uncategorized (lit "Second")
              [ mkRow (lit "mainnet") (lit "0x1") (lit "none") (lit "()")
                  (lit "0x0") ] ]
          {[ lit "mainnet" ]} {[ Uncategorized ]}).
Proof. vm_compute. reflexivity. Qed.

Example short_row_document :
  parseMarkdown (join_lines lines_short_row)
  = Ok (mkResult [ mkEntry Uncategorized (lit "Short") [] ] ∅ {[ Uncategorized ]}).
Proof. vm_compute. reflexivity. Qed.

(** * The claims *)

(** C1: the category facet set is filled at every third-level heading the
    scan reaches, before the table is looked for, so it is not always the
    set of categories of the emitted entries: the document made of the one
    line [### Orphan] has no entry, and its category facet set holds the
    sentinel. The network facet set is empty there. *)
Theorem category_facet_without_entry :
  parseMarkdown (lit "### Orphan")
  = Ok (mkResult [] ∅ {[ Uncategorized ]}).
Proof. vm_compute. reflexivity. Qed.

(** What does hold of the facet sets of every document: the network facet
    set is exactly the set of non-empty network values of the rows of the
    entries; every entry's category is in the category facet set; and every
    value of the category facet set is the category seen from some
    third-level heading line. *)
Theorem facet_sets_of_result md :
  ∃ lines r,
    String_split_re md re_newline = Ok lines ∧ parseMarkdown md = Ok r ∧
    (∀ n, n ∈ networks r ↔
          n ≠ [] ∧ ∃ e row, e ∈ entries r ∧ row ∈ rows e ∧ network row = n) ∧
    (∀ e, e ∈ entries r → category e ∈ categories r) ∧
    (∀ c, c ∈ categories r →
       ∃ i line, lines !! i = Some line ∧ is_Some (h3_title line) ∧
                 nearest_category lines i c).
Proof.
  destruct (parseMarkdown_spec md)
    as (lines & r & Hlines & Hr & _ & _ & Hnets & Hce & Hch).
  exists lines, r. split; [done|]. split; [done|]. split; [|done].
  intros n. rewrite Hnets, elem_of_networks_of. split.
  - intros (Hne & row & Hrow & Hn).
    split; [done|]. apply list_elem_of_bind in Hrow as (e & Hrow & He). eauto.
  - intros (Hne & e & row & He & Hrow & Hn).
    split; [done|]. exists row. split; [|done].
    apply list_elem_of_bind. eauto.
Qed.

(** C2: the document of the six lines [## Tokens], [### MyToken], the
    table header, the separator and the two rows parses to one entry with
    category Tokens, title MyToken and the two rows in their order; the
    network facet set is {mainnet, testnet} and the category facet set is
    {Tokens}. *)
Theorem parse_tokens_document :
  parseMarkdown
    (join_lines
       [ lit "## Tokens";
         lit "### MyToken";
         lit "| Network | Address | Explorer | Constructor Args | Salt |";
         lit "|---|---|---|---|---|";
         lit "| mainnet | 0x1 | [x](http://e/1) | () | 0x0 |";
         lit "| testnet | 0x2 | none | (1,2) | 0x1 |" ])
  = Ok (mkResult
          [ mkEntry (lit "Tokens") (lit "MyToken")
              [ mkRow (lit "mainnet") (lit "0x1") (lit "http://e/1")
                  (lit "()") (lit "0x0");
                mkRow (lit "testnet") (lit "0x2") (lit "none")
                  (lit "(1,2)") (lit "0x1") ] ]
          {[ lit "mainnet"; lit "testnet" ]}
          {[ lit "Tokens" ]}).
Proof. vm_compute. reflexivity. Qed.

(** C3: when the cursor is on a third-level heading and the first line
    below it that is not blank (if there is one) is not a table header, the
    turn of the loop emits no entry and leaves the cursor on the line right
    after the heading, from where the rest of the scan goes on. *)
Theorem heading_without_table_skipped fuel lines st line j :
  length lines < fuel →
  lines !! ls_i st = Some line →
  is_Some (h3_title line) →
  first_nonblank_after lines (ls_i st) j →
  (∀ l, lines !! j = Some l → RegExp_test re_header l = false) →
  ∃ st',
    parse_body fuel lines st = Ok (Continue st') ∧
    ls_entries st' = ls_entries st ∧
    ls_networks st' = ls_networks st ∧
    ls_i st' = S (ls_i st) ∧
    ∀ n, while_loop (S n) (parse_body fuel lines) st
         = while_loop n (parse_body fuel lines) st'.
Proof.
  intros Hfuel Hline [t Ht] Hfirst Hno.
  destruct (findNearestCategory_spec lines (ls_i st)) as (c & Hc & _).
  { apply lookup_lt_Some in Hline. lia. }
  assert (header_below lines (ls_i st) = None) as Hbelow.
  { rewrite (header_below_first _ _ _ Hfirst).
    destruct (lines !! j) as [l|]; [|done]. by rewrite (Hno l). }
  pose proof (parse_body_heading _ _ _ _ _ _ Hfuel Hline Ht Hc) as Hbody.
  rewrite Hbelow in Hbody. eexists. split; [exact Hbody|]. simpl.
  repeat split; [lia|]. intros n. by apply while_loop_continue.
Qed.

Lemma heading_without_table_skipped_witness :
  ∃ st',
    parse_body 7 lines_paragraph (mkLoop 0 [] ∅ ∅) = Ok (Continue st') ∧
    ls_entries st' = [] ∧ ls_networks st' = ∅ ∧ ls_i st' = 1 ∧
    ∀ n, while_loop (S n) (parse_body 7 lines_paragraph) (mkLoop 0 [] ∅ ∅)
         = while_loop n (parse_body 7 lines_paragraph) st'.
Proof.
  apply (heading_without_table_skipped 7 lines_paragraph (mkLoop 0 [] ∅ ∅)
           (lit "### First") 1).
  - simpl. lia.
  - reflexivity.
  - vm_compute. eexists. reflexivity.
  - repeat split.
    + simpl. lia.
    + simpl. lia.
    + intros k l Hk. simpl in Hk. lia.
    + intros l Hl. injection Hl as <-. vm_compute. reflexivity.
  - intros l Hl. injection Hl as <-. vm_compute. reflexivity.
Defined.

(** C4: when the table below a heading holds a row line with fewer than
    five cells, the entry is emitted all the same, its rows are those of
    the table lines before and after that line (none when it is the only
    one), and the cursor ends after the whole table. *)
Theorem short_row_dropped fuel lines st line t j hdr pre short post :
  length lines < fuel →
  lines !! ls_i st = Some line →
  h3_title line = Some t →
  first_nonblank_after lines (ls_i st) j →
  lines !! j = Some hdr →
  RegExp_test re_header hdr = true →
  table_at lines (j + 2) (pre ++ short :: post) →
  length (splitMarkdownRow short) < 5 →
  ∃ c st',
    findNearestCategory lines (ls_i st) = Ok c ∧
    parse_body fuel lines st = Ok (Continue st') ∧
    ls_entries st'
    = ls_entries st ++ [mkEntry c t (rows_of pre ++ rows_of post)] ∧
    ls_i st' = j + 2 + length pre + 1 + length post.
Proof.
  intros Hfuel Hline Ht Hfirst Hhdr Hre Htbl Hshort.
  destruct (findNearestCategory_spec lines (ls_i st)) as (c & Hc & _).
  { apply lookup_lt_Some in Hline. lia. }
  assert (header_below lines (ls_i st) = Some j) as Hbelow.
  { by rewrite (header_below_first _ _ _ Hfirst), Hhdr, Hre. }
  pose proof (parse_body_heading _ _ _ _ _ _ Hfuel Hline Ht Hc) as Hbody.
  rewrite Hbelow in Hbody. cbv zeta in Hbody.
  rewrite (table_lines_at _ _ _ Htbl) in Hbody.
  exists c. eexists. split; [exact Hc|]. split; [exact Hbody|]. simpl.
  assert (row_of_line short = None) as Hnone.
  { unfold row_of_line, row_of_cells.
    destruct (splitMarkdownRow short) as [|? [|? [|? [|? [|? ?]]]]];
      simpl in Hshort; (done || lia). }
  rewrite rows_of_app, rows_of_cons, Hnone, length_app. simpl. split; [done|lia].
Qed.

Lemma short_row_dropped_witness :
  ∃ c st',
    findNearestCategory lines_short_row 0 = Ok c ∧
    parse_body 5 lines_short_row (mkLoop 0 [] ∅ ∅) = Ok (Continue st') ∧
    ls_entries st' = [] ++ [mkEntry c (lit "Short") (rows_of [] ++ rows_of [])] ∧
    ls_i st' = 1 + 2 + 0 + 1 + 0.
Proof.
  apply (short_row_dropped 5 lines_short_row (mkLoop 0 [] ∅ ∅)
           (lit "### Short") (lit "Short") 1 table_header
           [] (lit "| mainnet | 0x1 | none | () |") []).
  - simpl. lia.
  - reflexivity.
  - vm_compute. reflexivity.
  - repeat split.
    + simpl. lia.
    + simpl. lia.
    + intros k l Hk. simpl in Hk. lia.
    + intros l Hl. injection Hl as <-. vm_compute. reflexivity.
  - reflexivity.
  - vm_compute. reflexivity.
  - exists []. split; [reflexivity|]. split.
    + constructor; [vm_compute; reflexivity|constructor].
    + intros l Hl. discriminate Hl.
  - vm_compute. lia.
Defined.

Lemma nearest_category_above lines i c :
  nearest_category lines i c → category_above lines i c.
Proof.
  intros [(k & line & Hk & Hline & Ht & Hbetween)|[-> Hnone]].
  - left. exists k, line. apply h2_text_Some in Ht as [Hh ->].
    repeat split; [done..|]. intros k' line' Hk' Hline'.
    apply h2_text_no_heading. by eapply Hbetween.
  - right. split; [done|]. intros k' line' Hk' Hline'.
    apply h2_text_no_heading. by eapply Hnone.
Qed.

(** C5: a line made of [##] and two spaces matches the second-level
    heading pattern (as for the third-level pattern under C7, the white
    space run gives one space back to the group), so it is taken for the
    nearest category heading: the entry below it gets the empty text as
    its category, not the text of the heading line [## Cat] above. *)
Theorem blank_category_line_taken :
  String_match (lit "##  ") re_h2 = Some (mkMatch 0 4 (Some (lit " "))) ∧
  findNearestCategory
    [ lit "## Cat"; lit "##  "; lit "### T"; lit "| Network | Address |" ] 2
  = Ok [] ∧
  parseMarkdown
    (join_lines
       [ lit "## Cat"; lit "##  "; lit "### T"; lit "| Network | Address |" ])
  = Ok (mkResult [ mkEntry [] (lit "T") [] ] ∅ {[ [] ]}).
Proof. repeat split; vm_compute; reflexivity. Qed.

(** What does hold of the category of every entry: the entries come, in
    order, each from its own heading line (the line with its title, above
    the header of its table and its rows), and the category is what
    [findNearestCategory] returns there: the trimmed text after [##] of
    the nearest line above that matches the second-level pattern, a line
    of [##] and white space only included (its text is empty), and the
    sentinel [Uncategorized] when no line above matches. *)
Theorem entry_category_resolved md :
  ∃ lines r idxs,
    String_split_re md re_newline = Ok lines ∧
    parseMarkdown md = Ok r ∧
    StronglySorted lt idxs ∧
    Forall2 (λ i e, ∃ hline j,
               lines !! i = Some hline ∧
               h3_title hline = Some (title e) ∧
               header_below lines i = Some j ∧
               rows e = rows_of (table_lines (drop (j + 2) lines)) ∧
               findNearestCategory lines i = Ok (category e) ∧
               category_above lines i (category e))
      idxs (entries r).
Proof.
  destruct (parseMarkdown_spec md)
    as (lines & r & Hlines & Hr & _ & (idxs & Hes & Hsorted) & _).
  exists lines, r, idxs. repeat split; [done..|].
  eapply Forall2_impl; [exact Hes|].
  intros i e (hline & j & Hline & Ht & Hnear & Hj & Hrows). exists hline, j.
  repeat split; [done..| |by apply nearest_category_above].
  destruct (findNearestCategory_spec lines i) as (c & Hc & Hnear').
  { apply lookup_lt_Some in Hline. lia. }
  by rewrite Hc, (nearest_category_unique _ _ _ _ Hnear' Hnear).
Qed.

(** C6: the cells of a row are the trimmed pieces between the pipes; the
    cell at position 2 (the Explorer column) is replaced by the text inside
    its first parenthesis group when it has one, and kept as it is when it
    has none; the cells at the other positions are kept. A parenthesis
    group is an opening parenthesis, one or more characters other than the
    closing one, and a closing parenthesis, so a bare [()] is none. *)
Theorem explorer_cell_normalized row :
  let parts :=
    String_trim <$>
      String_split c_pipe
        (String_replace_empty (String_replace_empty row re_pipe_start)
           re_pipe_end) in
  length (splitMarkdownRow row) = length parts ∧
  (∀ idx cell, idx ≠ 2 → parts !! idx = Some cell →
     splitMarkdownRow row !! idx = Some cell) ∧
  (∀ cell, parts !! 2 = Some cell →
     (∀ pre url post,
        paren_group cell pre url post →
        (∀ pre' url' post', paren_group cell pre' url' post' →
                            length pre ≤ length pre') →
        splitMarkdownRow row !! 2 = Some url) ∧
     ((∀ pre url post, ¬ paren_group cell pre url post) →
      splitMarkdownRow row !! 2 = Some cell)) ∧
  clean_cell 2 (lit "[Etherscan](https://etherscan.io/address/0xABC)")
  = lit "https://etherscan.io/address/0xABC" ∧
  clean_cell 2 (lit "n/a") = lit "n/a" ∧
  clean_cell 2 (lit "()") = lit "()" ∧
  splitMarkdownRow
    (lit "| mainnet | 0xABC | [Etherscan](https://etherscan.io/address/0xABC) | () | 0x0 |")
  = [ lit "mainnet"; lit "0xABC"; lit "https://etherscan.io/address/0xABC";
      lit "()"; lit "0x0" ].
Proof.
  intros parts.
  assert (Hsplit : splitMarkdownRow row = imap clean_cell parts) by reflexivity.
  rewrite Hsplit. split; [apply length_imap|]. split; [|split].
  - intros idx cell Hidx Hcell. rewrite list_lookup_imap, Hcell. simpl.
    unfold clean_cell. by rewrite (proj2 (Nat.eqb_neq idx 2) Hidx).
  - intros cell Hcell. rewrite list_lookup_imap, Hcell. simpl.
    rewrite explorer_cell_first_group. split.
    + intros pre url post Hgrp Hmin.
      rewrite (proj2 (first_group_Some cell url)); [done|]. eauto.
    + intros Hnone. by rewrite (proj2 (first_group_None cell) Hnone).
  - repeat split; vm_compute; reflexivity.
Qed.

(** C7: a line made of [###] and two spaces matches the third-level
    heading pattern (the white space run gives one space back to the
    group), so a heading whose text is empty after trimming is recognized,
    and with a table below it an entry with the empty title is emitted. *)
Theorem blank_heading_empty_title :
  String_match (lit "###  ") re_h3 = Some (mkMatch 0 5 (Some (lit " "))) ∧
  h3_title (lit "###  ") = Some [] ∧
  parseMarkdown (join_lines [ lit "###  "; lit "| Network | Address |" ])
  = Ok (mkResult [ mkEntry Uncategorized [] [] ] ∅ {[ Uncategorized ]}).
Proof. repeat split; vm_compute; reflexivity. Qed.

(** Which lines are third-level headings, and what their titles are: a
    line is recognized exactly when it is [###], white space, a text
    without line terminators and white space up to its end; the title is
    the trimmed text after the marker, and every entry's title is the title
    of its heading line. The title is empty exactly when only white space
    follows the marker. *)
Theorem heading_line_title md :
  (∀ line t, h3_title line = Some t ↔
             is_heading (lit "###") line ∧ t = String_trim (drop 3 line)) ∧
  (∀ line, h3_title line = Some [] ↔
           is_heading (lit "###") line ∧ all_space (drop 3 line)) ∧
  ∃ lines r idxs,
    String_split_re md re_newline = Ok lines ∧
    parseMarkdown md = Ok r ∧
    StronglySorted lt idxs ∧
    Forall2 (λ i e, ∃ hline,
               lines !! i = Some hline ∧
               is_heading (lit "###") hline ∧
               title e = String_trim (drop 3 hline))
      idxs (entries r).
Proof.
  assert (Htitle : ∀ line t, h3_title line = Some t ↔
            is_heading (lit "###") line ∧ t = String_trim (drop 3 line)).
  { intros line t. rewrite h3_title_capture. apply heading_text_Some. }
  split; [exact Htitle|]. split.
  - intros line. rewrite Htitle. split.
    + intros [Hh Ht]. split; [done|]. by apply String_trim_nil.
    + intros [Hh Hs]. split; [done|]. symmetry. by apply String_trim_nil.
  - destruct (parseMarkdown_spec md)
      as (lines & r & Hlines & Hr & _ & (idxs & Hes & Hsorted) & _).
    exists lines, r, idxs. repeat split; [done..|].
    eapply Forall2_impl; [exact Hes|].
    intros i e (hline & j & Hline & Ht & _). exists hline.
    apply Htitle in Ht as [Hh Ht]. done.
Qed.

(** C9, the counterexample: a malformed table can give more rows than
    the well-formed one. With the separator line written twice, the second
    separator line is read as a row, whose value [---] also enters the
    network facet set. *)
Lemma doubled_separator_more_rows :
  parseMarkdown (join_lines lines_one_row)
  = Ok (mkResult
          [ mkEntry Uncategorized (lit "A")
              [ mkRow (lit "mainnet") (lit "0x1") (lit "none") (lit "()")
                  (lit "0x0") ] ]
          {[ lit "mainnet" ]} {[ Uncategorized ]}) ∧
  parseMarkdown (join_lines lines_doubled_separator)
  = Ok (mkResult
          [ mkEntry Uncategorized (lit "A")
              [ mkRow (lit "---") (lit "---") (lit "---") (lit "---")
                  (lit "---");
                mkRow (lit "mainnet") (lit "0x1") (lit "none") (lit "()")
                  (lit "0x0") ] ]
          ({[ lit "---" ]} ∪ {[ lit "mainnet" ]}) {[ Uncategorized ]}) ∧
  ¬ only_fewer (join_lines lines_one_row) (join_lines lines_doubled_separator).
Proof.
  assert (Hgood : parseMarkdown (join_lines lines_one_row)
            = Ok (mkResult
                    [ mkEntry Uncategorized (lit "A")
                        [ mkRow (lit "mainnet") (lit "0x1") (lit "none")
                            (lit "()") (lit "0x0") ] ]
                    {[ lit "mainnet" ]} {[ Uncategorized ]}))
    by (vm_compute; reflexivity).
  assert (Hbad : parseMarkdown (join_lines lines_doubled_separator)
            = Ok (mkResult
                    [ mkEntry Uncategorized (lit "A")
                        [ mkRow (lit "---") (lit "---") (lit "---") (lit "---")
                            (lit "---");
                          mkRow (lit "mainnet") (lit "0x1") (lit "none")
                            (lit "()") (lit "0x0") ] ]
                    ({[ lit "---" ]} ∪ {[ lit "mainnet" ]})
                    {[ Uncategorized ]}))
    by (vm_compute; reflexivity).
  split; [exact Hgood|]. split; [exact Hbad|].
  intros (r & r' & Hr & Hr' & _ & Hrows).
  rewrite Hgood in Hr. rewrite Hbad in Hr'.
  injection Hr as <-. injection Hr' as <-. simpl in Hrows. lia.
Qed.

Lemma sorted_indices_count {A} (P : A → Prop) `{!∀ x, Decision (P x)}
    (l : list A) (idxs : list nat) : ∀ m,
  StronglySorted lt idxs →
  Forall (λ i, m ≤ i ∧ ∃ x, l !! i = Some x ∧ P x) idxs →
  length idxs ≤ length (filter P (drop m l)).
Proof.
  induction idxs as [|i idxs IH]; intros m Hsorted Hall; simpl; [lia|].
  apply StronglySorted_cons in Hsorted as [Hi Hsorted].
  apply Forall_cons in Hall as [(Hm & x & Hx & HP) Hall].
  assert (Hrest : length idxs ≤ length (filter P (drop (S i) l))).
  { apply IH; [done|]. apply Forall_forall. intros k Hk.
    pose proof (proj1 (Forall_forall _ _) Hi k Hk) as Hik.
    pose proof (proj1 (Forall_forall _ _) Hall k Hk) as [_ Hkx].
    simpl in Hik. split; [lia|done]. }
  replace (drop m l) with (take (i - m) (drop m l) ++ drop i l).
  2:{ assert (drop i l = drop (i - m) (drop m l)) as ->
        by (rewrite drop_drop; f_equal; lia).
      apply take_drop. }
  rewrite (drop_S _ _ _ Hx), filter_app, filter_cons, decide_True by done.
  rewrite length_app. simpl. lia.
Qed.

Lemma rows_of_length tbl : length (rows_of tbl) ≤ length tbl.
Proof.
  induction tbl as [|l tbl IH]; [done|]. rewrite rows_of_cons, length_app.
  destruct (row_of_line l); simpl; lia.
Qed.

(** C9, as amended: parsing always returns: splitting into lines returns,
    the scan returns a result within a budget of one turn more than there
    are lines (and with any larger budget, the same result), no turn of
    the scan throws, and every turn that goes on moves the cursor forward.
    A heading without a table gives no entry: the entries come, in order,
    from different heading lines that have a table header below them, so
    there are at most as many entries as heading lines. A table is read as
    it stands: the rows of an entry are the rows of those lines of the run
    of pipe-prefixed lines below the header and the line after it that
    have five cells or more, in order, whatever these lines hold. *)
Theorem parseMarkdown_total md :
  ∃ lines r,
    String_split_re md re_newline = Ok lines ∧
    parseMarkdown md = Ok r ∧
    (∀ fuel, length lines < fuel → parseMarkdown_fuel fuel md = Ok r) ∧
    (∀ fuel st, length lines < fuel →
       ∃ c, parse_body fuel lines st = Ok c ∧
            ∀ st', c = Continue st' → ls_i st < ls_i st') ∧
    length (entries r) ≤ length lines ∧
    length (entries r) ≤ length (filter (λ l, is_Some (h3_title l)) lines) ∧
    ∃ idxs,
      StronglySorted lt idxs ∧
      Forall2 (λ i e, ∃ hline j,
                 lines !! i = Some hline ∧
                 is_Some (h3_title hline) ∧
                 header_below lines i = Some j ∧
                 rows e = rows_of (table_lines (drop (j + 2) lines)) ∧
                 length (rows e) ≤ length (table_lines (drop (j + 2) lines)) ∧
                 Forall (λ row, ∃ l,
                           l ∈ table_lines (drop (j + 2) lines) ∧
                           RegExp_test re_pipe_start l = true ∧
                           5 ≤ length (splitMarkdownRow l) ∧
                           row_of_line l = Some row) (rows e))
        idxs (entries r).
Proof.
  destruct (parseMarkdown_spec md)
    as (lines & r & Hlines & Hr & Hfuel & (idxs & Hes & Hsorted) & _).
  exists lines, r. split; [done|]. split; [done|]. split; [done|]. split.
  { intros fuel st Hf.
    destruct (parse_body_turn fuel lines st Hf) as (c & Hc & Hturn).
    exists c. split; [done|]. intros st' ->. by eapply parse_turn_advances. }
  split; [by eapply entries_from_length|]. split.
  { rewrite <- (Forall2_length _ _ _ Hes), <- (drop_0 lines).
    apply sorted_indices_count; [done|].
    apply Forall_forall. intros i Hi. split; [lia|].
    apply list_elem_of_lookup in Hi as [n Hn].
    destruct (Forall2_lookup_l _ _ _ _ _ Hes Hn)
      as (e & _ & line & j & Hline & Ht & _).
    exists line. split; [done|]. by rewrite Ht. }
  exists idxs. split; [done|]. eapply Forall2_impl; [exact Hes|].
  intros i e (hline & j & Hline & Ht & _ & Hj & Hrows). exists hline, j.
  split; [done|]. split; [by rewrite Ht|]. split; [done|]. split; [done|].
  rewrite Hrows. split.
  - apply rows_of_length.
  - apply Forall_forall. intros row (l & Hl & Hrow)%list_elem_of_omap.
    exists l. split; [done|]. split; [|split; [|done]].
    + revert Hl. generalize (drop (j + 2) lines). intros tl.
      induction tl as [|l0 tl IH]; cbn [table_lines]; [by intros ?%elem_of_nil|].
      destruct (RegExp_test re_pipe_start l0) eqn:Hl0; [|by intros ?%elem_of_nil].
      intros [->|Hin]%elem_of_cons; [done|by apply IH].
    + unfold row_of_line, row_of_cells in Hrow.
      destruct (splitMarkdownRow l) as [|? [|? [|? [|? [|? ?]]]]];
        try done. simpl. lia.
Qed.

(** C10: a table row line with five cells or more gives the row made of
    its cells 0 to 4; the cells from position 5 on are in no field of the
    row and have no part in the network facet set, so two row lines that
    agree on their first five cells leave the loop variables the same. *)
Theorem extra_cells_ignored lines j row rs nets c0 c1 c2 c3 c4 extra :
  lines !! j = Some row →
  RegExp_test re_pipe_start row = true →
  splitMarkdownRow row = c0 :: c1 :: c2 :: c3 :: c4 :: extra →
  rows_body lines (j, rs, nets)
  = Ok (Continue (S j, rs ++ [mkRow c0 c1 c2 c3 c4],
                  if truthy c0 then {[ c0 ]} ∪ nets else nets)) ∧
  ∀ lines' row' extra',
    lines' !! j = Some row' →
    RegExp_test re_pipe_start row' = true →
    splitMarkdownRow row' = c0 :: c1 :: c2 :: c3 :: c4 :: extra' →
    rows_body lines' (j, rs, nets) = rows_body lines (j, rs, nets).
Proof.
  assert (Hrow : ∀ lines0 row0 extra0,
            lines0 !! j = Some row0 →
            RegExp_test re_pipe_start row0 = true →
            splitMarkdownRow row0 = c0 :: c1 :: c2 :: c3 :: c4 :: extra0 →
            rows_body lines0 (j, rs, nets)
            = Ok (Continue (S j, rs ++ [mkRow c0 c1 c2 c3 c4],
                            if truthy c0 then {[ c0 ]} ∪ nets else nets))).
  { intros lines0 row0 extra0 Hl Hpipe Hcells. unfold rows_body.
    pose proof (lookup_lt_Some _ _ _ Hl) as Hlt. apply Nat.ltb_lt in Hlt.
    rewrite Hlt, Hl. simpl. rewrite Hpipe, Hcells. reflexivity. }
  intros Hl Hpipe Hcells. split; [by eapply Hrow|].
  intros lines' row' extra' Hl' Hpipe' Hcells'.
  by rewrite (Hrow _ _ _ Hl' Hpipe' Hcells'), (Hrow _ _ _ Hl Hpipe Hcells).
Qed.

Lemma extra_cells_ignored_witness :
  rows_body lines_long_row (0, [], ∅)
  = Ok (Continue (1, [] ++ [mkRow (lit "mainnet") (lit "0x1") (lit "none")
                              (lit "()") (lit "0x0")],
                  if truthy (lit "mainnet") then {[ lit "mainnet" ]} ∪ ∅ else ∅)) ∧
  ∀ lines' row' extra',
    lines' !! 0 = Some row' →
    RegExp_test re_pipe_start row' = true →
    splitMarkdownRow row'
    = lit "mainnet" :: lit "0x1" :: lit "none" :: lit "()" :: lit "0x0" :: extra' →
    rows_body lines' (0, [], ∅) = rows_body lines_long_row (0, [], ∅).
Proof.
  apply (extra_cells_ignored lines_long_row 0
           (lit "| mainnet | 0x1 | none | () | 0x0 | more | cells |") [] ∅
           (lit "mainnet") (lit "0x1") (lit "none") (lit "()") (lit "0x0")
           [lit "more"; lit "cells"]).
  - reflexivity.
  - vm_compute. reflexivity.
  - vm_compute. reflexivity.
Defined.

(** A document without any third-level heading line parses to no entry
    and to empty facet sets. *)
Theorem no_heading_empty_result md lines :
  String_split_re md re_newline = Ok lines →
  (∀ line, line ∈ lines → h3_title line = None) →
  parseMarkdown md = Ok (mkResult [] ∅ ∅).
Proof.
  intros Hlines Hnone.
  destruct (parseMarkdown_spec md)
    as (lines' & [es ns cs] & Hlines' & Hr & _ & (idxs & Hes & _) & Hnets & _ & Hch).
  assert (lines' = lines) as -> by congruence. simpl in *.
  assert (Hno : ∀ i line, lines !! i = Some line → is_Some (h3_title line) → False).
  { intros i line Hline [t Ht]. rewrite (Hnone line) in Ht; [done|].
    apply list_elem_of_lookup. eauto. }
  assert (es = []) as ->.
  { destruct Hes as [|i e idxs' es' (line & j & Hline & Ht & _) _]; [done|].
    destruct (Hno i line Hline). by eexists. }
  rewrite Hr. f_equal. f_equal; [done|].
  apply elem_of_equiv_empty_L. intros c Hc.
  destruct (Hch c Hc) as (i & line & Hline & Ht & _). by eapply Hno.
Qed.

Lemma no_heading_empty_result_witness :
  parseMarkdown (lit "just text") = Ok (mkResult [] ∅ ∅).
Proof.
  apply (no_heading_empty_result (lit "just text") [lit "just text"]).
  - vm_compute. reflexivity.
  - intros line Hline. apply list_elem_of_singleton in Hline. subst line.
    vm_compute. reflexivity.
Defined.

(** * Further properties *)

(** ** Replacing every match *)

Lemma replace_chars_nil p repl : replace_chars p repl [] = [].
Proof. reflexivity. Qed.

Lemma replace_chars_cons p repl x s :
  replace_chars p repl (x :: s)
  = (if p x then repl else [x]) ++ replace_chars p repl s.
Proof. reflexivity. Qed.

Lemma replace_chars_app p repl s1 s2 :
  replace_chars p repl (s1 ++ s2)
  = replace_chars p repl s1 ++ replace_chars p repl s2.
Proof. apply bind_app. Qed.

Lemma replace_chars_none p repl s :
  Forall (λ x, p x = false) s → replace_chars p repl s = s.
Proof.
  induction 1 as [|x s Hx _ IH]; [done|].
  by rewrite replace_chars_cons, Hx, IH.
Qed.

Lemma substring_same q (s : jsstring) : substring q q s = [].
Proof. unfold substring. by rewrite Nat.sub_diag. Qed.

Lemma substring_cons q i (s : jsstring) x :
  s !! q = Some x → q < i → substring q i s = x :: substring (S q) i s.
Proof.
  intros Hx Hlt. unfold substring. rewrite (drop_lookup_cons _ _ _ Hx).
  replace (i - q) with (S (i - S q)) by lia. reflexivity.
Qed.

Lemma drop_substring q i (s : jsstring) :
  q ≤ i → drop q s = substring q i s ++ drop i s.
Proof.
  intros Hle. unfold substring.
  replace i with (q + (i - q)) at 2 by lia.
  by rewrite <- drop_drop, take_drop.
Qed.

(** The first match of a one-character pattern from [start] on. *)
Lemma exec_from_char p input : ∀ n start,
  start + n = length input →
  match exec_from (RChar p) input n start with
  | Some m =>
      ∃ i x, m = mkMatch i (S i) None ∧ start ≤ i ∧
             input !! i = Some x ∧ p x = true ∧
             Forall (λ y, p y = false) (substring start i input)
  | None => Forall (λ y, p y = false) (drop start input)
  end.
Proof.
  induction n as [|n IH]; intros start Hlen; cbn [exec_from rmatch].
  - rewrite (lookup_ge_None_2 input start) by lia.
    rewrite drop_ge by lia. constructor.
  - destruct (lookup_lt_is_Some_2 input start) as [x Hx]; [lia|].
    rewrite Hx. destruct (p x) eqn:Hp.
    + exists start, x. rewrite substring_same. repeat split; [lia|done..|constructor].
    + specialize (IH (S start)). destruct (exec_from (RChar p) input n (S start)) as [m|].
      * destruct IH as (i & y & -> & Hle & Hy & Hpy & Hnone); [lia|].
        exists i, y. repeat split; [lia|done..|].
        rewrite (substring_cons _ _ _ _ Hx) by lia. by constructor.
      * rewrite (drop_lookup_cons _ _ _ Hx). constructor; [done|]. apply IH. lia.
Qed.

Lemma replace_loop_char p repl input : ∀ fuel q out,
  q ≤ length input → length input - q < fuel →
  ∃ li next out',
    while_loop fuel (replace_body (RChar p) repl input) (q, q, out)
    = Ok (li, next, out') ∧
    out' ++ drop next input = out ++ replace_chars p repl (drop q input).
Proof.
  induction fuel as [|fuel IH]; intros q out Hq Hfuel; [lia|].
  assert (Hbody : replace_body (RChar p) repl input (q, q, out)
            = match exec_from (RChar p) input (length input - q) q with
              | None => Ok (Break (q, q, out))
              | Some m =>
                  Ok (Continue
                        ((if m_end m =? m_index m then S (m_end m) else m_end m),
                         (if q <=? m_index m then m_end m else q),
                         (if q <=? m_index m
                          then out ++ substring q (m_index m) input ++ repl
                          else out)))
              end).
  { unfold replace_body. rewrite (proj2 (Nat.ltb_ge _ _)) by lia.
    destruct (exec_from _ _ _ _) as [m|]; [|done]. by destruct (q <=? m_index m). }
  pose proof (exec_from_char p input (length input - q) q ltac:(lia)) as Hexec.
  destruct (exec_from (RChar p) input (length input - q) q) as [m|].
  - destruct Hexec as (i & x & -> & Hle & Hx & Hpx & Hnone).
    cbn [m_end m_index] in Hbody.
    rewrite (proj2 (Nat.eqb_neq (S i) i)) in Hbody by lia.
    rewrite (proj2 (Nat.leb_le q i)) in Hbody by lia.
    rewrite (while_loop_continue _ _ _ _ Hbody).
    pose proof (lookup_lt_Some _ _ _ Hx) as Hi.
    destruct (IH (S i) (out ++ substring q i input ++ repl)) as
      (li & next & out' & Hrun & Hout); [lia|lia|].
    exists li, next, out'. split; [done|]. rewrite Hout.
    rewrite (drop_substring q i input) by lia.
    rewrite (drop_lookup_cons _ _ _ Hx), replace_chars_app, replace_chars_cons, Hpx.
    rewrite (replace_chars_none _ _ _ Hnone). by rewrite <- !app_assoc.
  - rewrite (while_loop_break _ _ _ _ Hbody). exists q, q, out. split; [done|].
    by rewrite (replace_chars_none _ _ _ Hexec).
Qed.

(** Replacing every occurrence of a character: each one becomes the
    replacement text and the rest of the string is kept. *)
Lemma String_replace_all_char input p repl :
  String_replace_all input (RChar p) repl = Ok (replace_chars p repl input).
Proof.
  unfold String_replace_all.
  destruct (replace_loop_char p repl input (length input + 2) 0 [])
    as (li & next & out & -> & Hout); [lia|lia|].
  simpl. by rewrite Hout, drop_0.
Qed.

(** ** [escapeHtml] and [escapeAttr] *)

Lemma replace_chars_bind p repl (f : char → jsstring) (s : jsstring) :
  replace_chars p repl (s ≫= f) = s ≫= λ x, replace_chars p repl (f x).
Proof.
  induction s as [|x s IH]; [done|].
  by rewrite !bind_cons, replace_chars_app, IH.
Qed.

Lemma replace_chars_one p repl x :
  replace_chars p repl [x] = if p x then repl else [x].
Proof. unfold replace_chars. by rewrite bind_singleton. Qed.

Lemma escape_char_steps x :
  replace_chars (chr_eq c_apos) ent_apos
    (replace_chars (chr_eq c_quot) ent_quot
       (replace_chars (chr_eq c_gt) ent_gt
          (replace_chars (chr_eq c_lt) ent_lt
             (if chr_eq c_amp x then ent_amp else [x]))))
  = escape_char x.
Proof.
  unfold escape_char.
  destruct (chr_eq c_amp x) eqn:H1; [reflexivity|].
  rewrite replace_chars_one.
  destruct (chr_eq c_lt x) eqn:H2; [reflexivity|].
  rewrite replace_chars_one.
  destruct (chr_eq c_gt x) eqn:H3; [reflexivity|].
  rewrite replace_chars_one.
  destruct (chr_eq c_quot x) eqn:H4; [reflexivity|].
  rewrite replace_chars_one.
  by destruct (chr_eq c_apos x) eqn:H5.
Qed.

(** [escapeHtml] rewrites its argument code unit by code unit. *)
Lemma escapeHtml_text s : escapeHtml (Some s) = Ok (s ≫= escape_char).
Proof.
  unfold escapeHtml. rewrite String_replace_all_char. simpl.
  rewrite String_replace_all_char. simpl.
  rewrite String_replace_all_char. simpl.
  rewrite String_replace_all_char. simpl.
  rewrite String_replace_all_char. f_equal.
  unfold replace_chars at 5. rewrite !replace_chars_bind.
  induction s as [|x s IH]; [done|].
  by rewrite !bind_cons, IH, escape_char_steps.
Qed.

Lemma escape_char_cases x :
  (html_special x = false ∧ escape_char x = [x]) ∨
  (html_special x = true ∧
   ∃ e, escape_char x = c_amp :: e ∧
        (e = lit "amp;" ∨ e = lit "lt;" ∨ e = lit "gt;" ∨ e = lit "quot;"
         ∨ e = lit "#39;")).
Proof.
  unfold html_special, escape_char.
  destruct (chr_eq c_amp x); [right; split; [done|]; exists (lit "amp;"); auto|].
  destruct (chr_eq c_lt x); [right; split; [done|]; exists (lit "lt;"); auto|].
  destruct (chr_eq c_gt x); [right; split; [done|]; exists (lit "gt;"); auto|].
  destruct (chr_eq c_quot x);
    [right; split; [done|]; exists (lit "quot;"); auto 6|].
  destruct (chr_eq c_apos x);
    [right; split; [done|]; exists (lit "#39;"); auto 6|].
  by left.
Qed.

Lemma html_special_false x :
  html_special x = false →
  x ≠ c_amp ∧ x ≠ c_lt ∧ x ≠ c_gt ∧ x ≠ c_quot ∧ x ≠ c_apos.
Proof.
  unfold html_special. rewrite !orb_false_iff.
  intros ((((H1 & H2) & H3) & H4) & H5).
  repeat split; intros ->;
    by rewrite (proj2 (chr_eq_true _ _) eq_refl) in *.
Qed.

(** The entity names hold none of the five characters. *)
Lemma entity_plain e :
  e = lit "amp;" ∨ e = lit "lt;" ∨ e = lit "gt;" ∨ e = lit "quot;"
  ∨ e = lit "#39;" →
  Forall (λ y, html_special y = false) e.
Proof.
  intros [->|[->|[->|[->| ->]]]]; repeat constructor.
Qed.

Lemma escape_text_plain (x : char) (s : jsstring) :
  html_special x = true → x ≠ c_amp → x ∉ s ≫= escape_char.
Proof.
  intros Hx Hamp (y & Hin & _)%list_elem_of_bind.
  destruct (escape_char_cases y) as [[Hy Hc]|[_ (e & Hc & He)]];
    rewrite Hc in Hin.
  - apply list_elem_of_singleton in Hin as ->. congruence.
  - apply elem_of_cons in Hin as [->|Hin]; [done|].
    apply entity_plain in He.
    pose proof (proj1 (Forall_forall _ _) He x Hin) as Hfalse. simpl in Hfalse.
    congruence.
Qed.

Lemma app_eq_plain_prefix (e pre post r : jsstring) :
  c_amp ∉ e → pre ++ c_amp :: post = e ++ r →
  ∃ pre', pre = e ++ pre' ∧ pre' ++ c_amp :: post = r.
Proof.
  revert pre. induction e as [|y e IH]; intros pre Hnot Heq.
  - by exists pre.
  - destruct pre as [|z pre]; simpl in Heq.
    + injection Heq as <- _. destruct Hnot. left.
    + injection Heq as -> Heq. destruct (IH pre) as (pre' & -> & Hr); [|done|].
      * intros ?. apply Hnot. by right.
      * by exists pre'.
Qed.

Lemma escape_text_amp (s pre post : jsstring) :
  s ≫= escape_char = pre ++ c_amp :: post →
  ∃ e rest, post = e ++ rest ∧
    (e = lit "amp;" ∨ e = lit "lt;" ∨ e = lit "gt;" ∨ e = lit "quot;"
     ∨ e = lit "#39;").
Proof.
  revert pre. induction s as [|x s IH]; intros pre Heq.
  - by destruct pre.
  - rewrite bind_cons in Heq.
    destruct (escape_char_cases x) as [[Hx Hc]|[_ (e & Hc & He)]];
      rewrite Hc in Heq.
    + destruct pre as [|z pre]; simpl in Heq.
      * injection Heq as -> _. apply html_special_false in Hx. tauto.
      * injection Heq as _ Heq. by eapply IH.
    + destruct pre as [|z pre]; simpl in Heq.
      * injection Heq as <-. eauto.
      * injection Heq as _ Heq. symmetry in Heq.
        apply app_eq_plain_prefix in Heq as (pre' & _ & Heq).
        -- symmetry in Heq. by eapply IH.
        -- intros Hin. apply entity_plain in He.
           pose proof (proj1 (Forall_forall _ _) He _ Hin). done.
Qed.

Lemma escape_text_length (s : jsstring) :
  length s ≤ length (s ≫= escape_char) ≤ 6 * length s ∧
  (length (s ≫= escape_char) = length s →
   Forall (λ x, html_special x = false) s).
Proof.
  induction s as [|x s (IH & IHeq)]; [repeat split; simpl; (lia || constructor)|].
  rewrite bind_cons, length_app. cbn [length].
  destruct (escape_char_cases x) as [[Hx ->]|[_ (e & -> & He)]].
  - cbn [length]. split; [lia|]. intros Heq. constructor; [done|]. apply IHeq. lia.
  - assert (3 ≤ length e ≤ 5) by
      (destruct He as [->|[->|[->|[->| ->]]]]; simpl; lia).
    cbn [length]. split; [lia|]. intros Heq. lia.
Qed.

Lemma escape_text_id (s : jsstring) :
  Forall (λ x, html_special x = false) s → s ≫= escape_char = s.
Proof.
  induction 1 as [|x s Hx _ IH]; [done|]. rewrite bind_cons, IH.
  destruct (escape_char_cases x) as [[_ ->]|[Hx' _]]; [done|congruence].
Qed.

Lemma unescape_escape (s : jsstring) : ∀ n,
  length (s ≫= escape_char) ≤ n → unescape n (s ≫= escape_char) = s.
Proof.
  induction s as [|x s IH]; intros n Hn.
  - by destruct n.
  - rewrite bind_cons in Hn |- *. rewrite length_app in Hn.
    destruct (escape_char_cases x) as [[Hx Hc]|[Hx (e & Hc & He)]];
      rewrite Hc in Hn |- *; simpl in Hn.
    + destruct n as [|n]; [lia|]. apply html_special_false in Hx as (Hamp & _).
      cbn [unescape app].
      assert (chr_eq c_amp x = false) as ->.
      { destruct (chr_eq c_amp x) eqn:E; [|done]. by apply chr_eq_true in E. }
      f_equal. apply IH. lia.
    + destruct n as [|n]; [lia|]. cbn [unescape app].
      rewrite (proj2 (chr_eq_true c_amp c_amp) eq_refl).
      unfold escape_char in Hc.
      destruct (chr_eq c_amp x) eqn:E1.
      { apply chr_eq_true in E1 as ->. injection Hc as <-.
        simpl. f_equal. apply IH. simpl in Hn. lia. }
      destruct (chr_eq c_lt x) eqn:E2.
      { apply chr_eq_true in E2 as ->. injection Hc as <-.
        simpl. f_equal. apply IH. simpl in Hn. lia. }
      destruct (chr_eq c_gt x) eqn:E3.
      { apply chr_eq_true in E3 as ->. injection Hc as <-.
        simpl. f_equal. apply IH. simpl in Hn. lia. }
      destruct (chr_eq c_quot x) eqn:E4.
      { apply chr_eq_true in E4 as ->. injection Hc as <-.
        simpl. f_equal. apply IH. simpl in Hn. lia. }
      destruct (chr_eq c_apos x) eqn:E5.
      { apply chr_eq_true in E5 as ->. injection Hc as <-.
        simpl. f_equal. apply IH. simpl in Hn. lia. }
      unfold html_special in Hx. rewrite E1, E2, E3, E4, E5 in Hx. done.
Qed.

(** [escapeHtml] works piece by piece: the text of a concatenation is
    the concatenation of the texts, and [null] gives the empty text. *)
Theorem escapeHtml_concat a b :
  escapeHtml None = Ok [] ∧
  ∃ ta tb,
    escapeHtml (Some a) = Ok ta ∧ escapeHtml (Some b) = Ok tb ∧
    escapeHtml (Some (a ++ b)) = Ok (ta ++ tb).
Proof.
  split; [done|]. exists (a ≫= escape_char), (b ≫= escape_char).
  rewrite !escapeHtml_text. repeat split. by rewrite bind_app.
Qed.

(** The text [escapeHtml] returns holds no [<], no [>], no double quote
    and no apostrophe, and every [&] in it starts one of the five entities
    [&amp;], [&lt;], [&gt;], [&quot;] and [&#39;]. *)
Theorem escapeHtml_safe s :
  ∃ t,
    escapeHtml (Some s) = Ok t ∧
    (c_lt ∉ t) ∧ (c_gt ∉ t) ∧ (c_quot ∉ t) ∧ (c_apos ∉ t) ∧
    ∀ pre post, t = pre ++ c_amp :: post →
      ∃ e rest, post = e ++ rest ∧
        (e = lit "amp;" ∨ e = lit "lt;" ∨ e = lit "gt;" ∨ e = lit "quot;"
         ∨ e = lit "#39;").
Proof.
  exists (s ≫= escape_char). split; [apply escapeHtml_text|].
  repeat split; try (by apply escape_text_plain).
  intros pre post Heq. by eapply escape_text_amp.
Qed.

(** [escapeAttr] returns what [escapeHtml] returns: no double quote is
    left for its own replacement. *)
Theorem escapeAttr_same str : escapeAttr str = escapeHtml str.
Proof.
  unfold escapeAttr. destruct str as [s|].
  - rewrite escapeHtml_text. simpl. rewrite String_replace_all_char. f_equal.
    apply replace_chars_none, Forall_forall. intros x Hx.
    destruct (chr_eq c_quot x) eqn:Hq; [|done].
    apply chr_eq_true in Hq as ->. by apply escape_text_plain in Hx.
  - simpl. by rewrite String_replace_all_char.
Qed.

(** [escapeHtml] loses nothing: reading the five entities back gives the
    argument again, so no two strings have the same text. *)
Theorem escapeHtml_round_trip s :
  ∃ t,
    escapeHtml (Some s) = Ok t ∧
    unescape (length t) t = s ∧
    ∀ s', escapeHtml (Some s') = Ok t → s' = s.
Proof.
  exists (s ≫= escape_char). split; [apply escapeHtml_text|].
  split; [by apply unescape_escape|].
  intros s'. rewrite escapeHtml_text. intros [= Heq].
  rewrite <- (unescape_escape s' (length (s' ≫= escape_char))) by done.
  rewrite Heq. by apply unescape_escape.
Qed.

(** The text is at least as long as the argument and at most six times
    as long; it is the argument itself exactly when the argument holds
    none of the five characters, and escaping the text once more changes
    it in every other case. *)
Theorem escapeHtml_fixed s :
  ∃ t,
    escapeHtml (Some s) = Ok t ∧
    length s ≤ length t ≤ 6 * length s ∧
    (t = s ↔ Forall (λ x, html_special x = false) s) ∧
    (escapeHtml (Some t) = Ok t ↔ Forall (λ x, html_special x = false) s).
Proof.
  exists (s ≫= escape_char). split; [apply escapeHtml_text|].
  destruct (escape_text_length s) as [Hlen Heq]. split; [done|].
  assert (Hid : s ≫= escape_char = s ↔ Forall (λ x, html_special x = false) s).
  { split; [|apply escape_text_id]. intros H. apply Heq. by rewrite H. }
  split; [done|]. rewrite escapeHtml_text. split.
  - intros [= Ht].
    assert (Forall (λ x, html_special x = false) (s ≫= escape_char)) as Hplain.
    { apply (proj2 (escape_text_length _)). by rewrite Ht. }
    apply Forall_bind in Hplain. eapply Forall_impl; [exact Hplain|].
    intros x Hx. simpl in Hx.
    destruct (escape_char_cases x) as [[Hn _]|[_ (e & Hc & _)]]; [done|].
    rewrite Hc in Hx. by apply Forall_cons in Hx as [Hx _].
  - intros Hs. by rewrite !(escape_text_id s Hs).
Qed.

(** ** [render] *)

Lemma String_startsWith_spec s q :
  String_startsWith s q = true ↔ ∃ post, s = q ++ post.
Proof.
  revert s. induction q as [|a q IH]; intros s; simpl.
  - split; [|done]. intros _. by exists s.
  - destruct s as [|b s].
    + split; [done|]. by intros (post & ?).
    + rewrite andb_true_iff, chr_eq_true, IH. split.
      * intros [-> (post & ->)]. by exists post.
      * intros (post & [= -> ->]). split; [done|]. by exists post.
Qed.

Lemma String_includes_spec hay q :
  String_includes hay q = true ↔ ∃ pre post, hay = pre ++ q ++ post.
Proof.
  induction hay as [|b hay IH]; cbn [String_includes];
    rewrite orb_true_iff, String_startsWith_spec.
  - split.
    + intros [(post & ->)|?]; [|done]. by exists [], post.
    + intros (pre & post & Heq). left. destruct pre; [by exists post|done].
  - rewrite IH. split.
    + intros [(post & ->)|(pre & post & ->)]; [by exists [], post|].
      by exists (b :: pre), post.
    + intros (pre & post & Heq). destruct pre as [|c pre].
      * left. by exists post.
      * right. injection Heq as -> ->. by exists pre, post.
Qed.

Lemma filter_all {A} (P : A → Prop) `{∀ x, Decision (P x)} (l : list A) :
  Forall P l → filter P l = l.
Proof.
  induction 1 as [|x l Hx _ IH]; [done|].
  by rewrite filter_cons_True, IH.
Qed.

Lemma filter_holds {A} (P : A → Prop) `{∀ x, Decision (P x)} (l : list A) :
  Forall P (filter P l).
Proof. apply Forall_forall. by intros x [? _]%list_elem_of_filter. Qed.

Lemma with_entries_same state :
  with_entries state (st_entries state) = state.
Proof. by destruct state. Qed.

Section RenderFacts.
Variable toLowerCase : jsstring → jsstring.
Variable state : AppState.

Let q : jsstring := toLowerCase (st_search state).

(** The three steps of [render_filtered]. *)
Let in_category (e : Entry) : Prop :=
  negb (truthy (st_filter_category state))
  || bool_decide (category e = st_filter_category state) = true.
Let shown_rows (e : Entry) : Entry :=
  mkEntry (category e) (title e)
    (filter (λ r, row_shown toLowerCase state q e r = true) (rows e)).
Let has_rows (e : Entry) : Prop := 0 < length (rows e).

Lemma render_filtered_steps es :
  render_filtered toLowerCase (with_entries state es)
  = filter has_rows (shown_rows <$> filter in_category es).
Proof. reflexivity. Qed.

Lemma render_filtered_cons e es :
  render_filtered toLowerCase (with_entries state (e :: es))
  = (if decide (in_category e ∧ has_rows (shown_rows e))
     then [shown_rows e] else [])
    ++ render_filtered toLowerCase (with_entries state es).
Proof.
  rewrite !render_filtered_steps, filter_cons.
  destruct (decide (in_category e)) as [Hc|Hc].
  - rewrite fmap_cons, filter_cons.
    destruct (decide (has_rows (shown_rows e))) as [Hr|Hr].
    + by rewrite decide_True.
    + rewrite decide_False; [done|]. tauto.
  - rewrite decide_False; [done|]. tauto.
Qed.

Lemma shown_rows_again e :
  shown_rows (shown_rows e) = shown_rows e.
Proof.
  unfold shown_rows. simpl. f_equal.
  apply filter_all. eapply Forall_impl; [apply filter_holds|].
  intros r Hr. exact Hr.
Qed.

Lemma render_filtered_again es :
  render_filtered toLowerCase
    (with_entries state (render_filtered toLowerCase (with_entries state es)))
  = render_filtered toLowerCase (with_entries state es).
Proof.
  induction es as [|e es IH]; [done|].
  rewrite (render_filtered_cons e es).
  destruct (decide (in_category e ∧ has_rows (shown_rows e))) as [[Hc Hr]|Hno];
    [|exact IH].
  cbn [app]. rewrite render_filtered_cons, IH, shown_rows_again.
  by rewrite decide_True.
Qed.

Lemma render_filtered_elem e' es :
  e' ∈ render_filtered toLowerCase (with_entries state es) ↔
  ∃ e, e ∈ es ∧ in_category e ∧ e' = shown_rows e ∧ has_rows e'.
Proof.
  rewrite render_filtered_steps, list_elem_of_filter, list_elem_of_fmap.
  split.
  - intros [Hr (e & -> & [Hc He]%list_elem_of_filter)]. by exists e.
  - intros (e & He & Hc & -> & Hr). split; [done|]. exists e. split; [done|].
    by apply list_elem_of_filter.
Qed.

Lemma render_filtered_view es :
  ∃ es', es' `sublist_of` es ∧
    Forall2 (λ e' e, category e' = category e ∧ title e' = title e ∧
                     rows e' `sublist_of` rows e)
      (render_filtered toLowerCase (with_entries state es)) es'.
Proof.
  induction es as [|e es (es' & Hsub & Hall)].
  - exists []. split; [done|constructor].
  - rewrite render_filtered_cons.
    destruct (decide (in_category e ∧ has_rows (shown_rows e))).
    + exists (e :: es'). split; [by apply sublist_skip|].
      constructor; [|done]. repeat split. apply sublist_filter.
    + exists es'. split; [by apply sublist_cons|done].
Qed.
End RenderFacts.

(** What [render] shows is a view of the entries of the state: every shown
    entry has at least one row, and the shown entries are, in the same
    order, some of the entries, each with its category, its title and some
    of its rows in their order. *)
Theorem render_shows_view (toLowerCase : jsstring → jsstring) state :
  Forall (λ e, rows e ≠ []) (render_filtered toLowerCase state) ∧
  ∃ es, es `sublist_of` st_entries state ∧
    Forall2 (λ e' e, category e' = category e ∧ title e' = title e ∧
                     rows e' `sublist_of` rows e)
      (render_filtered toLowerCase state) es.
Proof.
  pose proof (render_filtered_view toLowerCase state (st_entries state)) as Hview.
  pose proof (λ e', render_filtered_elem toLowerCase state e' (st_entries state))
    as Helem.
  rewrite with_entries_same in Hview. split; [|done].
  apply Forall_forall. intros e' He'. rewrite with_entries_same in Helem.
  apply Helem in He' as (e & _ & _ & _ & Hr).
  destruct (rows e'); [simpl in Hr; lia|done].
Qed.

(** With an empty search text and no filter chosen, [render] shows the
    entries that have a row, unchanged, and hides the entries without
    rows. *)
Theorem render_without_filters (toLowerCase : jsstring → jsstring) state :
  toLowerCase [] = [] →
  st_search state = [] →
  st_filter_network state = [] →
  st_filter_category state = [] →
  render_filtered toLowerCase state
  = filter (λ e, 0 < length (rows e)) (st_entries state).
Proof.
  intros Hlow Hs Hn Hc. unfold render_filtered. rewrite Hs, Hlow, Hc.
  cbn [truthy negb orb]. rewrite (filter_all (λ _, true = true)).
  2:{ by apply Forall_forall. }
  induction (st_entries state) as [|e es IH]; [done|].
  assert (mkEntry (category e) (title e)
            (filter (λ r, row_shown toLowerCase state [] e r = true) (rows e))
          = e) as He.
  { destruct e as [c t rs]. simpl. f_equal. apply filter_all, Forall_forall.
    intros r _. unfold row_shown. by rewrite Hn. }
  rewrite fmap_cons, He, !filter_cons, IH. done.
Qed.

Lemma render_without_filters_witness :
  render_filtered ascii_toLowerCase
    (mkState [] [mkEntry (lit "C") (lit "Kept")
                   [mkRow (lit "mainnet") (lit "0x1") (lit "none") [] []];
                 mkEntry (lit "C") (lit "Hidden") []]
       ∅ ∅ [] [] [] (lit "cards"))
  = filter (λ e, 0 < length (rows e))
      [mkEntry (lit "C") (lit "Kept")
         [mkRow (lit "mainnet") (lit "0x1") (lit "none") [] []];
       mkEntry (lit "C") (lit "Hidden") []].
Proof.
  apply (render_without_filters ascii_toLowerCase
           (mkState [] [mkEntry (lit "C") (lit "Kept")
                          [mkRow (lit "mainnet") (lit "0x1") (lit "none") [] []];
                        mkEntry (lit "C") (lit "Hidden") []]
              ∅ ∅ [] [] [] (lit "cards"))); reflexivity.
Defined.

(** The filters are obeyed: every shown entry has the chosen category,
    every shown row has the chosen network, and, when a search text is
    given, the lower-cased text of the row (title, category and the five
    fields) holds the lower-cased search text. *)
Theorem render_respects_filters (toLowerCase : jsstring → jsstring) state :
  Forall (λ e,
    (st_filter_category state ≠ [] → category e = st_filter_category state) ∧
    Forall (λ r,
      (st_filter_network state ≠ [] → network r = st_filter_network state) ∧
      (toLowerCase (st_search state) ≠ [] →
       ∃ pre post,
         toLowerCase (haystack e r)
         = pre ++ toLowerCase (st_search state) ++ post)) (rows e))
    (render_filtered toLowerCase state).
Proof.
  pose proof (λ e', render_filtered_elem toLowerCase state e' (st_entries state))
    as Helem.
  rewrite with_entries_same in Helem.
  apply Forall_forall. intros e' He'.
  apply Helem in He' as (e & _ & Hc & -> & _). split.
  - intros Hne. simpl. apply orb_true_iff in Hc as [Hc|Hc].
    + destruct (st_filter_category state); [done|discriminate].
    + by apply bool_decide_eq_true in Hc.
  - simpl. apply Forall_forall. intros r [Hr _]%list_elem_of_filter.
    unfold row_shown in Hr. cbv zeta in Hr.
    destruct (negb (truthy (st_filter_network state))
              || bool_decide (network r = st_filter_network state)) eqn:Hn;
      [|done]. simpl in Hr. split.
    + intros Hne. apply orb_true_iff in Hn as [Hn|Hn].
      * destruct (st_filter_network state); [done|discriminate].
      * by apply bool_decide_eq_true in Hn.
    + intros Hq. destruct (toLowerCase (st_search state)) as [|a q] eqn:Eq;
        [done|]. simpl in Hr. by apply String_includes_spec in Hr.
Qed.

(** Filtering what is shown once more, with the same search text and the
    same filters, shows the same. *)
Theorem render_idempotent (toLowerCase : jsstring → jsstring) state :
  render_filtered toLowerCase
    (with_entries state (render_filtered toLowerCase state))
  = render_filtered toLowerCase state.
Proof.
  pose proof (render_filtered_again toLowerCase state (st_entries state)) as H.
  by rewrite with_entries_same in H.
Qed.

(** Nothing that passes the filters is hidden: a row of the chosen
    network (any row, when none is chosen) whose lower-cased text holds
    the lower-cased search text (any row, when that is empty), in an
    entry of the chosen category (any entry, when none is chosen), is
    shown under the title and the category of its entry. *)
Theorem render_shows_matches (toLowerCase : jsstring → jsstring) state :
  Forall (λ e,
    Forall (λ r,
      (st_filter_category state = [] ∨ category e = st_filter_category state) →
      (st_filter_network state = [] ∨ network r = st_filter_network state) →
      (toLowerCase (st_search state) = [] ∨
       ∃ pre post,
         toLowerCase (haystack e r)
         = pre ++ toLowerCase (st_search state) ++ post) →
      ∃ e', e' ∈ render_filtered toLowerCase state ∧
        category e' = category e ∧ title e' = title e ∧ r ∈ rows e')
      (rows e))
    (st_entries state).
Proof.
  pose proof (λ e', render_filtered_elem toLowerCase state e' (st_entries state))
    as Helem.
  rewrite with_entries_same in Helem.
  apply Forall_forall. intros e He. apply Forall_forall. intros r Hr Hc Hn Hq.
  assert (row_shown toLowerCase state (toLowerCase (st_search state)) e r = true)
    as Hshown.
  { unfold row_shown. cbv zeta.
    assert (negb (truthy (st_filter_network state))
            || bool_decide (network r = st_filter_network state) = true) as ->.
    { destruct Hn as [-> | ->]; [done|].
      rewrite bool_decide_eq_true_2 by done. apply orb_true_r. }
    cbn [negb]. destruct Hq as [-> | Hq]; [done|].
    destruct (toLowerCase (st_search state)) eqn:E; [done|].
    cbn [truthy negb]. by apply String_includes_spec. }
  assert (r ∈ filter (λ r, row_shown toLowerCase state
                             (toLowerCase (st_search state)) e r = true)
                (rows e)) as Hin by (by apply list_elem_of_filter).
  eexists (mkEntry (category e) (title e) _).
  split; [|split; [done|split; [done|exact Hin]]].
  apply Helem. exists e. split; [done|]. split.
  - destruct Hc as [-> | ->]; [done|].
    rewrite bool_decide_eq_true_2 by done. apply orb_true_r.
  - split; [done|]. simpl.
    destruct (filter _ (rows e)); [by apply elem_of_nil in Hin|simpl; lia].
Qed.

Lemma render_filtered_nonempty (toLowerCase : jsstring → jsstring) state :
  render_filtered toLowerCase state ≠ [] ↔
  ∃ e r, e ∈ st_entries state ∧ r ∈ rows e ∧
    (negb (truthy (st_filter_category state))
     || bool_decide (category e = st_filter_category state) = true) ∧
    row_shown toLowerCase state (toLowerCase (st_search state)) e r = true.
Proof.
  pose proof (λ e', render_filtered_elem toLowerCase state e' (st_entries state))
    as Helem.
  rewrite with_entries_same in Helem. split.
  - intros Hne.
    destruct (render_filtered toLowerCase state) as [|e' l] eqn:Heq; [done|].
    assert (e' ∈ e' :: l) as He' by left.
    apply Helem in He' as (e & He & Hc & -> & Hr). simpl in Hr.
    destruct (filter _ (rows e)) as [|r rs] eqn:Hrows; [simpl in Hr; lia|].
    assert (r ∈ filter (λ r, row_shown toLowerCase state
                               (toLowerCase (st_search state)) e r = true)
                  (rows e)) as [Hshown Hin]%list_elem_of_filter
      by (rewrite Hrows; left).
    by exists e, r.
  - intros (e & r & He & Hr & Hc & Hshown) Hnil.
    assert (mkEntry (category e) (title e)
              (filter (λ r, row_shown toLowerCase state
                              (toLowerCase (st_search state)) e r = true)
                 (rows e))
            ∈ render_filtered toLowerCase state) as Hin.
    { apply Helem. exists e. repeat split; [done..|]. simpl.
      assert (r ∈ filter (λ r, row_shown toLowerCase state
                                 (toLowerCase (st_search state)) e r = true)
                    (rows e)) as Hrin by (by apply list_elem_of_filter).
      destruct (filter _ (rows e)); [by apply elem_of_nil in Hrin|simpl; lia]. }
    rewrite Hnil in Hin. by apply elem_of_nil in Hin.
Qed.

(** Parsing and filtering together: with no search text and no category
    chosen, a network value shows at least one section exactly when it is
    in the network facet set of the parsed document; and a category value
    that shows a section (no search text, no network chosen) is in the
    category facet set. *)
Theorem facet_value_shows_sections (toLowerCase : jsstring → jsstring) md :
  toLowerCase [] = [] →
  ∃ r,
    parseMarkdown md = Ok r ∧
    (∀ n, n ≠ [] →
       (render_filtered toLowerCase (state_of md r [] n []) ≠ [] ↔
        n ∈ networks r)) ∧
    (∀ c, c ≠ [] →
       render_filtered toLowerCase (state_of md r [] [] c) ≠ [] →
       c ∈ categories r).
Proof.
  intros Hlow.
  destruct (parseMarkdown_spec md)
    as (lines & r & _ & Hr & _ & _ & Hnets & Hce & _).
  exists r. split; [done|]. split.
  - intros n Hn. rewrite render_filtered_nonempty, Hnets, elem_of_networks_of.
    unfold row_shown, state_of. simpl. rewrite Hlow. split.
    + intros (e & row & He & Hrow & _ & Hshown). split; [done|].
      exists row. split; [apply list_elem_of_bind; eauto|].
      destruct n as [|a n]; [done|]. simpl in Hshown.
      destruct (bool_decide (network row = a :: n)) eqn:Hb; [|done].
      by apply bool_decide_eq_true in Hb.
    + intros (_ & row & (e & Hrow & He)%list_elem_of_bind & Hnet).
      exists e, row. repeat split; [done..|].
      destruct n as [|a n]; [done|]. simpl.
      by rewrite bool_decide_eq_true_2.
  - intros c Hc (e & row & He & _ & Hcat & _)%render_filtered_nonempty.
    unfold state_of in Hcat, He. simpl in Hcat, He.
    destruct c as [|a c]; [done|]. simpl in Hcat.
    apply bool_decide_eq_true in Hcat. rewrite <- Hcat. by apply Hce.
Qed.

Lemma facet_value_shows_sections_witness :
  ∃ r,
    parseMarkdown (join_lines lines_tokens) = Ok r ∧
    (∀ n, n ≠ [] →
       (render_filtered ascii_toLowerCase
          (state_of (join_lines lines_tokens) r [] n []) ≠ [] ↔
        n ∈ networks r)) ∧
    (∀ c, c ≠ [] →
       render_filtered ascii_toLowerCase
         (state_of (join_lines lines_tokens) r [] [] c) ≠ [] →
       c ∈ categories r).
Proof.
  apply (facet_value_shows_sections ascii_toLowerCase (join_lines lines_tokens)).
  reflexivity.
Defined.

(** ** The cells of a row *)

Lemma drop_space_suffix s : ∃ w, s = w ++ drop_space s ∧ all_space w.
Proof.
  induction s as [|c s (w & Hs & Hw)]; simpl.
  - exists []. split; [done|constructor].
  - destruct (cls_space c) eqn:Hc.
    + exists (c :: w). split; [by rewrite <- app_comm_cons, <- Hs|by constructor].
    + exists []. split; [done|constructor].
Qed.

Lemma drop_space_again s : drop_space (drop_space s) = drop_space s.
Proof.
  pose proof (drop_space_head s) as Hhead.
  destruct (drop_space s) as [|c t]; [done|]. simpl. by rewrite Hhead.
Qed.

Lemma String_trim_trimmed s : trimmed (String_trim s).
Proof.
  unfold trimmed, String_trim.
  set (u := drop_space (reverse (drop_space s))).
  assert (Hu : drop_space u = u) by apply drop_space_again.
  rewrite reverse_involutive. split; [|done].
  destruct (drop_space_suffix (reverse (drop_space s))) as (w & Hw & _).
  fold u in Hw. apply (f_equal reverse) in Hw.
  rewrite reverse_involutive, reverse_app in Hw.
  pose proof (drop_space_head s) as Hhead. rewrite Hw in Hhead.
  destruct (reverse u) as [|c t]; [done|]. simpl in Hhead |- *.
  by rewrite Hhead.
Qed.

Lemma trimmed_String_trim s : trimmed s → String_trim s = s.
Proof.
  intros [H1 H2]. unfold String_trim. by rewrite H1, H2, reverse_involutive.
Qed.

Lemma drop_space_sub s x : x ∈ drop_space s → x ∈ s.
Proof.
  destruct (drop_space_suffix s) as (w & Hs & _). intros Hx.
  rewrite Hs. apply elem_of_app. by right.
Qed.

Lemma String_trim_sub s x : x ∈ String_trim s → x ∈ s.
Proof.
  unfold String_trim. intros Hx. rewrite elem_of_reverse in Hx.
  apply drop_space_sub in Hx. rewrite elem_of_reverse in Hx.
  by apply drop_space_sub.
Qed.

Lemma String_split_cons sep c s :
  String_split sep (c :: s)
  = if chr_eq sep c then [] :: String_split sep s
    else match String_split sep s with
         | cur :: rest => (c :: cur) :: rest
         | [] => [[c]]
         end.
Proof. reflexivity. Qed.

Lemma String_split_length sep s :
  length (String_split sep s)
  = S (length (filter (λ c, chr_eq sep c = true) s)).
Proof.
  induction s as [|c s IH]; [done|]. rewrite String_split_cons, filter_cons.
  destruct (chr_eq sep c) eqn:Hc.
  - rewrite decide_True by done. simpl. by rewrite IH.
  - rewrite decide_False by congruence.
    destruct (String_split sep s); simpl in *; lia.
Qed.

Lemma String_split_no_sep sep s piece :
  piece ∈ String_split sep s → sep ∉ piece.
Proof.
  revert piece. induction s as [|c s IH]; intros piece.
  - simpl. intros ->%list_elem_of_singleton. apply not_elem_of_nil.
  - rewrite String_split_cons. destruct (chr_eq sep c) eqn:Hc.
    + intros [->|Hin]%elem_of_cons; [apply not_elem_of_nil|by apply IH].
    + destruct (String_split sep s) as [|cur rest].
      * intros ->%list_elem_of_singleton [->|Hin]%elem_of_cons.
        -- by rewrite (proj2 (chr_eq_true _ _) eq_refl) in Hc.
        -- by apply elem_of_nil in Hin.
      * intros [->|Hin]%elem_of_cons.
        -- intros [->|Hin]%elem_of_cons.
           ++ by rewrite (proj2 (chr_eq_true _ _) eq_refl) in Hc.
           ++ revert Hin. apply IH. left.
        -- apply IH. by right.
Qed.

Lemma first_group_sub cell body x :
  first_group cell = Some body → x ∈ body → x ∈ cell.
Proof.
  intros (pre & post & (-> & _) & _)%first_group_Some Hx.
  rewrite elem_of_app, elem_of_cons, elem_of_app. auto.
Qed.

(** No cell of a row holds a pipe, and every cell but the one at
    position 2 is free of white space at both ends. *)
Lemma splitMarkdownRow_cells row idx cell :
  splitMarkdownRow row !! idx = Some cell →
  (c_pipe ∉ cell) ∧ (idx ≠ 2 → trimmed cell).
Proof.
  unfold splitMarkdownRow. cbv zeta. rewrite list_lookup_imap.
  set (stripped := String_replace_empty _ re_pipe_end).
  rewrite list_lookup_fmap.
  destruct (String_split c_pipe stripped !! idx) as [piece|] eqn:Hpiece;
    [|done].
  simpl. intros [= <-].
  assert (c_pipe ∉ String_trim piece) as Hno.
  { intros Hin%String_trim_sub. revert Hin.
    eapply String_split_no_sep, list_elem_of_lookup_2, Hpiece. }
  split.
  - destruct (decide (idx = 2)) as [->|Hidx].
    + rewrite explorer_cell_first_group.
      destruct (first_group (String_trim piece)) as [body|] eqn:Hg; [|done].
      simpl. intros Hin. apply Hno. by eapply first_group_sub.
    + unfold clean_cell. by rewrite (proj2 (Nat.eqb_neq idx 2) Hidx).
  - intros Hidx. unfold clean_cell. rewrite (proj2 (Nat.eqb_neq idx 2) Hidx).
    apply String_trim_trimmed.
Qed.

Lemma row_of_line_clean line r : row_of_line line = Some r → clean_row r.
Proof.
  unfold row_of_line, row_of_cells.
  pose proof (λ idx cell, splitMarkdownRow_cells line idx cell) as Hcells.
  destruct (splitMarkdownRow line) as [|c0 [|c1 [|c2 [|c3 [|c4 extra]]]]];
    try done.
  intros [= <-]. unfold clean_row. simpl.
  destruct (Hcells 0 c0 eq_refl) as [Hp0 Ht0].
  destruct (Hcells 1 c1 eq_refl) as [Hp1 Ht1].
  destruct (Hcells 2 c2 eq_refl) as [Hp2 _].
  destruct (Hcells 3 c3 eq_refl) as [Hp3 Ht3].
  destruct (Hcells 4 c4 eq_refl) as [Hp4 Ht4].
  repeat split; try done;
    (apply Ht0 || apply Ht1 || apply Ht3 || apply Ht4); lia.
Qed.

Lemma Uncategorized_trimmed : trimmed Uncategorized.
Proof. split; reflexivity. Qed.

(** Every row of every entry of a parsed document is clean, and every
    title and every category is free of white space at both ends. *)
Theorem parsed_fields_clean md :
  ∃ r,
    parseMarkdown md = Ok r ∧
    Forall (λ e, trimmed (title e) ∧ trimmed (category e) ∧
                 Forall clean_row (rows e)) (entries r).
Proof.
  destruct (parseMarkdown_spec md)
    as (lines & r & _ & Hr & _ & (idxs & Hes & _) & _).
  exists r. split; [done|]. apply Forall_forall. intros e He.
  apply list_elem_of_lookup in He as [n Hn].
  destruct (Forall2_lookup_r _ _ _ _ _ Hes Hn)
    as (i & _ & line & j & Hline & Ht & Hnear & _ & Hrows).
  split; [|split].
  - unfold h3_title in Ht. destruct (String_match line re_h3) as [m|]; [|done].
    destruct (m_group1 m) as [t|]; [|done]. injection Ht as <-.
    apply String_trim_trimmed.
  - destruct Hnear as [(k & l & _ & _ & Hc & _)|[-> _]];
      [|apply Uncategorized_trimmed].
    unfold h2_text in Hc. destruct (String_match l re_h2) as [m|]; [|done].
    destruct (m_group1 m) as [t|]; [|done]. injection Hc as <-.
    apply String_trim_trimmed.
  - rewrite Hrows. apply Forall_forall. intros row Hrow.
    unfold rows_of in Hrow. apply list_elem_of_omap in Hrow as (l & _ & Hl).
    by eapply row_of_line_clean.
Qed.

(** ** The lines of a document *)

Lemma re_newline_at s q :
  rmatch s re_newline q None (λ e _, Some e)
  = match drop q s with
    | c :: rest =>
        if chr_eq c_lf c then Some (S q)
        else if chr_eq c_cr c then
          match rest with
          | d :: _ => if chr_eq c_lf d then Some (S (S q)) else None
          | [] => None
          end
        else None
    | [] => None
    end.
Proof.
  unfold re_newline, ROpt. cbn [rmatch].
  destruct (drop q s) as [|c rest] eqn:Hdrop.
  - assert (s !! q = None) as ->; [|done].
    apply lookup_ge_None. pose proof (length_drop s q) as Hl.
    rewrite Hdrop in Hl. simpl in Hl. lia.
  - destruct (drop_cons_inv _ _ _ _ Hdrop) as [Hrest ->].
    destruct (chr_eq c_lf c) eqn:Hlf.
    + apply chr_eq_true in Hlf as ->. done.
    + destruct (chr_eq c_cr c) eqn:Hcr; [|done].
      destruct rest as [|d rest'].
      * assert (s !! S q = None) as ->; [|done].
        apply lookup_ge_None. pose proof (length_drop s (S q)) as Hl.
        rewrite Hrest in Hl. simpl in Hl. lia.
      * destruct (drop_cons_inv _ _ _ _ Hrest) as [_ ->].
        by destruct (chr_eq c_lf d).
Qed.

Lemma split_lines_loop s : ∀ fuel rest pre cur acc,
  s = pre ++ cur ++ rest →
  length rest < fuel →
  ∃ p q acc',
    while_loop fuel (split_body re_newline s)
      (length pre, length pre + length cur, acc) = Ok (p, q, acc') ∧
    acc' ++ [substring p (length s) s] = acc ++ lines_from cur rest.
Proof.
  induction fuel as [|fuel IH]; intros rest pre cur acc Hs Hfuel; [lia|].
  assert (Hdrop : drop (length pre + length cur) s = rest).
  { rewrite Hs, app_assoc, <- length_app. by rewrite drop_app_length. }
  assert (Hcur : ∀ n, n = length pre + length cur →
             substring (length pre) n s = cur).
  { intros n ->. unfold substring. rewrite Hs, drop_app_length.
    replace (length pre + length cur - length pre) with (length cur) by lia.
    by rewrite take_app_length. }
  assert (Hlen : length s = length pre + length cur + length rest).
  { rewrite Hs, !length_app. lia. }
  pose proof (eq_refl (split_body re_newline s
                         (length pre, length pre + length cur, acc))) as Hbody.
  unfold split_body at 2 in Hbody. rewrite re_newline_at, Hdrop in Hbody.
  assert (Hmore : ∀ c, s = pre ++ (cur ++ [c]) ++ drop 1 rest →
            length (drop 1 rest) < fuel →
            lines_from (cur ++ [c]) (drop 1 rest) = lines_from cur rest →
            split_body re_newline s (length pre, length pre + length cur, acc)
            = Ok (Continue (length pre, S (length pre + length cur), acc)) →
            ∃ p q acc',
              while_loop (S fuel) (split_body re_newline s)
                (length pre, length pre + length cur, acc) = Ok (p, q, acc') ∧
              acc' ++ [substring p (length s) s] = acc ++ lines_from cur rest).
  { intros c Hs' Hfuel' Hlines Hstep.
    rewrite (while_loop_continue _ _ _ _ Hstep), <- Hlines.
    destruct (IH (drop 1 rest) pre (cur ++ [c]) acc Hs' Hfuel')
      as (p & q & acc' & Hrun & Hres).
    rewrite length_app in Hrun. simpl in Hrun.
    rewrite Nat.add_1_r, Nat.add_succ_r in Hrun. eauto. }
  assert (Hnext : ∀ sep rest',
            s = (pre ++ cur ++ sep) ++ [] ++ rest' →
            length rest' < fuel →
            cur :: lines_from [] rest' = lines_from cur rest →
            split_body re_newline s (length pre, length pre + length cur, acc)
            = Ok (Continue (length pre + length cur + length sep,
                            length pre + length cur + length sep,
                            acc ++ [cur])) →
            ∃ p q acc',
              while_loop (S fuel) (split_body re_newline s)
                (length pre, length pre + length cur, acc) = Ok (p, q, acc') ∧
              acc' ++ [substring p (length s) s] = acc ++ lines_from cur rest).
  { intros sep rest' Hs' Hfuel' Hlines Hstep.
    rewrite (while_loop_continue _ _ _ _ Hstep), <- Hlines.
    destruct (IH rest' (pre ++ cur ++ sep) [] (acc ++ [cur]) Hs' Hfuel')
      as (p & q & acc' & Hrun & Hres).
    rewrite !length_app in Hrun. simpl in Hrun.
    rewrite Nat.add_0_r, !Nat.add_assoc in Hrun.
    exists p, q, acc'. split; [exact Hrun|]. by rewrite Hres, <- app_assoc. }
  destruct rest as [|c rest].
  - simpl in Hlen. rewrite (proj2 (Nat.ltb_ge _ _)) in Hbody by lia.
    rewrite (while_loop_break _ _ _ _ Hbody).
    eexists _, _, _. split; [done|]. f_equal. cbn [lines_from]. f_equal.
    apply Hcur. lia.
  - simpl in Hlen, Hfuel. rewrite (proj2 (Nat.ltb_lt _ _)) in Hbody by lia.
    cbn [drop] in Hmore. rewrite drop_0 in Hmore.
    destruct (chr_eq c_lf c) eqn:Hlf.
    { apply (Hnext [c] rest).
      - rewrite Hs, <- !app_assoc. done.
      - lia.
      - cbn [lines_from]. by rewrite Hlf.
      - rewrite Hbody, Nat.min_l by lia.
        rewrite (proj2 (Nat.eqb_neq _ _)) by lia.
        rewrite (Hcur _ eq_refl). simpl. by rewrite Nat.add_1_r. }
    destruct (chr_eq c_cr c) eqn:Hcr.
    + destruct rest as [|d rest].
      * apply (Hmore c).
        -- rewrite Hs, <- !app_assoc. done.
        -- simpl. lia.
        -- cbn [lines_from]. by rewrite Hlf, Hcr.
        -- done.
      * destruct (chr_eq c_lf d) eqn:Hd.
        -- apply (Hnext [c; d] rest).
           ++ rewrite Hs, <- !app_assoc. done.
           ++ simpl in Hfuel. lia.
           ++ cbn [lines_from]. by rewrite Hlf, Hcr, Hd.
           ++ simpl in Hlen. rewrite Hbody, Nat.min_l by lia.
              rewrite (proj2 (Nat.eqb_neq _ _)) by lia.
              rewrite (Hcur _ eq_refl). simpl.
              replace (length pre + length cur + 2)
                with (S (S (length pre + length cur))) by lia. done.
        -- apply (Hmore c).
           ++ rewrite Hs, <- !app_assoc. done.
           ++ simpl in *. lia.
           ++ cbn [lines_from]. by rewrite Hlf, Hcr, Hd.
           ++ done.
    + apply (Hmore c).
      * rewrite Hs, <- !app_assoc. done.
      * lia.
      * cbn [lines_from]. by rewrite Hlf, Hcr.
      * done.
Qed.

(** [split(/\r?\n/)] reads the lines from the left. *)
Lemma String_split_re_newline md :
  String_split_re md re_newline = Ok (split_lines md).
Proof.
  unfold String_split_re, split_lines. destruct md as [|c md]; [done|].
  cbn [length Nat.eqb].
  destruct (split_lines_loop (c :: md) (2 * S (length md) + 2) (c :: md) [] [] [])
    as (p & q & acc' & Hrun & Hres); [done|simpl; lia|].
  change (while_loop (2 * S (length md) + 2) (split_body re_newline (c :: md))
            (0, 0, []) = Ok (p, q, acc')) in Hrun.
  rewrite Hrun. cbn [mbind outcome_bind]. f_equal. exact Hres.
Qed.

Lemma lines_from_facts : ∀ n rest cur,
  length rest ≤ n → c_lf ∉ cur →
  Forall (λ l, c_lf ∉ l) (lines_from cur rest) ∧
  length (lines_from cur rest) = S (length (filter (λ c, c = c_lf) rest)).
Proof.
  assert (Hnil : c_lf ∉ @nil N) by apply not_elem_of_nil.
  assert (Hsnoc : ∀ cur c, c_lf ∉ cur → chr_eq c_lf c = false →
            c_lf ∉ cur ++ [c]).
  { intros cur c Hcur Hc [Hin|Hin%list_elem_of_singleton]%elem_of_app; [done|].
    subst c. by rewrite (proj2 (chr_eq_true _ _) eq_refl) in Hc. }
  assert (Hne : ∀ c, chr_eq c_lf c = false → c ≠ c_lf).
  { intros c Hc ->. by rewrite (proj2 (chr_eq_true _ _) eq_refl) in Hc. }
  induction n as [|n IH]; intros rest cur Hn Hcur.
  { destruct rest; [|simpl in Hn; lia]. simpl. split; [by constructor|done]. }
  destruct rest as [|c rest]; [simpl; split; [by constructor|done]|].
  simpl in Hn. cbn [lines_from]. rewrite filter_cons.
  destruct (chr_eq c_lf c) eqn:Hlf.
  { apply chr_eq_true in Hlf as ->. rewrite decide_True by done.
    destruct (IH rest [] ltac:(lia) Hnil) as [Hall Hlen].
    split; [by constructor|]. simpl. by rewrite Hlen. }
  rewrite decide_False by by apply Hne.
  destruct (chr_eq c_cr c) eqn:Hcr; [|apply IH; [lia|by apply Hsnoc]].
  destruct rest as [|d rest]; [apply IH; [simpl; lia|by apply Hsnoc]|].
  destruct (chr_eq c_lf d) eqn:Hd; [|apply IH; [simpl in *; lia|by apply Hsnoc]].
  apply chr_eq_true in Hd as ->. rewrite filter_cons, decide_True by done.
  simpl in Hn. destruct (IH rest [] ltac:(lia) Hnil) as [Hall Hlen].
  split; [by constructor|]. simpl. by rewrite Hlen.
Qed.

(** A line that holds no line feed is read up to its end, unless it ends
    with a carriage return that a line feed follows. *)
Lemma lines_from_line l : ∀ cur rest,
  c_lf ∉ l →
  (last l = Some c_cr → head rest ≠ Some c_lf) →
  lines_from cur (l ++ rest) = lines_from (cur ++ l) rest.
Proof.
  induction l as [|c l IH]; intros cur rest Hl Hlast.
  { by rewrite app_nil_r. }
  assert (chr_eq c_lf c = false) as Hc.
  { destruct (chr_eq c_lf c) eqn:Hc; [|done]. apply chr_eq_true in Hc as ->.
    destruct Hl. left. }
  assert (lines_from cur ((c :: l) ++ rest)
          = lines_from (cur ++ [c]) (l ++ rest)) as ->.
  { cbn [app lines_from]. rewrite Hc.
    destruct (chr_eq c_cr c) eqn:Hcr; [|done].
    apply chr_eq_true in Hcr as ->.
    destruct l as [|d l]; simpl.
    - destruct rest as [|d rest]; [done|].
      destruct (chr_eq c_lf d) eqn:Hd; [|done].
      apply chr_eq_true in Hd as ->. by destruct Hlast.
    - destruct (chr_eq c_lf d) eqn:Hd; [|done].
      apply chr_eq_true in Hd as ->. destruct Hl. right. left. }
  rewrite IH, <- app_assoc; [done| |].
  - intros Hin. apply Hl. by right.
  - intros Hl'. apply Hlast. destruct l; [done|]. exact Hl'.
Qed.

Lemma plain_line_next l cur sep rest :
  plain_line l →
  sep = [c_lf] ∨ sep = [c_cr; c_lf] →
  lines_from cur (l ++ sep ++ rest) = (cur ++ l) :: lines_from [] rest.
Proof.
  intros [Hlf Hcr] Hsep. rewrite lines_from_line; [|done|done].
  by destruct Hsep as [-> | ->].
Qed.

Lemma lines_from_joined sep : sep = [c_lf] ∨ sep = [c_cr; c_lf] →
  ∀ ls l cur, Forall plain_line (l :: ls) →
  lines_from cur (l ++ foldr (λ x acc, sep ++ x ++ acc) [] ls)
  = (cur ++ l) :: ls.
Proof.
  intros Hsep. induction ls as [|l2 ls IH]; intros l cur Hall.
  - simpl. apply Forall_cons in Hall as [[Hlf _] _].
    rewrite lines_from_line; [done|done|done].
  - apply Forall_cons in Hall as [Hl Hall]. cbn [foldr].
    rewrite (plain_line_next l cur sep _ Hl Hsep). f_equal.
    by rewrite IH.
Qed.

Lemma split_lines_join_lines ls :
  ls ≠ [] → Forall plain_line ls → split_lines (join_lines ls) = ls.
Proof.
  intros Hne Hall. destruct ls as [|l ls]; [done|].
  apply (lines_from_joined [c_lf] (or_introl eq_refl) ls l [] Hall).
Qed.

Lemma split_lines_join_crlf ls :
  ls ≠ [] → Forall plain_line ls → split_lines (join_crlf ls) = ls.
Proof.
  intros Hne Hall. destruct ls as [|l ls]; [done|].
  apply (lines_from_joined [c_cr; c_lf] (or_intror eq_refl) ls l [] Hall).
Qed.

(** Every line that [parseMarkdown] reads is free of line feeds, and
    there is one line more than there are line feeds in the document. *)
Theorem document_lines md :
  ∃ lines,
    String_split_re md re_newline = Ok lines ∧
    Forall (λ l, c_lf ∉ l) lines ∧
    length lines = S (length (filter (λ c, c = c_lf) md)).
Proof.
  exists (split_lines md). split; [apply String_split_re_newline|].
  apply (lines_from_facts (length md)); [done|apply not_elem_of_nil].
Qed.

(** Lines that hold no line feed and do not end with a carriage return
    are read back as they are, whether the document joins them with line
    feeds or with carriage return and line feed, and the two documents
    parse to the same result. *)
Theorem line_endings_round_trip ls :
  ls ≠ [] →
  Forall plain_line ls →
  String_split_re (join_lines ls) re_newline = Ok ls ∧
  String_split_re (join_crlf ls) re_newline = Ok ls ∧
  parseMarkdown (join_lines ls) = parseLines (S (length ls)) ls ∧
  parseMarkdown (join_crlf ls) = parseMarkdown (join_lines ls).
Proof.
  intros Hne Hall. unfold parseMarkdown.
  rewrite !String_split_re_newline, split_lines_join_lines,
    split_lines_join_crlf by done.
  done.
Qed.

Lemma line_endings_round_trip_witness :
  String_split_re (join_lines lines_tokens) re_newline = Ok lines_tokens ∧
  String_split_re (join_crlf lines_tokens) re_newline = Ok lines_tokens ∧
  parseMarkdown (join_lines lines_tokens)
  = parseLines (S (length lines_tokens)) lines_tokens ∧
  parseMarkdown (join_crlf lines_tokens)
  = parseMarkdown (join_lines lines_tokens).
Proof.
  apply (line_endings_round_trip lines_tokens); [done|].
  unfold plain_line. apply (bool_decide_unpack _). vm_compute. exact I.
Defined.

(** ** Rows written cell by cell *)

(** [\s*$] in front of any continuation. *)
Lemma greedy_space_to_end {R} input (k : nat → option jsstring → option R) :
  ∀ rest pos cap,
  drop pos input = rest → pos ≤ length input →
  greedy_class cls_space (λ e cap', rmatch input REol e cap' k) rest pos cap
  = if forallb cls_space rest then k (length input) cap else None.
Proof.
  induction rest as [|c rest IH]; intros pos cap Hdrop Hpos.
  - cbn [greedy_class forallb rmatch].
    assert (length input ≤ pos).
    { pose proof (length_drop input pos) as Hl. rewrite Hdrop in Hl.
      simpl in Hl. lia. }
    assert (pos = length input) as -> by lia. by rewrite Nat.eqb_refl.
  - destruct (drop_cons_inv _ _ _ _ Hdrop) as [Hrest Hc].
    apply lookup_lt_Some in Hc.
    cbn [greedy_class forallb]. rewrite (IH (S pos) cap Hrest) by lia.
    cbn [rmatch]. rewrite (proj2 (Nat.eqb_neq pos (length input))) by lia.
    destruct (cls_space c); [|done]. simpl.
    destruct (forallb cls_space rest); [|done]. by destruct (k _ _).
Qed.

Lemma re_pipe_end_at input q :
  rmatch input re_pipe_end q None (λ e cap, Some (mkMatch q e cap))
  = match drop q input with
    | c :: rest =>
        if chr_eq c_pipe c && forallb cls_space rest
        then Some (mkMatch q (length input) None) else None
    | [] => None
    end.
Proof.
  unfold re_pipe_end.
  change (rmatch input (RSeq ?a ?b) q None ?k)
    with (rmatch input a q None (λ pos' cap', rmatch input b pos' cap' k)).
  rewrite rmatch_RChar.
  destruct (drop q input) as [|c rest] eqn:Hdrop; [done|].
  destruct (drop_cons_inv _ _ _ _ Hdrop) as [Hrest Hc].
  apply lookup_lt_Some in Hc.
  destruct (chr_eq c_pipe c); [|done].
  change (rmatch input (RSeq ?a ?b) (S q) None ?k)
    with (rmatch input a (S q) None (λ pos' cap', rmatch input b pos' cap' k)).
  rewrite rmatch_star_class, Hrest.
  rewrite (greedy_space_to_end input _ rest (S q) None Hrest) by lia.
  done.
Qed.

Lemma exec_from_pipe_end input : ∀ n start,
  start + n = length input →
  exec_from re_pipe_end input n start
  = (λ body, mkMatch (start + length body) (length input) None)
      <$> strip_pipe_end (drop start input).
Proof.
  induction n as [|n IH]; intros start Hlen; cbn [exec_from];
    rewrite re_pipe_end_at.
  - rewrite drop_ge by lia. done.
  - destruct (lookup_lt_is_Some_2 input start) as [c Hc]; [lia|].
    rewrite (drop_lookup_cons _ _ _ Hc). cbn [strip_pipe_end].
    destruct (chr_eq c_pipe c && forallb cls_space (drop (S start) input)).
    + simpl. by rewrite Nat.add_0_r.
    + rewrite IH by lia.
      destruct (strip_pipe_end (drop (S start) input)) as [body|]; [|done].
      simpl. do 2 f_equal. lia.
Qed.

Lemma strip_pipe_end_Some s body :
  strip_pipe_end s = Some body → ∃ w, s = body ++ c_pipe :: w ∧ all_space w.
Proof.
  revert body. induction s as [|c s IH]; intros body; cbn [strip_pipe_end];
    [done|].
  destruct (chr_eq c_pipe c && forallb cls_space s) eqn:Hc.
  - apply andb_true_iff in Hc as [->%chr_eq_true Hw%forallb_Forall].
    intros [= <-]. by exists s.
  - destruct (strip_pipe_end s) as [body'|]; [|done]. intros [= <-].
    destruct (IH body' eq_refl) as (w & -> & Hw). by exists w.
Qed.

(** The second [replace] of [splitMarkdownRow] cuts the row before the
    pipe that only white space follows. *)
Lemma String_replace_pipe_end s :
  String_replace_empty s re_pipe_end = default s (strip_pipe_end s).
Proof.
  unfold String_replace_empty, RegExp_exec.
  rewrite (exec_from_pipe_end s (length s) 0 eq_refl), drop_0.
  destruct (strip_pipe_end s) as [body|] eqn:Hbody; [|done].
  apply strip_pipe_end_Some in Hbody as (w & -> & _). simpl.
  by rewrite drop_all, app_nil_r, take_app_length.
Qed.

Lemma String_replace_pipe_start s :
  String_replace_empty (c_pipe :: s) re_pipe_start = s.
Proof.
  unfold String_replace_empty, re_pipe_start. rewrite exec_bol.
  by rewrite rmatch_RChar.
Qed.

Lemma space_not_pipe w : all_space w → c_pipe ∉ w.
Proof.
  intros Hw Hin. by apply (proj1 (Forall_forall _ _) Hw) in Hin.
Qed.

Lemma strip_pipe_end_last body w :
  all_space w → strip_pipe_end (body ++ c_pipe :: w) = Some body.
Proof.
  intros Hw. induction body as [|c body IH]; cbn [app strip_pipe_end].
  - by rewrite (proj2 (chr_eq_true _ _) eq_refl), (proj2 (forallb_Forall _ _) Hw).
  - rewrite forallb_app. simpl. rewrite !andb_false_r. by rewrite IH.
Qed.

Lemma strip_pipe_end_none x t :
  c_pipe ∉ t → ¬ all_space t → strip_pipe_end (x ++ t) = None.
Proof.
  intros Hpipe Hspace. induction x as [|c x IH]; cbn [app].
  - clear Hspace. induction t as [|c t IH]; [done|]. cbn [strip_pipe_end].
    destruct (chr_eq c_pipe c) eqn:Hc.
    { apply chr_eq_true in Hc as ->. destruct Hpipe. left. }
    simpl. rewrite IH; [done|]. intros ?. apply Hpipe. by right.
  - cbn [strip_pipe_end]. rewrite forallb_app.
    assert (forallb cls_space t = false) as ->.
    { destruct (forallb cls_space t) eqn:Ht; [|done].
      by apply forallb_Forall in Ht. }
    rewrite !andb_false_r. by rewrite IH.
Qed.

Lemma String_split_piece sep l rest cur r :
  sep ∉ l →
  String_split sep rest = cur :: r →
  String_split sep (l ++ rest) = (l ++ cur) :: r.
Proof.
  intros Hl Hrest. induction l as [|c l IH]; cbn [app]; [done|].
  rewrite String_split_cons.
  assert (chr_eq sep c = false) as ->.
  { destruct (chr_eq sep c) eqn:Hc; [|done]. apply chr_eq_true in Hc as ->.
    destruct Hl. left. }
  by rewrite IH by (intros ?; apply Hl; by right).
Qed.

Lemma String_split_join_cells cells :
  cells ≠ [] → Forall (λ c, c_pipe ∉ c) cells →
  String_split c_pipe (join_cells cells) = cells.
Proof.
  intros Hne Hall. destruct cells as [|c cs]; [done|]. clear Hne.
  cbn [join_cells]. revert c Hall.
  induction cs as [|c2 cs IH]; intros c Hall;
    apply Forall_cons in Hall as [Hc Hall]; cbn [foldr].
  - rewrite (String_split_piece c_pipe c [] [] []) by done.
    by rewrite app_nil_r.
  - rewrite (String_split_piece c_pipe c _ [] (c2 :: cs)); [|done|].
    + by rewrite app_nil_r.
    + rewrite String_split_cons.
      by rewrite (proj2 (chr_eq_true _ _) eq_refl), IH by done.
Qed.

(** The text of a row splits at its last cell. *)
Lemma join_cells_snoc cells c :
  cells ≠ [] → join_cells (cells ++ [c]) = join_cells cells ++ c_pipe :: c.
Proof.
  intros Hne. destruct cells as [|c0 cs]; [done|]. cbn [app join_cells].
  rewrite <- app_assoc. f_equal.
  induction cs as [|c1 cs IH]; cbn [app foldr]; [by rewrite app_nil_r|].
  by rewrite IH, <- app_assoc.
Qed.

(** A row written as a pipe, the cells joined by pipes, a closing pipe
    and white space gives its cells back, trimmed, with the Explorer cell
    replaced; so does the row without the closing pipe, when its last
    cell is not blank. *)
Theorem row_cells_round_trip cells w :
  cells ≠ [] →
  Forall (λ c, c_pipe ∉ c) cells →
  all_space w →
  splitMarkdownRow (c_pipe :: join_cells cells ++ c_pipe :: w)
  = imap clean_cell (String_trim <$> cells) ∧
  (∀ c, last cells = Some c → ¬ all_space c →
     splitMarkdownRow (c_pipe :: join_cells cells)
     = imap clean_cell (String_trim <$> cells)).
Proof.
  intros Hne Hall Hw. unfold splitMarkdownRow. cbv zeta. split.
  - rewrite String_replace_pipe_start, String_replace_pipe_end.
    rewrite strip_pipe_end_last by done. simpl.
    by rewrite String_split_join_cells.
  - intros c Hlast Hc.
    rewrite String_replace_pipe_start, String_replace_pipe_end.
    assert (strip_pipe_end (join_cells cells) = None) as ->;
      [|simpl; by rewrite String_split_join_cells].
    apply last_Some in Hlast as [init Hcells].
    assert (c_pipe ∉ c) as Hpipe.
    { apply (proj1 (Forall_forall _ _) Hall). rewrite Hcells.
      apply elem_of_app. right. left. }
    rewrite Hcells. destruct init as [|c0 init].
    + simpl. rewrite app_nil_r.
      by apply (strip_pipe_end_none [] c).
    + rewrite join_cells_snoc by done.
      rewrite (cons_middle c_pipe), app_assoc.
      by apply strip_pipe_end_none.
Qed.

Lemma row_cells_round_trip_witness :
  splitMarkdownRow
    (c_pipe :: join_cells [lit " mainnet "; lit " 0x1 "; lit " [x](http://e/1) ";
                           lit " () "; lit " 0x0 "] ++ c_pipe :: [c_space])
  = imap clean_cell
      (String_trim <$> [lit " mainnet "; lit " 0x1 "; lit " [x](http://e/1) ";
                        lit " () "; lit " 0x0 "]) ∧
  (∀ c, last [lit " mainnet "; lit " 0x1 "; lit " [x](http://e/1) ";
              lit " () "; lit " 0x0 "] = Some c →
     ¬ all_space c →
     splitMarkdownRow
       (c_pipe :: join_cells [lit " mainnet "; lit " 0x1 ";
                              lit " [x](http://e/1) "; lit " () "; lit " 0x0 "])
     = imap clean_cell
         (String_trim <$> [lit " mainnet "; lit " 0x1 "; lit " [x](http://e/1) ";
                           lit " () "; lit " 0x0 "])).
Proof.
  apply (row_cells_round_trip
           [lit " mainnet "; lit " 0x1 "; lit " [x](http://e/1) "; lit " () ";
            lit " 0x0 "] [c_space]).
  - done.
  - apply (bool_decide_unpack _). vm_compute. exact I.
  - unfold all_space. apply (bool_decide_unpack _). vm_compute. exact I.
Defined.

(** ** The lines [findNearestCategory] reads *)

(** [findNearestCategory] reads the lines above [index] only: it returns
    a trimmed text for every index up to the number of lines, the same
    text for every document with the same lines above [index], and it
    throws for every larger index. *)
Theorem findNearestCategory_domain lines index :
  (index ≤ length lines →
   ∃ c, findNearestCategory lines index = Ok c ∧ trimmed c ∧
     ∀ lines', take index lines' = take index lines →
       findNearestCategory lines' index = Ok c) ∧
  (length lines < index → findNearestCategory lines index = Throw).
Proof.
  split.
  - induction index as [|k IH]; intros Hlen.
    + exists Uncategorized. split; [done|]. split; [|done].
      apply Uncategorized_trimmed.
    + destruct (lookup_lt_is_Some_2 lines k) as [line Hline]; [lia|].
      destruct IH as (c0 & Hrun0 & Htrim0 & Hsame0); [lia|].
      rewrite (findNearestCategory_S _ _ _ Hline).
      assert (Hframe : ∀ lines', take (S k) lines' = take (S k) lines →
                lines' !! k = Some line ∧ take k lines' = take k lines).
      { intros lines' Heq. split.
        - rewrite <- (lookup_take_lt lines' (S k) k), Heq by lia.
          by rewrite lookup_take_lt by lia.
        - apply (f_equal (take k)) in Heq.
          by rewrite !take_take, Nat.min_l in Heq by lia. }
      destruct (h2_text line) as [c|] eqn:Hc.
      * exists c. split; [done|]. split.
        -- unfold h2_text in Hc.
           destruct (String_match line re_h2) as [m|]; [|done].
           destruct (m_group1 m) as [t|]; [|done]. injection Hc as <-.
           apply String_trim_trimmed.
        -- intros lines' [Hl' _]%Hframe.
           by rewrite (findNearestCategory_S _ _ _ Hl'), Hc.
      * exists c0. split; [done|]. split; [done|].
        intros lines' [Hl' Htake]%Hframe.
        rewrite (findNearestCategory_S _ _ _ Hl'), Hc. by apply Hsame0.
  - intros Hlen. destruct index as [|k]; [lia|]. cbn [findNearestCategory].
    by rewrite (proj2 (lookup_ge_None lines k)) by lia.
Qed.

(** ** The handlers *)

Lemma split_lines_length md : length (split_lines md) ≤ S (length md).
Proof.
  destruct (lines_from_facts (length md) md []) as [_ Hlen];
    [done|apply not_elem_of_nil|].
  unfold split_lines. rewrite Hlen. apply le_n_S, length_filter.
Qed.

Lemma load_result text state :
  ∃ r, parseMarkdown text = Ok r ∧
    load text state
    = Ok (mkState text (entries r) (networks r) (categories r)
            (st_search state) (st_filter_network state)
            (st_filter_category state) (st_view state)) ∧
    networks r = networks_of (all_rows (entries r)) ∧
    (∀ e, e ∈ entries r → category e ∈ categories r).
Proof.
  destruct (parseMarkdown_spec text)
    as (lines & r & Hlines & Hr & Hfuel & _ & Hnets & Hcats & _).
  exists r. split; [done|]. split; [|done].
  unfold load, parseAndRender. cbn [st_rawMarkdown]. rewrite Hfuel; [done|].
  rewrite String_split_re_newline in Hlines. injection Hlines as <-.
  pose proof (split_lines_length text). lia.
Qed.

Lemma handle_in_sync ev state :
  in_sync state → ∃ state', handle ev state = Ok state' ∧ in_sync state'.
Proof.
  intros (r & Hr & He & Hn & Hc & Hs).
  assert (Hload : ∀ text, ∃ state', load text state = Ok state' ∧ in_sync state').
  { intros text. destruct (load_result text state) as (r' & Hr' & -> & _).
    eexists. split; [done|]. by exists r'. }
  destruct ev as [[text|]|value|value|value|value|[text|]]; cbn [handle];
    try apply Hload; (eexists; split; [done|]); exists r; try done.
  cbn. repeat split; try done; apply String_trim_trimmed.
Qed.

Lemma handle_all_in_sync evs : ∀ state,
  in_sync state → ∃ state', handle_all evs state = Ok state' ∧ in_sync state'.
Proof.
  induction evs as [|ev evs IH]; intros state Hstate; cbn [handle_all].
  - by exists state.
  - destruct (handle_in_sync ev state Hstate) as (state1 & -> & Hstate1).
    by apply IH.
Qed.

(** Whatever events have been handled since the page was loaded, the
    handlers have returned, the entries and the facet sets of the state
    are those of parsing the markdown text of the state, and the search
    text is trimmed. *)
Theorem state_follows_document evs :
  ∃ state r,
    handle_all evs initial_state = Ok state ∧
    parseMarkdown (st_rawMarkdown state) = Ok r ∧
    st_entries state = entries r ∧
    st_networks state = networks r ∧
    st_categories state = categories r ∧
    trimmed (st_search state).
Proof.
  destruct (handle_all_in_sync evs initial_state)
    as (state & Hrun & r & Hr & Hrest).
  - exists (mkResult [] ∅ ∅). split; [by vm_compute|]. done.
  - by exists state, r.
Qed.

(** Reading a new document replaces the entries and the facet sets and
    keeps the search text and the two filter values; a filter value that
    is not in the facet set of the new document then hides every
    section. *)
Theorem load_keeps_filters (toLowerCase : jsstring → jsstring) text state :
  ∃ state' r,
    handle (FileChange (Some text)) state = Ok state' ∧
    handle (Fetched (Some text)) state = Ok state' ∧
    parseMarkdown text = Ok r ∧
    st_rawMarkdown state' = text ∧
    st_entries state' = entries r ∧
    st_networks state' = networks r ∧
    st_categories state' = categories r ∧
    st_search state' = st_search state ∧
    st_filter_network state' = st_filter_network state ∧
    st_filter_category state' = st_filter_category state ∧
    st_view state' = st_view state ∧
    (st_filter_network state ≠ [] →
     st_filter_network state ∉ networks r →
     render_filtered toLowerCase state' = []) ∧
    (st_filter_category state ≠ [] →
     st_filter_category state ∉ categories r →
     render_filtered toLowerCase state' = []).
Proof.
  destruct (load_result text state) as (r & Hr & Hload & Hnets & Hcats).
  eexists _, r. cbn [handle]. split; [exact Hload|]. split; [exact Hload|].
  split; [done|].
  cbn [st_rawMarkdown st_entries st_networks st_categories st_search
       st_filter_network st_filter_category st_view].
  assert (Hnone : ∀ state0, ¬ render_filtered toLowerCase state0 ≠ [] →
            render_filtered toLowerCase state0 = []).
  { intros state0 Hno. destruct (render_filtered toLowerCase state0); [done|].
    by destruct Hno. }
  repeat (split; [done|]). split.
  - intros Hne Hnot. apply Hnone.
    intros (e & row & He & Hrow & _ & Hshown)%render_filtered_nonempty.
    cbn in He, Hshown. apply Hnot. rewrite Hnets, elem_of_networks_of.
    split; [done|]. exists row. split; [apply list_elem_of_bind; eauto|].
    unfold row_shown in Hshown. cbn in Hshown.
    destruct (st_filter_network state) as [|a n]; [done|]. cbn in Hshown.
    destruct (bool_decide (network row = a :: n)) eqn:Hb; [|done].
    by apply bool_decide_eq_true in Hb.
  - intros Hne Hnot. apply Hnone.
    intros (e & row & He & _ & Hcat & _)%render_filtered_nonempty.
    cbn in He, Hcat. apply Hnot.
    destruct (st_filter_category state) as [|a c]; [done|]. cbn in Hcat.
    apply bool_decide_eq_true in Hcat. rewrite <- Hcat. by apply Hcats.
Qed.

(** ** The markup of a table row *)

Lemma escapeAttr_text s : escapeAttr (Some s) = Ok (s ≫= escape_char).
Proof.
  unfold escapeAttr. rewrite escapeHtml_text. simpl.
  rewrite String_replace_all_char. f_equal.
  apply replace_chars_none, Forall_forall. intros x Hx.
  destruct (chr_eq c_quot x) eqn:Hq; [|done].
  apply chr_eq_true in Hq as ->. by apply escape_text_plain in Hx.
Qed.

Lemma count_char_app c s t :
  count_char c (s ++ t) = count_char c s + count_char c t.
Proof. unfold count_char. by rewrite filter_app, length_app. Qed.

Lemma count_char_none c s : c ∉ s → count_char c s = 0.
Proof.
  intros Hc. unfold count_char. induction s as [|x s IH]; [done|].
  rewrite filter_cons, decide_False.
  - apply IH. intros ?. apply Hc. by right.
  - intros ->. apply Hc. left.
Qed.

Lemma count_char_escaped c s :
  html_special c = true → c ≠ c_amp → count_char c (s ≫= escape_char) = 0.
Proof. intros Hc Hamp. by apply count_char_none, escape_text_plain. Qed.

Lemma explorer_link_text r :
  explorer_link r
  = if String_startsWith (explorer r) (lit "http") then
      Ok (lit "<a href=" ++ [c_quot] ++ (explorer r ≫= escape_char) ++ [c_quot]
          ++ lit " target=" ++ [c_quot] ++ lit "_blank" ++ [c_quot]
          ++ lit " rel=" ++ [c_quot] ++ lit "noreferrer" ++ [c_quot]
          ++ lit ">open</a>")
    else Ok [].
Proof.
  unfold explorer_link. rewrite escapeAttr_text.
  destruct (explorer r) as [|x s]; [done|]. cbn [truthy andb].
  by destruct (String_startsWith (x :: s) (lit "http")).
Qed.

(** The contents of a row add no markup: the text given to
    [tr.innerHTML] by [renderBigTable] and by [openEntryModal] holds no
    apostrophe, and its numbers of [<], of [>] and of double quotes are
    those of the template, which depend only on whether the Explorer field
    starts with [http]. *)
Theorem row_markup_counts entry r :
  let link := String_startsWith (explorer r) (lit "http") in
  ∃ big modal,
    big_table_row entry r = Ok big ∧
    modal_row r = Ok modal ∧
    count_char c_lt big = (if link then 16 else 14) ∧
    count_char c_gt big = (if link then 16 else 14) ∧
    count_char c_quot big = (if link then 8 else 2) ∧
    count_char c_apos big = 0 ∧
    count_char c_lt modal = (if link then 12 else 10) ∧
    count_char c_gt modal = (if link then 12 else 10) ∧
    count_char c_quot modal = (if link then 8 else 2) ∧
    count_char c_apos modal = 0.
Proof.
  intros link. unfold big_table_row, modal_row.
  rewrite !escapeHtml_text, explorer_link_text. fold link.
  destruct link; cbn [mbind outcome_bind]; eexists _, _;
    (split; [reflexivity|]); (split; [reflexivity|]);
    unfold td, td_addr;
    rewrite !count_char_app, !count_char_escaped by done;
    repeat split; reflexivity.
Qed.

(** ** Documents written from their entries *)

Lemma splitMarkdownRow_joined cells w :
  cells ≠ [] → Forall (λ c, c_pipe ∉ c) cells → all_space w →
  splitMarkdownRow (c_pipe :: join_cells cells ++ c_pipe :: w)
  = imap clean_cell (String_trim <$> cells).
Proof.
  intros Hne Hall Hw. unfold splitMarkdownRow. cbv zeta.
  rewrite String_replace_pipe_start, String_replace_pipe_end.
  rewrite strip_pipe_end_last by done. simpl.
  by rewrite String_split_join_cells.
Qed.

Lemma first_group_skip pre s :
  c_lpar ∉ pre → first_group (pre ++ s) = first_group s.
Proof.
  induction pre as [|c pre IH]; intros Hpre; [done|].
  cbn [app first_group group_here].
  assert (chr_eq c_lpar c = false) as ->.
  { destruct (chr_eq c_lpar c) eqn:Hc; [|done]. apply chr_eq_true in Hc as ->.
    destruct Hpre. left. }
  apply IH. intros ?. apply Hpre. by right.
Qed.

Lemma first_group_here u post :
  u ≠ [] → c_rpar ∉ u → first_group (c_lpar :: u ++ c_rpar :: post) = Some u.
Proof.
  intros Hu Hr. cbn [first_group].
  assert (group_here (c_lpar :: u ++ c_rpar :: post) = Some u) as ->; [|done].
  apply group_here_Some. by exists post.
Qed.

Lemma all_space_one : all_space [c_space].
Proof. by repeat constructor. Qed.

Lemma trim_padded f :
  trimmed f → String_trim ([c_space] ++ f ++ [c_space]) = f.
Proof.
  intros Hf.
  rewrite String_trim_app_l, String_trim_app_r by apply all_space_one.
  by apply trimmed_String_trim.
Qed.

Lemma link_trimmed u : trimmed (lit "[link](" ++ u ++ lit ")").
Proof.
  split; [done|]. rewrite !reverse_app. done.
Qed.

Lemma clean_cell_link u :
  link_text u →
  clean_cell 2 (String_trim ([c_space] ++ (lit "[link](" ++ u ++ lit ")")
                             ++ [c_space]))
  = u.
Proof.
  intros (Hne & Hr & _). rewrite (trim_padded _ (link_trimmed u)).
  rewrite explorer_cell_first_group.
  change (lit "[link](" ++ u ++ lit ")")
    with (lit "[link]" ++ c_lpar :: u ++ c_rpar :: []).
  rewrite first_group_skip, first_group_here; [done..|].
  apply (bool_decide_unpack _). vm_compute. exact I.
Qed.

Lemma row_line_cells r :
  row_line r
  = c_pipe :: join_cells
      [ [c_space] ++ network r ++ [c_space];
        [c_space] ++ address r ++ [c_space];
        [c_space] ++ (lit "[link](" ++ explorer r ++ lit ")") ++ [c_space];
        [c_space] ++ args r ++ [c_space];
        [c_space] ++ salt r ++ [c_space] ] ++ c_pipe :: [].
Proof.
  unfold row_line, join_cells. cbn [foldr].
  change (lit "| ") with [c_pipe; c_space].
  change (lit " | ") with [c_space; c_pipe; c_space].
  change (lit " | [link](") with ([c_space; c_pipe; c_space] ++ lit "[link](").
  change (lit ") | ") with (lit ")" ++ [c_space; c_pipe; c_space]).
  change (lit " |") with [c_space; c_pipe].
  repeat (progress (rewrite <- ?app_assoc; cbn [app])). reflexivity.
Qed.

Lemma padded_no_pipe f : c_pipe ∉ f → c_pipe ∉ [c_space] ++ f ++ [c_space].
Proof.
  intros Hf. rewrite !not_elem_of_app. repeat split; [|done|];
    apply (bool_decide_unpack _); vm_compute; exact I.
Qed.

(** The line of a row is read back as the row. *)
Lemma row_of_line_row_line r :
  printable_row r → row_of_line (row_line r) = Some r.
Proof.
  intros ((Hn & Hnp & _) & (Ha & Hap & _) & Hu & (Hg & Hgp & _) & (Hs & Hsp & _)).
  unfold row_of_line. rewrite row_line_cells.
  rewrite splitMarkdownRow_joined; [|done| |constructor].
  2:{ repeat (apply Forall_cons; split); [..|constructor];
        try (by apply padded_no_pipe).
      apply padded_no_pipe. destruct Hu as (_ & _ & Hup & _).
      rewrite !not_elem_of_app. repeat split; [|done|];
        apply (bool_decide_unpack _); vm_compute; exact I. }
  cbn [fmap list_fmap imap compose row_of_cells].
  rewrite (trim_padded _ Hn), (trim_padded _ Ha), (trim_padded _ Hg),
    (trim_padded _ Hs), (clean_cell_link _ Hu).
  by destruct r.
Qed.

Lemma all_dot_plain t : all_dot t → (c_lf ∉ t) ∧ (c_cr ∉ t).
Proof.
  intros Ht. split; intros Hin;
    apply (proj1 (Forall_forall _ _) Ht) in Hin; by vm_compute in Hin.
Qed.

Lemma heading_line_plain marker t :
  c_lf ∉ marker → heading_text t → plain_line (marker ++ t).
Proof.
  intros Hm (Hne & Hdot & _). destruct (all_dot_plain t Hdot) as [Hlf Hcr].
  split; [by rewrite not_elem_of_app|].
  rewrite last_app. destruct (last t) as [x|] eqn:Hl.
  - intros [= ->]. by apply Hcr, last_Some_elem_of.
  - by apply last_None in Hl.
Qed.

Lemma row_line_plain r : printable_row r → plain_line (row_line r).
Proof.
  intros ((_ & _ & Hn) & (_ & _ & Ha) & (_ & _ & _ & Hu) & (_ & _ & Hg)
          & (_ & _ & Hs)).
  unfold row_line. split.
  - rewrite !not_elem_of_app.
    repeat split; try assumption;
      apply (bool_decide_unpack _); vm_compute; exact I.
  - change (lit " |") with ([c_space] ++ [c_pipe]).
    rewrite !app_assoc, last_snoc. done.
Qed.

Lemma block_lines_plain b : printable b → Forall plain_line (block_lines b).
Proof.
  assert (Hclosed : ∀ m : jsstring, bool_decide (c_lf ∉ m) = true → c_lf ∉ m).
  { intros m Hm. by apply bool_decide_eq_true in Hm. }
  destruct b as [c|t rs]; cbn [printable block_lines].
  - intros Hc. repeat constructor; by apply heading_line_plain; [apply Hclosed|].
  - intros [Ht Hrs]. apply Forall_cons. split.
    { by apply heading_line_plain; [apply Hclosed|]. }
    apply Forall_cons. split.
    { unfold plain_line. apply (bool_decide_unpack _). vm_compute. exact I. }
    apply Forall_cons. split.
    { unfold plain_line. apply (bool_decide_unpack _). vm_compute. exact I. }
    apply Forall_fmap. eapply Forall_impl; [exact Hrs|].
    intros r Hr. by apply row_line_plain.
Qed.

Lemma heading_line_shape marker t :
  heading_text t →
  heading_shape marker (marker ++ [c_space] ++ t) [c_space] t [].
Proof.
  intros (Hne & Hdot & _). unfold heading_shape. rewrite app_nil_r.
  repeat split; [done|apply all_space_one|done|done|constructor].
Qed.

Lemma heading_line_text marker t :
  heading_text t →
  String_trim <$> heading_capture marker (marker ++ [c_space] ++ t) = Some t.
Proof.
  intros Ht. apply heading_text_Some. split.
  - exists [c_space], t, []. by apply heading_line_shape.
  - rewrite drop_app_length, String_trim_app_l by apply all_space_one.
    symmetry. apply trimmed_String_trim, Ht.
Qed.

Lemma h3_title_printed t : heading_text t → h3_title (lit "### " ++ t) = Some t.
Proof.
  intros Ht. rewrite h3_title_capture.
  apply (heading_line_text (lit "###") t Ht).
Qed.

Lemma h2_text_printed c : heading_text c → h2_text (lit "## " ++ c) = Some c.
Proof.
  intros Hc. rewrite h2_text_capture.
  apply (heading_line_text (lit "##") c Hc).
Qed.

Lemma h3_title_category_line c : h3_title (lit "## " ++ c) = None.
Proof.
  rewrite h3_title_capture. unfold heading_capture.
  by rewrite bool_decide_eq_false_2.
Qed.

Lemma h2_text_title_line t : h2_text (lit "### " ++ t) = None.
Proof.
  rewrite h2_text_capture. unfold heading_capture.
  by rewrite bool_decide_eq_true_2.
Qed.

Lemma h2_text_pipe s : h2_text (c_pipe :: s) = None.
Proof.
  rewrite h2_text_capture. unfold heading_capture.
  rewrite bool_decide_eq_false_2; [done|]. by destruct s.
Qed.

Lemma pipe_start_test line :
  RegExp_test re_pipe_start line
  = match line with c :: _ => chr_eq c_pipe c | [] => false end.
Proof.
  unfold RegExp_test, re_pipe_start. rewrite exec_bol, rmatch_RChar, drop_0.
  destruct line as [|c s]; [done|]. by destruct (chr_eq c_pipe c).
Qed.

Lemma table_lines_rows rs rest :
  table_lines rest = [] →
  table_lines ((row_line <$> rs) ++ rest) = row_line <$> rs.
Proof.
  intros Hrest. induction rs as [|r rs IH]; [done|].
  cbn [fmap list_fmap app table_lines]. rewrite pipe_start_test.
  change (list_fmap _ _ row_line rs) with (row_line <$> rs).
  by rewrite IH.
Qed.

Lemma table_lines_blocks bs : table_lines (bs ≫= block_lines) = [].
Proof.
  destruct bs as [|[c|t rs] bs]; [done|..]; rewrite bind_cons;
    cbn [block_lines app table_lines]; by rewrite pipe_start_test.
Qed.

Lemma rows_of_row_lines rs :
  Forall printable_row rs → rows_of (row_line <$> rs) = rs.
Proof.
  induction 1 as [|r rs Hr _ IH]; [done|].
  rewrite fmap_cons, rows_of_cons, (row_of_line_row_line r Hr), IH. done.
Qed.

Lemma header_below_printed pre h more :
  header_below (pre ++ h :: table_header :: more) (length pre)
  = Some (S (length pre)).
Proof.
  assert (Hdrop : drop (S (length pre)) (pre ++ h :: table_header :: more)
                  = table_header :: more).
  { rewrite (cons_middle h), app_assoc.
    replace (S (length pre)) with (length (pre ++ [h]))
      by (rewrite length_app; simpl; lia).
    by rewrite drop_app_length. }
  unfold header_below. rewrite Hdrop. cbn [skip_blank_from].
  assert (RegExp_test re_blank table_header = false) as -> by by vm_compute.
  destruct (drop_cons_inv _ _ _ _ Hdrop) as [_ ->].
  by assert (RegExp_test re_header table_header = true) as -> by by vm_compute.
Qed.

Lemma findNearestCategory_app pre rest : ∀ k,
  k ≤ length pre →
  findNearestCategory (pre ++ rest) k = findNearestCategory pre k.
Proof.
  induction k as [|k IH]; intros Hk; [done|].
  destruct (lookup_lt_is_Some_2 pre k) as [line Hline]; [lia|].
  rewrite (findNearestCategory_S pre _ _ Hline).
  rewrite (findNearestCategory_S (pre ++ rest) _ line)
    by by apply lookup_app_l_Some.
  by rewrite IH by lia.
Qed.

Lemma findNearestCategory_skip pre mid :
  Forall (λ l, h2_text l = None) mid →
  findNearestCategory (pre ++ mid) (length (pre ++ mid))
  = findNearestCategory pre (length pre).
Proof.
  induction mid as [|x mid IH] using rev_ind; intros Hall.
  { by rewrite app_nil_r. }
  apply Forall_app in Hall as [Hmid [Hx _]%Forall_cons].
  rewrite app_assoc, length_app. simpl. rewrite Nat.add_1_r.
  rewrite (findNearestCategory_S _ _ x), Hx.
  - rewrite findNearestCategory_app by done. by apply IH.
  - by rewrite lookup_app_r, Nat.sub_diag by done.
Qed.

Lemma block_lines_no_category t rs :
  Forall (λ l, h2_text l = None) (block_lines (SectionLines t rs)).
Proof.
  cbn [block_lines]. repeat (apply Forall_cons; split).
  - apply h2_text_title_line.
  - apply h2_text_pipe.
  - apply h2_text_pipe.
  - apply Forall_fmap, Forall_forall. intros r _. apply h2_text_pipe.
Qed.

(** The scan over the lines of a sequence of blocks: one turn for every
    block, and the turn that leaves the loop. *)
Lemma parse_blocks fuel lines :
  length lines < fuel →
  ∀ bs pre st cur n,
    lines = pre ++ (bs ≫= block_lines) →
    Forall printable bs →
    ls_i st = length pre →
    findNearestCategory pre (length pre) = Ok cur →
    length bs < n →
    ∃ st', while_loop n (parse_body fuel lines) st = Ok st' ∧
      ls_entries st' = ls_entries st ++ entries_of cur bs ∧
      ls_networks st'
      = ls_networks st ∪ networks_of (all_rows (entries_of cur bs)) ∧
      ls_categories st'
      = ls_categories st ∪ list_to_set (category <$> entries_of cur bs).
Proof.
  intros Hfuel.
  induction bs as [|b bs IH]; intros pre st cur n Hlines Hall Hi Hcat Hn.
  - destruct n as [|n]; [simpl in Hn; lia|].
    rewrite (while_loop_break _ _ _ st).
    2:{ apply parse_body_end. rewrite Hlines, Hi. simpl.
        by rewrite app_nil_r. }
    exists st. split; [done|]. split; [by rewrite app_nil_r|].
    change (networks_of (all_rows (entries_of cur []))) with (networks_of []).
    change (list_to_set (category <$> entries_of cur [])) with (∅ : gset (list N)).
    by rewrite networks_of_nil, !(right_id_L ∅ (∪)).
  - destruct n as [|n]; [lia|]. simpl in Hn.
    apply Forall_cons in Hall as [Hb Hall]. rewrite bind_cons in Hlines.
    destruct b as [c|t rs].
    + cbn [block_lines printable] in Hlines, Hb.
      assert (Hline : lines !! ls_i st = Some (lit "## " ++ c)).
      { rewrite Hlines, Hi. by apply list_lookup_middle. }
      rewrite (while_loop_continue _ _ _ _
                 (parse_body_plain fuel lines st _ Hline
                    (h3_title_category_line c))).
      destruct (IH (pre ++ [lit "## " ++ c])
                  (mkLoop (ls_i st + 1) (ls_entries st) (ls_networks st)
                     (ls_categories st)) c n)
        as (st' & Hrun & He & Hn' & Hc').
      * by rewrite Hlines, <- !app_assoc.
      * done.
      * simpl. rewrite length_app, Hi. done.
      * rewrite length_app. simpl. rewrite Nat.add_1_r.
        rewrite (findNearestCategory_S _ _ (lit "## " ++ c))
          by by apply list_lookup_middle.
        by rewrite h2_text_printed.
      * lia.
      * exists st'. done.
    + destruct Hb as [Ht Hrs].
      assert (Hshape : lines
                = pre ++ (lit "### " ++ t) :: table_header :: table_separator
                         :: (row_line <$> rs) ++ (bs ≫= block_lines)).
      { rewrite Hlines. cbn [block_lines]. by rewrite <- !app_assoc. }
      assert (Hline : lines !! ls_i st = Some (lit "### " ++ t)).
      { rewrite Hshape, Hi. by apply list_lookup_middle. }
      assert (Hcat' : findNearestCategory lines (ls_i st) = Ok cur).
      { by rewrite Hlines, Hi, findNearestCategory_app. }
      pose proof (parse_body_heading fuel lines st _ t cur Hfuel Hline
                    (h3_title_printed t Ht) Hcat') as Hbody.
      assert (Hhdr : header_below lines (ls_i st) = Some (S (length pre))).
      { rewrite Hshape, Hi. apply header_below_printed. }
      assert (Htbl : table_lines (drop (S (length pre) + 2) lines)
                     = row_line <$> rs).
      { rewrite Hshape.
        rewrite (cons_middle (lit "### " ++ t)), (cons_middle table_header),
          (cons_middle table_separator), !app_assoc.
        replace (S (length pre) + 2)
          with (length (((pre ++ [lit "### " ++ t]) ++ [table_header])
                        ++ [table_separator]))
          by (rewrite !length_app; simpl; lia).
        rewrite <- (app_assoc _ (row_line <$> rs)), drop_app_length.
        apply table_lines_rows, table_lines_blocks. }
      rewrite Hhdr in Hbody. cbv zeta in Hbody.
      rewrite Htbl, (rows_of_row_lines rs Hrs), length_fmap in Hbody.
      rewrite (while_loop_continue _ _ _ _ Hbody).
      destruct (IH (pre ++ block_lines (SectionLines t rs))
                  (mkLoop (S (length pre) + 2 + length rs)
                     (ls_entries st ++ [mkEntry cur t rs])
                     (ls_networks st ∪ networks_of rs)
                     ({[ cur ]} ∪ ls_categories st)) cur n)
        as (st' & Hrun & He & Hn' & Hc').
      * by rewrite Hlines, <- !app_assoc.
      * done.
      * cbn [ls_i block_lines]. rewrite !length_app, length_fmap. simpl. lia.
      * rewrite findNearestCategory_skip by apply block_lines_no_category.
        done.
      * lia.
      * exists st'. split; [done|]. simpl in He, Hn', Hc'.
        rewrite He, Hn', Hc'. cbn [entries_of fmap list_fmap category].
        split; [by rewrite <- app_assoc|]. split.
        -- unfold all_rows. rewrite bind_cons. cbn [rows].
           by rewrite networks_of_app, (assoc_L (∪)).
        -- set_solver.
Qed.

Lemma block_lines_length bs : length bs ≤ length (bs ≫= block_lines).
Proof.
  induction bs as [|b bs IH]; [done|]. rewrite bind_cons, length_app.
  destruct b; simpl in *; lia.
Qed.

(** The parser reads a document written from its entries back: for
    every sequence of category lines and sections whose texts can stand in
    a heading line, a cell or a link, [parseMarkdown] returns exactly the
    sections as entries, in order, each under the category in force, with
    the network values of all rows and the categories of all entries as
    the facet sets. *)
Theorem printed_document_parses bs :
  Forall printable bs →
  parseMarkdown (document_of bs)
  = Ok (mkResult (entries_of Uncategorized bs)
          (networks_of (all_rows (entries_of Uncategorized bs)))
          (list_to_set (category <$> entries_of Uncategorized bs))).
Proof.
  intros Hall. destruct bs as [|b bs]; [by vm_compute|].
  unfold parseMarkdown, document_of.
  rewrite String_split_re_newline, split_lines_join_lines.
  2:{ rewrite bind_cons. by destruct b. }
  2:{ apply Forall_bind. eapply Forall_impl; [exact Hall|].
      intros b0 Hb0. by apply block_lines_plain. }
  set (lines := (b :: bs) ≫= block_lines).
  change (Ok lines ≫= λ lines0, parseLines (S (length lines0)) lines0)
    with (parseLines (S (length lines)) lines).
  unfold parseLines.
  destruct (parse_blocks (S (length lines)) lines (Nat.lt_succ_diag_r _)
              (b :: bs) [] (mkLoop 0 [] ∅ ∅) Uncategorized (S (length lines)))
    as (st' & Hrun & He & Hn & Hc); [done..| |].
  { pose proof (block_lines_length (b :: bs)). fold lines in H. lia. }
  rewrite Hrun. simpl. simpl in He, Hn, Hc. rewrite He, Hn, Hc.
  by rewrite !(left_id_L ∅ (∪)).
Qed.

Lemma printed_document_parses_witness :
  parseMarkdown
    (document_of
       [CategoryLine (lit "Tokens");
        SectionLines (lit "MyToken")
          [mkRow (lit "mainnet") (lit "0x1") (lit "http://e/1") (lit "()")
             (lit "0x0");
           mkRow (lit "testnet") (lit "0x2") (lit "none") (lit "(1,2)") []]])
  = Ok (mkResult
          (entries_of Uncategorized
             [CategoryLine (lit "Tokens");
              SectionLines (lit "MyToken")
                [mkRow (lit "mainnet") (lit "0x1") (lit "http://e/1")
                   (lit "()") (lit "0x0");
                 mkRow (lit "testnet") (lit "0x2") (lit "none") (lit "(1,2)")
                   []]])
          (networks_of
             (all_rows
                (entries_of Uncategorized
                   [CategoryLine (lit "Tokens");
                    SectionLines (lit "MyToken")
                      [mkRow (lit "mainnet") (lit "0x1") (lit "http://e/1")
                         (lit "()") (lit "0x0");
                       mkRow (lit "testnet") (lit "0x2") (lit "none")
                         (lit "(1,2)") []]])))
          (list_to_set
             (category <$>
                entries_of Uncategorized
                  [CategoryLine (lit "Tokens");
                   SectionLines (lit "MyToken")
                     [mkRow (lit "mainnet") (lit "0x1") (lit "http://e/1")
                        (lit "()") (lit "0x0");
                      mkRow (lit "testnet") (lit "0x2") (lit "none")
                        (lit "(1,2)") []]]))).
Proof.
  apply (printed_document_parses
           [CategoryLine (lit "Tokens");
            SectionLines (lit "MyToken")
              [mkRow (lit "mainnet") (lit "0x1") (lit "http://e/1") (lit "()")
                 (lit "0x0");
               mkRow (lit "testnet") (lit "0x2") (lit "none") (lit "(1,2)")
                 []]]).
  repeat constructor; try done;
    apply (bool_decide_unpack _); vm_compute; exact I.
Defined.

(** ** The parser on the store of the page *)

Lemma store_same σ : mkStore (sto_page σ) (sto_regexps σ ++ []) = σ.
Proof. destruct σ. simpl. by rewrite app_nil_r. Qed.

Lemma returns_ret {A} (a : A) : returns (mret a) (Ok a).
Proof. intros σ. exists []. unfold mret, prog_ret. by rewrite store_same. Qed.

Lemma returns_on_store {A} (o : outcome A) : returns (on_store o) o.
Proof.
  intros σ. destruct o as [a| |]; simpl; [|done..].
  exists []. by rewrite store_same.
Qed.

Lemma returns_bind {A B} (m : prog A) (o : outcome A) (f : A → prog B)
    (g : A → outcome B) :
  returns m o → (∀ a, returns (f a) (g a)) → returns (m ≫= f) (o ≫= g).
Proof.
  intros Hm Hf σ. specialize (Hm σ).
  assert (Hrun : (m ≫= f) σ
                 = match m σ with
                   | Ok (a, σ') => f a σ'
                   | Throw => Throw
                   | OutOfFuel => OutOfFuel
                   end) by reflexivity.
  destruct o as [a| |]; simpl; rewrite Hrun; [|by rewrite Hm..].
  destruct Hm as [more ->].
  specialize (Hf a (mkStore (sto_page σ) (sto_regexps σ ++ more))).
  destruct (g a) as [b| |]; simpl in *; [|done..].
  destruct Hf as [more' ->]. exists (more ++ more'). by rewrite app_assoc.
Qed.

Lemma exec_literal r input σ :
  (R ← RegExp_literal r false; RegExp_exec_obj R input) σ
  = Ok (RegExp_exec r input,
        mkStore (sto_page σ) (sto_regexps σ ++ [mkRegExp r false 0])).
Proof.
  unfold mbind, prog_bind, RegExp_literal, RegExp_exec_obj. simpl.
  by rewrite list_lookup_middle.
Qed.

Lemma returns_match_literal input r :
  returns (String_match_literal input r) (Ok (String_match input r)).
Proof. intros σ. eexists. apply exec_literal. Qed.

Lemma returns_test_literal r input :
  returns (RegExp_test_literal r input) (Ok (RegExp_test r input)).
Proof.
  intros σ. eexists. unfold RegExp_test_literal, RegExp_test_obj.
  pose proof (exec_literal r input σ) as Hexec.
  unfold mbind, prog_bind in *. unfold RegExp_literal in *. simpl in *.
  destruct (RegExp_exec_obj _ _ _) as [[m σ']| |]; [|done..].
  injection Hexec as -> ->. done.
Qed.

Lemma returns_replace_literal input r :
  returns (String_replace_literal input r)
    (Ok (String_replace_empty input r)).
Proof.
  intros σ. eexists. unfold String_replace_literal, String_replace_empty.
  pose proof (exec_literal r input σ) as Hexec.
  unfold mbind, prog_bind in *. unfold RegExp_literal in *. simpl in *.
  destruct (RegExp_exec_obj _ _ _) as [[m σ']| |]; [|done..].
  injection Hexec as -> ->. done.
Qed.

Lemma returns_split_literal input r :
  returns (String_split_literal input r) (String_split_re input r).
Proof.
  intros σ. unfold String_split_literal, mbind, prog_bind, RegExp_literal.
  simpl. destruct (String_split_re input r) as [l| |]; simpl; [|done..].
  by eexists.
Qed.

Lemma returns_while_loop {St} (body_st : St → prog (ctl St))
    (body : St → outcome (ctl St)) :
  (∀ s, returns (body_st s) (body s)) →
  ∀ fuel s, returns (while_loop_st fuel body_st s) (while_loop fuel body s).
Proof.
  intros Hbody. induction fuel as [|fuel IH]; intros s.
  - apply (returns_on_store OutOfFuel).
  - cbn [while_loop_st while_loop]. apply returns_bind; [apply Hbody|].
    intros [s'|s']; [apply IH|apply returns_ret].
Qed.

Lemma returns_Array_map {A B} (l : list A) : ∀ (f : nat → A → prog B) g,
  (∀ i x, returns (f i x) (Ok (g i x))) →
  returns (Array_map_st f l) (Ok (imap g l)).
Proof.
  induction l as [|x l IH]; intros f g Hf; cbn [Array_map_st imap].
  - apply returns_ret.
  - apply (returns_bind _ (Ok (g 0 x)) _ (λ y, Ok (y :: imap (g ∘ S) l)));
      [apply Hf|].
    intros y.
    apply (returns_bind _ (Ok (imap (g ∘ S) l)) _ (λ ys, Ok (y :: ys))).
    + apply IH. intros i x0. apply Hf.
    + intros ys. apply returns_ret.
Qed.

Lemma returns_findNearestCategory lines : ∀ index,
  returns (findNearestCategory_st lines index) (findNearestCategory lines index).
Proof.
  induction index as [|k IH]; cbn [findNearestCategory_st findNearestCategory].
  - apply returns_ret.
  - apply returns_bind; [apply returns_on_store|]. intros line.
    apply (returns_bind _ (Ok (String_match line re_h2)) _
             (λ m, match m with
                   | Some m => t ← defined (m_group1 m); Ok (String_trim t)
                   | None => findNearestCategory lines k
                   end)); [apply returns_match_literal|].
    intros [m|]; [|apply IH].
    apply returns_bind; [apply returns_on_store|]. intros t. apply returns_ret.
Qed.

Lemma returns_clean_cell idx cell :
  returns (clean_cell_st idx cell) (Ok (clean_cell idx cell)).
Proof.
  unfold clean_cell_st, clean_cell. destruct (idx =? 2); [|apply returns_ret].
  apply (returns_bind _ (Ok (String_match cell re_paren)) _
           (λ m, Ok match m with
                    | Some m => default cell (m_group1 m)
                    | None => cell
                    end)); [apply returns_match_literal|].
  intros m. apply returns_ret.
Qed.

Lemma returns_splitMarkdownRow row :
  returns (splitMarkdownRow_st row) (Ok (splitMarkdownRow row)).
Proof.
  unfold splitMarkdownRow_st, splitMarkdownRow.
  apply (returns_bind _ (Ok (String_replace_empty row re_pipe_start)) _
           (λ s1, Ok (imap clean_cell
                        (String_trim <$>
                           String_split c_pipe
                             (String_replace_empty s1 re_pipe_end)))));
    [apply returns_replace_literal|].
  intros s1.
  apply (returns_bind _ (Ok (String_replace_empty s1 re_pipe_end)) _
           (λ s2, Ok (imap clean_cell (String_trim <$> String_split c_pipe s2))));
    [apply returns_replace_literal|].
  intros s2. apply returns_Array_map. apply returns_clean_cell.
Qed.

Lemma returns_skip_blank_body lines j :
  returns (skip_blank_body_st lines j) (skip_blank_body lines j).
Proof.
  unfold skip_blank_body_st, skip_blank_body.
  destruct (j <? length lines); [|apply returns_ret].
  apply returns_bind; [apply returns_on_store|]. intros line.
  apply (returns_bind _ (Ok (RegExp_test re_blank line)) _
           (λ b : bool, if b then Ok (Continue (S j)) else Ok (Break j)));
    [apply returns_test_literal|].
  intros [|]; apply returns_ret.
Qed.

Lemma returns_rows_body lines st :
  returns (rows_body_st lines st) (rows_body lines st).
Proof.
  destruct st as [[j rows] networks]. unfold rows_body_st, rows_body.
  destruct (j <? length lines); [|apply returns_ret].
  apply returns_bind; [apply returns_on_store|]. intros row.
  apply (returns_bind _ (Ok (RegExp_test re_pipe_start row)) _
           (λ pipe : bool,
              if negb pipe then Ok (Break (j, rows, networks))
              else
                let cells := splitMarkdownRow row in
                if 5 <=? length cells then
                  c0 ← defined (cells !! 0);
                  c1 ← defined (cells !! 1);
                  c2 ← defined (cells !! 2);
                  c3 ← defined (cells !! 3);
                  c4 ← defined (cells !! 4);
                  let obj := mkRow c0 c1 c2 c3 c4 in
                  let networks :=
                    if truthy (network obj) then {[ network obj ]} ∪ networks
                    else networks in
                  Ok (Continue (S j, rows ++ [obj], networks))
                else Ok (Continue (S j, rows, networks))));
    [apply returns_test_literal|].
  intros [|]; cbn [negb]; [|apply returns_ret].
  apply (returns_bind _ (Ok (splitMarkdownRow row)) _
           (λ cells,
              if 5 <=? length cells then
                c0 ← defined (cells !! 0);
                c1 ← defined (cells !! 1);
                c2 ← defined (cells !! 2);
                c3 ← defined (cells !! 3);
                c4 ← defined (cells !! 4);
                let obj := mkRow c0 c1 c2 c3 c4 in
                let networks :=
                  if truthy (network obj) then {[ network obj ]} ∪ networks
                  else networks in
                Ok (Continue (S j, rows ++ [obj], networks))
              else Ok (Continue (S j, rows, networks))));
    [apply returns_splitMarkdownRow|].
  intros cells. destruct (5 <=? length cells); [|apply returns_ret].
  do 5 (apply returns_bind; [apply returns_on_store|]; intros ?).
  apply returns_ret.
Qed.

Lemma returns_parse_body fuel lines st :
  returns (parse_body_st fuel lines st) (parse_body fuel lines st).
Proof.
  unfold parse_body_st, parse_body. cbv zeta.
  destruct (ls_i st <? length lines); [|apply returns_ret].
  apply returns_bind; [apply returns_on_store|]. intros line.
  apply (returns_bind _ (Ok (String_match line re_h3)) _
           (λ h3 : option MatchResult,
              match h3 with
              | Some h3 =>
                  t ← defined (m_group1 h3);
                  category ← findNearestCategory lines (ls_i st);
                  j ← while_loop fuel (skip_blank_body lines) (ls_i st + 1);
                  header ← (if j <? length lines
                            then l ← defined (lines !! j);
                                 Ok (RegExp_test re_header l)
                            else Ok false);
                  if header : bool then
                    '(j', rows, networks) ←
                      while_loop fuel (rows_body lines)
                        (j + 2, [], ls_networks st);
                    Ok (Continue
                          (mkLoop j'
                             (ls_entries st
                              ++ [mkEntry category (String_trim t) rows])
                             networks ({[ category ]} ∪ ls_categories st)))
                  else
                    Ok (Continue
                          (mkLoop (ls_i st + 1) (ls_entries st)
                             (ls_networks st)
                             ({[ category ]} ∪ ls_categories st)))
              | None =>
                  Ok (Continue (mkLoop (ls_i st + 1) (ls_entries st)
                                  (ls_networks st) (ls_categories st)))
              end)); [apply returns_match_literal|].
  intros [h3|]; [|apply returns_ret].
  apply returns_bind; [apply returns_on_store|]. intros t.
  apply returns_bind; [apply returns_findNearestCategory|]. intros category.
  apply returns_bind.
  { apply returns_while_loop. intros j. apply returns_skip_blank_body. }
  intros j. apply returns_bind.
  { destruct (j <? length lines); [|apply returns_ret].
    apply returns_bind; [apply returns_on_store|]. intros l.
    apply returns_test_literal. }
  intros [|]; [|apply returns_ret].
  apply returns_bind.
  { apply returns_while_loop. intros s. apply returns_rows_body. }
  intros [[j' rows] networks]. apply returns_ret.
Qed.

Lemma returns_parseMarkdown md :
  returns (parseMarkdown_st md) (parseMarkdown md).
Proof.
  unfold parseMarkdown_st, parseMarkdown, parseLines.
  apply returns_bind; [apply returns_split_literal|]. intros lines.
  apply returns_bind; [|intros st; apply returns_ret].
  apply returns_while_loop. intros s. apply returns_parse_body.
Qed.

(** A shared object with the flag [g] is hidden state: the same test on
    the same string answers differently the second time. *)
Example shared_global_RegExp_remembers :
  ∃ σ1 σ2,
    RegExp_test_obj 0 (lit "a")
      (mkStore initial_state [mkRegExp (RChar (chr_eq 97%N)) true 0])
    = Ok (true, σ1) ∧
    RegExp_test_obj 0 (lit "a") σ1 = Ok (false, σ2).
Proof. do 2 eexists. split; reflexivity. Qed.

(** C8: the result of parsing depends on the text alone. On the store of
    the page (the [state] object and every [RegExp] object made so far,
    with any flags and any [lastIndex]), [parseMarkdown] returns the same
    result whatever the store holds, and returns it again when it is run
    a second time on the store the first run has left; a run leaves the
    [state] object and the objects that were there as they were, and only
    adds the objects of its own literals. *)
Theorem parse_deterministic md :
  ∃ r,
    parseMarkdown md = Ok r ∧
    ∀ σ, ∃ σ1 σ2,
      parseMarkdown_st md σ = Ok (r, σ1) ∧
      parseMarkdown_st md σ1 = Ok (r, σ2) ∧
      sto_page σ1 = sto_page σ ∧
      sto_page σ2 = sto_page σ ∧
      sto_regexps σ `prefix_of` sto_regexps σ1 ∧
      sto_regexps σ1 `prefix_of` sto_regexps σ2.
Proof.
  destruct (parseMarkdown_spec md) as (lines & r & _ & Hr & _).
  exists r. split; [done|]. intros σ.
  pose proof (returns_parseMarkdown md) as Hrun. rewrite Hr in Hrun.
  destruct (Hrun σ) as [more1 H1].
  destruct (Hrun (mkStore (sto_page σ) (sto_regexps σ ++ more1)))
    as [more2 H2].
  eexists _, _. split; [exact H1|]. split; [exact H2|]. simpl.
  repeat split; by eexists.
Qed.
